(** * The plan execution engine of KUDO, embedded in Rocq

    Source files:
    - [pkg/controller/instance/plan_execution_engine.go]: [executePlan],
      [executeStep], [patchExistingObject], [prepareKubeResources],
      [getStepFromStatus], [getPhaseFromStatus], [isFinished], [isInProgress];
    - the enhancer file of the same package: [metadata],
      [kubernetesObjectEnhancer], [kustomizeEnhancer],
      [applyConventionsToTemplates], [setControllerReference].

    Conventions of the embedding.
    - A Go pointer to a [PlanStatus] is a location of a heap
      [gmap ptr PlanStatus]; [&status.Phases[i]] and [&status.Steps[i]] are
      the index [i] together with the element read there, and a write through
      such a pointer is a list insert at that index.
    - A function that mutates its pointer argument takes the pointee and
      returns the new pointee.
    - A nil pointer dereference is the outcome [Panicked].
    - The cluster behind [client.Client] is a state of an arbitrary type
      threaded through the calls; every call of the client, and the log line
      that announces the execution of a step, is recorded as an [Event]. *)

From stdpp Require Import base option list strings gmap fin_maps.
From Stdlib Require Import DecimalString.

Open Scope string_scope.
Open Scope list_scope.
Open Scope nat_scope.

(** ** Data model (package v1alpha1) *)

(** Modelled from the spec: the enumeration [ExecutionStatus] of package
    v1alpha1, "Pending | InProgress | Complete | ErrorStatus |
    ExecutionFatalError", under the names the engine uses. *)
Inductive ExecutionStatus : Type :=
  | ExecutionInProgress
  | ExecutionPending
  | ExecutionComplete
  | ErrorStatus
  | ExecutionFatalError.

#[global] Instance ExecutionStatus_eq_dec : EqDecision ExecutionStatus.
Proof. solve_decision. Defined.

(** Modelled from the spec: [ExecutionStatus.IsTerminal] of package v1alpha1,
    "terminal ([Complete | ExecutionFatalError])". *)
Definition IsTerminal (s : ExecutionStatus) : bool :=
  match s with
  | ExecutionComplete | ExecutionFatalError => true
  | _ => false
  end.

Inductive Ordering : Type := Serial | Parallel.

#[global] Instance Ordering_eq_dec : EqDecision Ordering.
Proof. solve_decision. Defined.

(** [v1alpha1.Step], [v1alpha1.Phase], [v1alpha1.Plan], [v1alpha1.TaskSpec]:
    the fields the engine reads. *)
Record Step : Type := mkStep {
  stepName : string;
  stepTasks : list string;
  stepDelete : bool
}.

Record Phase : Type := mkPhase {
  phaseName : string;
  phaseStrategy : Ordering;
  phaseSteps : list Step
}.

Record Plan : Type := mkPlan {
  planStrategy : Ordering;
  planPhases : list Phase
}.

Record TaskSpec : Type := mkTaskSpec {
  taskResources : list string
}.

(** [v1alpha1.StepStatus], [v1alpha1.PhaseStatus], [v1alpha1.PlanStatus]. *)
Record StepStatus : Type := mkStepStatus {
  ssName : string;
  ssStatus : ExecutionStatus
}.

Record PhaseStatus : Type := mkPhaseStatus {
  phsName : string;
  phsStatus : ExecutionStatus;
  phsSteps : list StepStatus
}.

Record PlanStatus : Type := mkPlanStatus {
  plsName : string;
  plsStatus : ExecutionStatus;
  plsPhases : list PhaseStatus
}.

Definition setStepStatus (s : ExecutionStatus) (st : StepStatus) : StepStatus :=
  mkStepStatus (ssName st) s.

Definition setPhaseStatus (s : ExecutionStatus) (ph : PhaseStatus) : PhaseStatus :=
  mkPhaseStatus (phsName ph) s (phsSteps ph).

Definition setPhaseSteps (l : list StepStatus) (ph : PhaseStatus) : PhaseStatus :=
  mkPhaseStatus (phsName ph) (phsStatus ph) l.

Definition setPlanStatus (s : ExecutionStatus) (pl : PlanStatus) : PlanStatus :=
  mkPlanStatus (plsName pl) s (plsPhases pl).

Definition setPlanPhases (l : list PhaseStatus) (pl : PlanStatus) : PlanStatus :=
  mkPlanStatus (plsName pl) (plsStatus pl) l.

(** ** Cluster objects *)

Record OwnerObject : Type := mkOwner {
  ownerKind : string;
  ownerName : string
}.

Record OwnerReference : Type := mkOwnerReference {
  refKind : string;
  refName : string;
  refController : bool
}.

(** [runtime.Object]: the metadata the conventions are about, and the rest of
    the document as an opaque body. *)
Record Object : Type := mkObject {
  objKind : string;
  objName : string;
  objNamespace : string;
  objLabels : gmap string string;
  objAnnotations : gmap string string;
  objOwnerReferences : list OwnerReference;
  objBody : string
}.

(** [types.NamespacedName], as [client.ObjectKeyFromObject] builds it. *)
Definition ObjectKey : Type := (string * string)%type.

Definition ObjectKeyFromObject (o : Object) : ObjectKey :=
  (objNamespace o, objName o).

(** ** Errors *)

Inductive StatusReason : Type :=
  | StatusReasonNotFound
  | StatusReasonUnsupportedMediaType
  | StatusReasonOther (code : nat).

(** Go's [error] values as the engine meets them: a status error of the API
    machinery, a formatted message, a wrapped error, and a pointer to an
    [executionError].

    Modelled from the spec: the struct [executionError] of this package is not
    among the sources; the engine builds it as [&executionError{err, fatal,
    nil}], and the spec calls it "ExecutionError (fatal)" or "(non-fatal)". *)
Inductive error : Type :=
  | StatusError (reason : StatusReason) (message : string)
  | Errorf (format : string) (args : list string)
  | Wrap (cause : error) (message : string)
  | executionError (err : error) (fatal : bool).

(** [apierrors.IsNotFound], [apierrors.IsUnsupportedMediaType]. *)
Definition IsNotFound (e : error) : bool :=
  match e with StatusError StatusReasonNotFound _ => true | _ => false end.

Definition IsUnsupportedMediaType (e : error) : bool :=
  match e with StatusError StatusReasonUnsupportedMediaType _ => true | _ => false end.

(** [errors.As(err, &exErr)] with [exErr] of type [*executionError]: it looks
    for a [*executionError] along the chain of wrapped errors. *)
Fixpoint errorsAs_executionError (e : error) : bool :=
  match e with
  | executionError _ _ => true
  | Wrap cause _ => errorsAs_executionError cause
  | _ => false
  end.

(** The [fatal] field of the [*executionError] at the head of [e]. *)
Definition isFatal (e : error) : bool :=
  match e with executionError _ fatal => fatal | _ => false end.

(** ** The cluster client *)

Inductive PatchType : Type := StrategicMergePatchType | MergePatchType.

#[global] Instance PatchType_eq_dec : EqDecision PatchType.
Proof. solve_decision. Defined.

(** What the engine asks of the outside world, in the order it asks. *)
Inductive Event : Type :=
  | EvGet (key : ObjectKey)
  | EvCreate (obj : Object)
  | EvPatch (obj : Object) (pt : PatchType) (data : string)
  | EvDelete (obj : Object)
  | EvExecutingStep (name : string).

Definition isWrite (e : Event) : bool :=
  match e with
  | EvCreate _ | EvPatch _ _ _ | EvDelete _ => true
  | _ => false
  end.

(** [client.Client]: [Get] fills the object it is given, [Patch] updates the
    patched object with the answer of the server, [Delete] is called with
    foreground propagation. *)
Record Client (Cluster : Type) : Type := mkClient {
  clGet : Cluster → ObjectKey → Object → error + Object;
  clCreate : Cluster → Object → option error * Cluster;
  clPatch : Cluster → Object → PatchType → string → (error + Object) * Cluster;
  clDelete : Cluster → Object → option error * Cluster
}.
Arguments clGet {Cluster}.
Arguments clCreate {Cluster}.
Arguments clPatch {Cluster}.
Arguments clDelete {Cluster}.

(** ** The enhancer interface *)

(** [metadata] of the enhancer file. *)
Record metadata : Type := mkMetadata {
  InstanceName : string;
  Namespace : string;
  OperatorName : string;
  OperatorVersion : string;
  PlanName : string;
  PhaseName : string;
  StepName : string
}.

(** [kubernetesObjectEnhancer]. *)
Record kubernetesObjectEnhancer : Type := mkEnhancer {
  applyConventionsToTemplates :
    gmap string string → metadata → OwnerObject → error + list Object
}.

(** ** The engine's own types *)

Definition ptr : Type := nat.

Record activePlan : Type := mkActivePlan {
  apName : string;
  apPlanStatus : ptr;
  apSpec : Plan;
  apTasks : gmap string TaskSpec;
  apTemplates : gmap string string;
  apParams : gmap string string
}.

(** [planResources] with its [phaseResources] inlined: phase name, then step
    name, to the objects of the step. *)
Definition planResources : Type := gmap string (gmap string (list Object)).

Record executionMetadata : Type := mkExecutionMetadata {
  instanceName : string;
  instanceNamespace : string;
  operatorName : string;
  operatorVersionName : string;
  operatorVersion : string;
  resourcesOwner : OwnerObject
}.

(** The [configs] map of [prepareKubeResources], one field per key. *)
Record Configs : Type := mkConfigs {
  cfgOperatorName : string;
  cfgName : string;
  cfgNamespace : string;
  cfgParams : gmap string string;
  cfgPlanName : string;
  cfgPhaseName : string;
  cfgStepName : string;
  cfgStepNumber : string
}.

(** What the step executor does with one resource: the call that aborts the
    step with its error, a delete that went through (a resource that is not
    found counts as deleted; no health check follows), or a create or patch
    that went through, with the verdict of the health check. *)
Inductive resourceOutcome : Type :=
  | Failed (e : error)
  | Deleted
  | Applied (healthy : bool).

(** The result of [executePlan]: the pointer and the error it returns, with
    the heap, the cluster and the events it leaves. *)
Record tick (Cluster : Type) : Type := mkTick {
  tickState : ptr;
  tickErr : option error;
  tickHeap : gmap ptr PlanStatus;
  tickCluster : Cluster;
  tickEvents : list Event
}.
Arguments mkTick {Cluster}.
Arguments tickState {Cluster}.
Arguments tickErr {Cluster}.
Arguments tickHeap {Cluster}.
Arguments tickCluster {Cluster}.
Arguments tickEvents {Cluster}.

(** The result of a call that may panic. *)
Inductive Outcome (A : Type) : Type :=
  | Returned (a : A)
  | Panicked.
Arguments Returned {A}.
Arguments Panicked {A}.

(** ** Status predicates and lookups *)

Definition isFinished (state : ExecutionStatus) : bool :=
  bool_decide (state = ExecutionComplete).

Definition isInProgress (state : ExecutionStatus) : bool :=
  bool_decide (state = ExecutionInProgress)
  || bool_decide (state = ExecutionPending)
  || bool_decide (state = ErrorStatus).

(** [getStepFromStatus]: the first entry of [status.Steps] with the name, as
    index and element; [None] is the nil pointer returned with the error. *)
Definition getStepFromStatus (stepName : string) (status : PhaseStatus)
  : option (nat * StepStatus) :=
  list_find (λ p, ssName p = stepName) (phsSteps status).

(** [getPhaseFromStatus]. *)
Definition getPhaseFromStatus (phaseName : string) (status : PlanStatus)
  : option (nat * PhaseStatus) :=
  list_find (λ p, phsName p = phaseName) (plsPhases status).

(** [strconv.FormatInt(int64(j), 10)]. *)
Definition FormatInt (j : nat) : string :=
  NilZero.string_of_uint (Nat.to_uint j).

(** The collaborators the engine calls and the sources do not hold: the
    template engine [kudoengine.New().Render] of package engine, pure, which
    fails or gives the expanded template; [apijson.Marshal]; and
    [health.IsHealthy(c, obj)], for which [None] is healthy. *)
Class Libraries : Type := {
  Render : string → Configs → error + string;
  Marshal : Object → string
}.

Class HealthOracle (Cluster : Type) : Type := {
  IsHealthy : Cluster → Object → option error
}.

Section Engine.

Context {Cluster : Type} {libs : Libraries} {oracle : HealthOracle Cluster}.

(** *** patchExistingObject *)

(** The result is the error, the existing object as the patch left it, the
    cluster and the calls issued. *)
Definition patchExistingObject (newResource existingResource : Object)
    (c : Client Cluster) (cl : Cluster)
  : option error * Object * Cluster * list Event :=
  let newResourceJSON := Marshal newResource in
  let '(r1, cl1) := clPatch c cl existingResource StrategicMergePatchType newResourceJSON in
  let ev1 := EvPatch existingResource StrategicMergePatchType newResourceJSON in
  match r1 with
  | inr existing1 => (None, existing1, cl1, [ev1])
  | inl err =>
      if IsUnsupportedMediaType err then
        let '(r2, cl2) := clPatch c cl1 newResource MergePatchType newResourceJSON in
        let ev2 := EvPatch newResource MergePatchType newResourceJSON in
        match r2 with
        | inl err2 => (Some err2, existingResource, cl2, [ev1; ev2])
        | inr _ => (None, existingResource, cl2, [ev1; ev2])
        end
      else (Some err, existingResource, cl1, [ev1])
  end.

(** *** executeStep *)

(** The body of the loop [for _, r := range resources]. *)
Definition applyResource (step : Step) (r : Object) (c : Client Cluster) (cl : Cluster)
  : resourceOutcome * Cluster * list Event :=
  if stepDelete step then
    let '(err, cl1) := clDelete c cl r in
    match err with
    | Some e =>
        if IsNotFound e then (Deleted, cl1, [EvDelete r])
        else (Failed e, cl1, [EvDelete r])
    | None => (Deleted, cl1, [EvDelete r])
    end
  else
    let existingResource := r in
    let key := ObjectKeyFromObject r in
    match clGet c cl key existingResource with
    | inl err =>
        if IsNotFound err then
          let '(cerr, cl1) := clCreate c cl r in
          match cerr with
          | Some e => (Failed e, cl1, [EvGet key; EvCreate r])
          | None =>
              (Applied (bool_decide (IsHealthy cl1 existingResource = None)),
               cl1, [EvGet key; EvCreate r])
          end
        else (Failed err, cl, [EvGet key])
    | inr fetched =>
        let '(perr, existing1, cl1, evs) := patchExistingObject r fetched c cl in
        match perr with
        | Some e => (Failed e, cl1, EvGet key :: evs)
        | None =>
            (Applied (bool_decide (IsHealthy cl1 existing1 = None)),
             cl1, EvGet key :: evs)
        end
    end.

(** The loop over the resources with its local [allHealthy]: the error
    [executeStep] returns, or the final [allHealthy]. *)
Fixpoint applyResources (step : Step) (resources : list Object) (allHealthy : bool)
    (c : Client Cluster) (cl : Cluster)
  : (error + bool) * Cluster * list Event :=
  match resources with
  | [] => (inr allHealthy, cl, [])
  | r :: rest =>
      match applyResource step r c cl with
      | (Failed e, cl1, ev1) => (inl e, cl1, ev1)
      | (Deleted, cl1, ev1) =>
          let '(res, cl2, ev2) := applyResources step rest allHealthy c cl1 in
          (res, cl2, ev1 ++ ev2)
      | (Applied healthy, cl1, ev1) =>
          let '(res, cl2, ev2) :=
            applyResources step rest (if healthy then allHealthy else false) c cl1 in
          (res, cl2, ev1 ++ ev2)
      end
  end.

Definition executeStep (step : Step) (state : StepStatus) (resources : list Object)
    (c : Client Cluster) (cl : Cluster)
  : StepStatus * option error * Cluster * list Event :=
  if isInProgress (ssStatus state) then
    let state1 := setStepStatus ExecutionInProgress state in
    match applyResources step resources true c cl with
    | (inl e, cl1, evs) => (state1, Some e, cl1, evs)
    | (inr allHealthy, cl1, evs) =>
        if allHealthy
        then (setStepStatus ExecutionComplete state1, None, cl1, evs)
        else (state1, None, cl1, evs)
    end
  else (state, None, cl, []).

(** *** prepareKubeResources *)

(** [configs] as it stands when the templates of step number [j] are
    rendered. *)
Definition stepConfigs (plan : activePlan) (meta : executionMetadata)
    (phase : Phase) (j : nat) (step : Step) : Configs :=
  {| cfgOperatorName := operatorName meta;
     cfgName := instanceName meta;
     cfgNamespace := instanceNamespace meta;
     cfgParams := apParams plan;
     cfgPlanName := apName plan;
     cfgPhaseName := phaseName phase;
     cfgStepName := stepName step;
     cfgStepNumber := FormatInt j |}.

(** The [metadata] handed to the enhancer for a step. *)
Definition stepMetadata (plan : activePlan) (meta : executionMetadata)
    (phase : Phase) (step : Step) : metadata :=
  {| InstanceName := instanceName meta;
     Namespace := instanceNamespace meta;
     OperatorName := operatorName meta;
     OperatorVersion := operatorVersion meta;
     PlanName := apName plan;
     PhaseName := phaseName phase;
     StepName := stepName step |}.

(** The loop [for _, res := range taskSpec.Resources]. A failure is the
    status the caller writes to [phaseState.Status] and [stepState.Status]
    before it returns, with the error it returns. *)
Fixpoint renderResources (plan : activePlan) (meta : executionMetadata)
    (configs : Configs) (resources : list string)
    (resourcesAsString : gmap string string)
  : (ExecutionStatus * error) + gmap string string :=
  match resources with
  | [] => inr resourcesAsString
  | res :: rest =>
      match apTemplates plan !! res with
      | Some resource =>
          match Render resource configs with
          | inl err =>
              inl (ExecutionFatalError,
                   executionError (Wrap err "error expanding template") true)
          | inr templatedYaml =>
              renderResources plan meta configs rest
                (<[res := templatedYaml]> resourcesAsString)
          end
      | None =>
          inl (ExecutionFatalError,
               executionError
                 (Errorf "PlanExecution: Error finding resource named %v for operator version %v"
                    [res; operatorVersionName meta])
                 true)
      end
  end.

(** The loop [for _, t := range step.Tasks]. The message of a missing task
    formats the zero [taskSpec], not the name [t]. *)
Fixpoint prepareTasks (plan : activePlan) (meta : executionMetadata)
    (renderer : kubernetesObjectEnhancer) (phase : Phase) (j : nat) (step : Step)
    (tasks : list string) (resources : list Object)
  : (ExecutionStatus * error) + list Object :=
  match tasks with
  | [] => inr resources
  | t :: rest =>
      match apTasks plan !! t with
      | Some taskSpec =>
          match renderResources plan meta (stepConfigs plan meta phase j step)
                  (taskResources taskSpec) ∅ with
          | inl failure => inl failure
          | inr resourcesAsString =>
              match applyConventionsToTemplates renderer resourcesAsString
                      (stepMetadata plan meta phase step) (resourcesOwner meta) with
              | inl err => inl (ErrorStatus, executionError err false)
              | inr resourcesWithConventions =>
                  prepareTasks plan meta renderer phase j step rest
                    (resources ++ resourcesWithConventions)
              end
          end
      | None =>
          inl (ErrorStatus,
               executionError
                 (Errorf "Error finding task named %s for operator version %s"
                    ["{[]}"; operatorVersionName meta])
                 false)
      end
  end.

(** [phaseState.Status = s; stepState.Status = s] through the pointers
    [&status.Phases[i]] and [&phaseState.Steps[k]]. *)
Definition markFailed (s : ExecutionStatus) (i : nat) (phaseState : PhaseStatus)
    (k : nat) (stepState : StepStatus) (status : PlanStatus) : PlanStatus :=
  setPlanPhases
    (<[i := setPhaseSteps
              (<[k := setStepStatus s stepState]> (phsSteps phaseState))
              (setPhaseStatus s phaseState)]> (plsPhases status))
    status.

(** The loop [for j, step := range phase.Steps]. [getStepFromStatus] reads
    [status.Steps] of a nil [phaseState] and panics; a nil [stepState] is
    dereferenced only when a failure is written. *)
Fixpoint prepareSteps (plan : activePlan) (meta : executionMetadata)
    (renderer : kubernetesObjectEnhancer) (phase : Phase)
    (phaseState : option (nat * PhaseStatus)) (status : PlanStatus)
    (j : nat) (steps : list Step) (perStepResources : gmap string (list Object))
  : Outcome (PlanStatus * (error + gmap string (list Object))) :=
  match steps with
  | [] => Returned (status, inr perStepResources)
  | step :: rest =>
      match phaseState with
      | None => Panicked
      | Some (i, phs) =>
          let stepState := getStepFromStatus (stepName step) phs in
          match prepareTasks plan meta renderer phase j step (stepTasks step) [] with
          | inl (s, err) =>
              match stepState with
              | None => Panicked
              | Some (k, ss) => Returned (markFailed s i phs k ss status, inl err)
              end
          | inr resources =>
              prepareSteps plan meta renderer phase phaseState status (S j) rest
                (<[stepName step := resources]> perStepResources)
          end
      end
  end.

(** The loop [for _, phase := range plan.Spec.Phases]. The source enters the
    map of a phase in the result before it walks the steps and fills it
    through the shared map; entering it once it is filled gives the same
    result. *)
Fixpoint preparePhases (plan : activePlan) (meta : executionMetadata)
    (renderer : kubernetesObjectEnhancer) (phases : list Phase)
    (status : PlanStatus) (result : planResources)
  : Outcome (PlanStatus * (error + planResources)) :=
  match phases with
  | [] => Returned (status, inr result)
  | phase :: rest =>
      let phaseState := getPhaseFromStatus (phaseName phase) status in
      match prepareSteps plan meta renderer phase phaseState status 0
              (phaseSteps phase) ∅ with
      | Panicked => Panicked
      | Returned (status1, inl err) => Returned (status1, inl err)
      | Returned (status1, inr perStepResources) =>
          preparePhases plan meta renderer rest status1
            (<[phaseName phase := perStepResources]> result)
      end
  end.

(** [status] is the object [plan.PlanStatus] points to; the result carries
    it as the preparation left it. *)
Definition prepareKubeResources (plan : activePlan) (meta : executionMetadata)
    (renderer : kubernetesObjectEnhancer) (status : PlanStatus)
  : Outcome (PlanStatus * (error + planResources)) :=
  preparePhases plan meta renderer (planPhases (apSpec plan)) status ∅.

(** *** executePlan *)

(** The loop [for _, st := range ph.Steps] on the phase status
    [currentPhaseState] points to. The result is the error with which
    [executePlan] returns, or [allStepsHealthy]. *)
Fixpoint executeSteps (ph : Phase) (stepResources : gmap string (list Object))
    (steps : list Step) (currentPhaseState : PhaseStatus) (allStepsHealthy : bool)
    (c : Client Cluster) (cl : Cluster)
  : Outcome (PhaseStatus * (error + bool) * Cluster * list Event) :=
  match steps with
  | [] => Returned (currentPhaseState, inr allStepsHealthy, cl, [])
  | st :: rest =>
      match getStepFromStatus (stepName st) currentPhaseState with
      | None => Panicked
      | Some (j, currentStepState) =>
          let resources := default [] (stepResources !! stepName st) in
          let '(state1, err, cl1, evs) :=
            executeStep st currentStepState resources c cl in
          let ev1 := EvExecutingStep (stepName st) :: evs in
          match err with
          | Some e =>
              Returned
                (setPhaseSteps
                   (<[j := setStepStatus ErrorStatus state1]> (phsSteps currentPhaseState))
                   (setPhaseStatus ErrorStatus currentPhaseState),
                 inl e, cl1, ev1)
          | None =>
              let phaseState1 :=
                setPhaseSteps (<[j := state1]> (phsSteps currentPhaseState))
                  currentPhaseState in
              if isFinished (ssStatus state1) then
                match executeSteps ph stepResources rest phaseState1 allStepsHealthy c cl1 with
                | Panicked => Panicked
                | Returned (p, r, cl2, ev2) => Returned (p, r, cl2, ev1 ++ ev2)
                end
              else if bool_decide (phaseStrategy ph = Serial) then
                Returned (phaseState1, inr false, cl1, ev1)
              else
                match executeSteps ph stepResources rest phaseState1 false c cl1 with
                | Panicked => Panicked
                | Returned (p, r, cl2, ev2) => Returned (p, r, cl2, ev1 ++ ev2)
                end
          end
      end
  end.

(** How one iteration of the loop over the phases ends. *)
Inductive phaseExit : Type :=
  | PhaseContinue
  | PhaseBreak
  | PhaseReturn (err : error).

(** The body of the loop [for _, ph := range plan.Spec.Phases]. *)
Definition executePhase (ph : Phase) (resources : planResources)
    (newState : PlanStatus) (c : Client Cluster) (cl : Cluster)
  : Outcome (PlanStatus * phaseExit * Cluster * list Event) :=
  match getPhaseFromStatus (phaseName ph) newState with
  | None => Panicked
  | Some (i, currentPhaseState) =>
      if isFinished (phsStatus currentPhaseState) then
        Returned (newState, PhaseContinue, cl, [])
      else if isInProgress (phsStatus currentPhaseState) then
        let stepResources := default ∅ (resources !! phaseName ph) in
        let write p :=
          setPlanPhases (<[i := p]> (plsPhases newState))
            (setPlanStatus ExecutionInProgress newState) in
        match executeSteps ph stepResources (phaseSteps ph)
                (setPhaseStatus ExecutionInProgress currentPhaseState) true c cl with
        | Panicked => Panicked
        | Returned (phaseState1, inl err, cl1, evs) =>
            Returned (write phaseState1, PhaseReturn err, cl1, evs)
        | Returned (phaseState1, inr allStepsHealthy, cl1, evs) =>
            let phaseState2 :=
              if allStepsHealthy
              then setPhaseStatus ExecutionComplete phaseState1
              else phaseState1 in
            Returned
              (write phaseState2,
               if isFinished (phsStatus phaseState2) then PhaseContinue else PhaseBreak,
               cl1, evs)
        end
      else Returned (newState, PhaseBreak, cl, [])
  end.

(** The loop over the phases; the result is the error with which
    [executePlan] returns, or [allPhasesCompleted]. *)
Fixpoint executePhases (phases : list Phase) (resources : planResources)
    (newState : PlanStatus) (c : Client Cluster) (cl : Cluster)
  : Outcome (PlanStatus * (error + bool) * Cluster * list Event) :=
  match phases with
  | [] => Returned (newState, inr true, cl, [])
  | ph :: rest =>
      match executePhase ph resources newState c cl with
      | Panicked => Panicked
      | Returned (s1, PhaseReturn err, cl1, ev1) => Returned (s1, inl err, cl1, ev1)
      | Returned (s1, PhaseBreak, cl1, ev1) => Returned (s1, inr false, cl1, ev1)
      | Returned (s1, PhaseContinue, cl1, ev1) =>
          match executePhases rest resources s1 c cl1 with
          | Panicked => Panicked
          | Returned (s2, r, cl2, ev2) => Returned (s2, r, cl2, ev1 ++ ev2)
          end
      end
  end.

(** The working state [newState] is the address of the dereferenced
    [plan.PlanStatus]: Go's address operator applied to a pointer
    indirection gives the pointer back, so [newState] is [plan.PlanStatus]
    and no [PlanStatus] is copied. *)
Definition executePlan (plan : activePlan) (meta : executionMetadata)
    (c : Client Cluster) (renderer : kubernetesObjectEnhancer)
    (h : gmap ptr PlanStatus) (cl : Cluster) : Outcome (tick Cluster) :=
  match h !! apPlanStatus plan with
  | None => Panicked
  | Some status =>
      if IsTerminal (plsStatus status) then
        Returned (mkTick (apPlanStatus plan) None h cl [])
      else
        let newState := apPlanStatus plan in
        match prepareKubeResources plan meta renderer status with
        | Panicked => Panicked
        | Returned (status1, inl err) =>
            let h1 := <[apPlanStatus plan := status1]> h in
            let s := if errorsAs_executionError err
                     then ExecutionFatalError else ErrorStatus in
            Returned (mkTick newState (Some err)
                        (alter (setPlanStatus s) newState h1) cl [])
        | Returned (status1, inr resources) =>
            let h1 := <[apPlanStatus plan := status1]> h in
            match h1 !! newState with
            | None => Panicked
            | Some working =>
                match executePhases (planPhases (apSpec plan)) resources working c cl with
                | Panicked => Panicked
                | Returned (working1, inl err, cl1, evs) =>
                    Returned (mkTick newState (Some err)
                                (<[newState := working1]> h1) cl1 evs)
                | Returned (working1, inr allPhasesCompleted, cl1, evs) =>
                    let final :=
                      if allPhasesCompleted
                      then setPlanStatus ExecutionComplete working1
                      else working1 in
                    Returned (mkTick newState None (<[newState := final]> h1) cl1 evs)
                end
            end
        end
  end.

End Engine.

(** ** The kustomize enhancer *)

Definition basePath : string := "/kustomize".

(** Modelled from the spec: the label and annotation keys of package
    [pkg/util/kudo], "Labels applied to every emitted resource: heritage,
    operator, instance" and "Annotations applied to every emitted resource:
    plan, phase, step, operatorVersion". *)
Definition HeritageLabel : string := "heritage".
Definition OperatorLabel : string := "operator".
Definition InstanceLabel : string := "instance".
Definition PlanAnnotation : string := "plan".
Definition PhaseAnnotation : string := "phase".
Definition StepAnnotation : string := "step".
Definition OperatorVersionAnnotation : string := "operatorVersion".

(** [ktypes.Kustomization]: the fields the enhancer sets. *)
Record Kustomization : Type := mkKustomization {
  NamePrefix : string;
  KNamespace : string;
  CommonLabels : gmap string string;
  CommonAnnotations : gmap string string;
  DisableNameSuffixHash : bool;
  Resources : list string;
  PatchesStrategicMerge : list string
}.

(** A file of the scratch filesystem: a rendered template, or the descriptor
    as [yaml.Marshal] wrote it and the loader reads it back. *)
Inductive file : Type :=
  | TemplateFile (body : string)
  | KustomizationFile (k : Kustomization).

(** The descriptor [applyConventionsToTemplates] builds. *)
Definition kustomizationOf (templateNames : list string) (md : metadata) : Kustomization :=
  {| NamePrefix := InstanceName md +:+ "-";
     KNamespace := Namespace md;
     CommonLabels :=
       <[HeritageLabel := "kudo"]>
         (<[OperatorLabel := OperatorName md]>
            (<[InstanceLabel := InstanceName md]> ∅));
     CommonAnnotations :=
       <[PlanAnnotation := PlanName md]>
         (<[PhaseAnnotation := PhaseName md]>
            (<[StepAnnotation := StepName md]>
               (<[OperatorVersionAnnotation := OperatorVersion md]> ∅)));
     DisableNameSuffixHash := true;
     Resources := templateNames;
     PatchesStrategicMerge := [] |}.

(** Modelled from the spec: the customization of one resource by the
    kustomize engine, "produce a merged, labeled, prefixed, namespaced
    resource map": "every emitted resource's metadata name becomes
    <instanceName>-<originalName>. Namespace becomes <instanceNamespace>",
    with the common labels and annotations on every resource. *)
Definition customize (k : Kustomization) (o : Object) : Object :=
  {| objKind := objKind o;
     objName := NamePrefix k +:+ objName o;
     objNamespace := KNamespace k;
     objLabels := CommonLabels k ∪ objLabels o;
     objAnnotations := CommonAnnotations k ∪ objAnnotations o;
     objOwnerReferences := objOwnerReferences o;
     objBody := objBody o |}.

Definition sameOwner (a b : OwnerReference) : bool :=
  bool_decide (refKind a = refKind b) && bool_decide (refName a = refName b).

(** Modelled from the spec: [controllerutil.SetControllerReference], "Owner
    reference is set to the supplied owner with the controller bit"; it fails
    on an object another controller owns. *)
Definition SetControllerReference (owner : OwnerObject) (o : Object) : error + Object :=
  let ref := mkOwnerReference (ownerKind owner) (ownerName owner) true in
  if existsb (λ r, refController r && negb (sameOwner ref r)) (objOwnerReferences o)
  then inl (Errorf "Object %s/%s is already owned by another controller"
              [objNamespace o; objName o])
  else inr {| objKind := objKind o;
              objName := objName o;
              objNamespace := objNamespace o;
              objLabels := objLabels o;
              objAnnotations := objAnnotations o;
              objOwnerReferences :=
                filter (λ r, sameOwner ref r = false) (objOwnerReferences o) ++ [ref];
              objBody := objBody o |}.

Section Kustomize.

(** The YAML reader between a template body and the objects of its
    documents, which the source leaves to kustomize and to
    [template.ParseKubernetesObjects]. *)
Variable parseDocuments : string → error + list Object.

(** Modelled from the spec: the loader of the kustomize target, "Place every
    rendered template body into a scratch filesystem under stable names" and
    "resource list = the template names in the group": it reads the listed
    resources from the filesystem, in the order of the list. *)
Fixpoint loadResources (fsys : gmap string file) (names : list string)
  : error + list Object :=
  match names with
  | [] => inr []
  | n :: rest =>
      match fsys !! (basePath +:+ "/" +:+ n) with
      | Some (TemplateFile body) =>
          match parseDocuments body with
          | inl e => inl e
          | inr objs =>
              match loadResources fsys rest with
              | inl e => inl e
              | inr more => inr (objs ++ more)
              end
          end
      | _ => inl (Errorf "cannot read file %s" [n])
      end
  end.

(** Modelled from the spec: [MakeCustomizedResMap] of the kustomize target. *)
Definition MakeCustomizedResMap (fsys : gmap string file) : error + list Object :=
  match fsys !! (basePath +:+ "/kustomization.yaml") with
  | Some (KustomizationFile k) =>
      match loadResources fsys (Resources k) with
      | inl e => inl e
      | inr objs => inr (customize k <$> objs)
      end
  | _ => inl (Errorf "No kustomization file found in %s" [basePath])
  end.

(** The loop [for _, o := range objsToAdd] over [setControllerReference]. *)
Fixpoint setControllerReferences (owner : OwnerObject) (objs : list Object)
  : error + list Object :=
  match objs with
  | [] => inr []
  | o :: rest =>
      match SetControllerReference owner o with
      | inl err => inl (Wrap err "setting controller reference on parsed object")
      | inr o1 =>
          match setControllerReferences owner rest with
          | inl err => inl err
          | inr rest1 => inr (o1 :: rest1)
          end
      end
  end.

(** The method [applyConventionsToTemplates] of [kustomizeEnhancer]. The writes to the
    fake filesystem and the cleanup of the loader do not fail; the YAML the
    resource map is encoded to parses back to its resources. *)
Definition kustomizeEnhancer_applyConventionsToTemplates
    (templates : gmap string string) (md : metadata) (owner : OwnerObject)
  : error + list Object :=
  let entries := map_to_list templates in
  let templateNames := entries.*1 in
  let fsys :=
    foldl (λ fs kv, <[basePath +:+ "/" +:+ kv.1 := TemplateFile kv.2]> fs) ∅ entries in
  let kustomization := kustomizationOf templateNames md in
  let fsys := <[basePath +:+ "/kustomization.yaml" := KustomizationFile kustomization]> fsys in
  match MakeCustomizedResMap fsys with
  | inl err => inl (Wrap err "error creating customized resource map for kustomize")
  | inr allResources => setControllerReferences owner allResources
  end.

Definition kustomizeEnhancer : kubernetesObjectEnhancer :=
  mkEnhancer kustomizeEnhancer_applyConventionsToTemplates.

End Kustomize.

(** ** Notions the properties are stated with *)

(** The status of the entry a phase name leads to, and of the entry a step
    name leads to under it. *)
Definition phaseStatusOf (phase : string) (status : PlanStatus) : option ExecutionStatus :=
  '(_, phs) ← getPhaseFromStatus phase status; Some (phsStatus phs).

Definition stepStatusIn (step : string) (phs : PhaseStatus) : option ExecutionStatus :=
  '(_, ss) ← getStepFromStatus step phs; Some (ssStatus ss).

Definition stepStatusOf (phase step : string) (status : PlanStatus)
  : option ExecutionStatus :=
  '(_, phs) ← getPhaseFromStatus phase status; stepStatusIn step phs.

(** The steps whose execution the events announce, in order. *)
Definition executedSteps (evs : list Event) : list string :=
  omap (λ e, match e with EvExecutingStep n => Some n | _ => None end) evs.

(** The shape of a run of the loop over the steps of a phase that ends with
    the phase status [pst1], the result [r] and the events [evs]: the steps
    it executes are the first [n] steps of the phase; under Serial every
    executed step but the last is Complete at the end, and where a step is
    left unexecuted the last executed step is not Complete; under Parallel a
    run that ends without an error executes every step. *)
Definition stepsShape (ph : Phase) (steps : list Step) (pst1 : PhaseStatus)
    (r : error + bool) (evs : list Event) : Prop :=
  ∃ n : nat,
    n ≤ length steps
    ∧ executedSteps evs = stepName <$> take n steps
    ∧ (phaseStrategy ph = Serial →
         (∀ i st, S i < n → steps !! i = Some st →
                  stepStatusIn (stepName st) pst1 = Some ExecutionComplete)
         ∧ (n < length steps →
              0 < n ∧ ∃ st, steps !! (n - 1) = Some st
                            ∧ stepStatusIn (stepName st) pst1 ≠ Some ExecutionComplete))
    ∧ (phaseStrategy ph = Parallel → (∃ b : bool, r = inr b) → n = length steps).

(** "Every phase named in the spec has exactly one PhaseStatus; likewise for
    steps." *)
Definition stepsMatch (steps : list Step) (phs : PhaseStatus) : bool :=
  forallb
    (λ st, bool_decide
             (length (filter (λ s, ssName s = stepName st) (phsSteps phs)) = 1))
    steps.

Definition statusMatchesSpec (spec : Plan) (status : PlanStatus) : bool :=
  forallb
    (λ ph, match filter (λ p, phsName p = phaseName ph) (plsPhases status) with
           | [phs] => stepsMatch (phaseSteps ph) phs
           | _ => false
           end)
    (planPhases spec).

(** The names a status tree is looked up by: the names of its phases, each
    with the names of its steps. No write of the engine changes them. *)
Definition stepNames (phs : PhaseStatus) : list string := ssName <$> phsSteps phs.

Definition skeleton (status : PlanStatus) : list (string * list string) :=
  (λ p, (phsName p, stepNames p)) <$> plsPhases status.

(** The step names under the entry a phase name leads to. *)
Definition namesOf (status : PlanStatus) (phase : string) : option (list string) :=
  '(_, phs) ← getPhaseFromStatus phase status; Some (stepNames phs).

(** Every lookup of a phase or step of the spec finds an entry. *)
Definition hasEntries (spec : Plan) (status : PlanStatus) : Prop :=
  Forall
    (λ ph, ∃ names, namesOf status (phaseName ph) = Some names
                    ∧ Forall (λ st, stepName st ∈ names) (phaseSteps ph))
    (planPhases spec).

(** The steps of a phase of the spec have different names. *)
Definition distinctStepNames (spec : Plan) : Prop :=
  Forall (λ ph, NoDup (stepName <$> phaseSteps ph)) (planPhases spec).

(** An unchanged cluster: no create, patch or delete changes its state. *)
Definition quiescent {Cluster : Type} (c : Client Cluster) (cl : Cluster) : Prop :=
  ∀ r, (clCreate c cl r).2 = cl
       ∧ (clDelete c cl r).2 = cl
       ∧ ∀ pt data, (clPatch c cl r pt data).2 = cl.

(** The conventions of the enhancer on one object. *)
Definition carriesConventions (md : metadata) (owner : OwnerObject) (o : Object) : Prop :=
  objLabels o !! "heritage" = Some "kudo"
  ∧ objLabels o !! "operator" = Some (OperatorName md)
  ∧ objLabels o !! "instance" = Some (InstanceName md)
  ∧ objAnnotations o !! "plan" = Some (PlanName md)
  ∧ objAnnotations o !! "phase" = Some (PhaseName md)
  ∧ objAnnotations o !! "step" = Some (StepName md)
  ∧ objAnnotations o !! "operatorVersion" = Some (OperatorVersion md)
  ∧ (∃ original, objName o = InstanceName md +:+ "-" +:+ original)
  ∧ objNamespace o = Namespace md
  ∧ mkOwnerReference (ownerKind owner) (ownerName owner) true ∈ objOwnerReferences o.

(** The two lookups of the preparation that can come back empty. *)
Inductive lookupFailure : Type := MissingTask | MissingTemplate.

(** The status and the error of a step that fails first on a lookup. *)
Definition failureStatus (kind : lookupFailure) : ExecutionStatus :=
  match kind with
  | MissingTask => ErrorStatus
  | MissingTemplate => ExecutionFatalError
  end.

Definition failureFatal (kind : lookupFailure) : bool :=
  match kind with
  | MissingTask => false
  | MissingTemplate => true
  end.

(** A resource that was neither created, patched nor deleted with an error. *)
Definition wentThrough (o : resourceOutcome) : Prop :=
  match o with Failed _ => False | _ => True end.

(** A resource that went through and, where a health check was made, passed
    it. *)
Definition wentThroughHealthy (o : resourceOutcome) : Prop :=
  o = Deleted ∨ o = Applied true.

Section Notions.

Context {Cluster : Type} {libs : Libraries} {oracle : HealthOracle Cluster}.

(** What happens to each resource of a step, in order, up to the first that
    fails. *)
Fixpoint resourceOutcomes (step : Step) (resources : list Object)
    (c : Client Cluster) (cl : Cluster) : list resourceOutcome :=
  match resources with
  | [] => []
  | r :: rest =>
      match applyResource step r c cl with
      | (Failed e, _, _) => [Failed e]
      | (o, cl1, _) => o :: resourceOutcomes step rest c cl1
      end
  end.

(** What [allHealthy] becomes over a list of outcomes. *)
Fixpoint verdict (allHealthy : bool) (outs : list resourceOutcome) : error + bool :=
  match outs with
  | [] => inr allHealthy
  | Failed e :: _ => inl e
  | Deleted :: rest => verdict allHealthy rest
  | Applied healthy :: rest => verdict (if healthy then allHealthy else false) rest
  end.

(** The tasks of step number [j] of a phase prepare without a failure. *)
Definition stepPrepares (plan : activePlan) (meta : executionMetadata)
    (renderer : kubernetesObjectEnhancer) (phase : Phase) (j : nat) (step : Step) : Prop :=
  ∃ objs, prepareTasks plan meta renderer phase j step (stepTasks step) [] = inr objs.

Definition phasePrepares (plan : activePlan) (meta : executionMetadata)
    (renderer : kubernetesObjectEnhancer) (phase : Phase) : Prop :=
  ∀ j step, phaseSteps phase !! j = Some step →
            stepPrepares plan meta renderer phase j step.

(** The first thing to fail among the tasks of step number [j] is the lookup
    of a task in the task catalog, or the lookup of a resource key of a task
    in the template catalog. *)
Definition failsOn (kind : lookupFailure) (plan : activePlan) (meta : executionMetadata)
    (renderer : kubernetesObjectEnhancer) (phase : Phase) (j : nat) (step : Step) : Prop :=
  ∃ ts1 t ts2 objs,
    stepTasks step = ts1 ++ t :: ts2
    ∧ prepareTasks plan meta renderer phase j step ts1 [] = inr objs
    ∧ match kind with
      | MissingTask => apTasks plan !! t = None
      | MissingTemplate =>
          ∃ taskSpec rs1 res rs2 rendered,
            apTasks plan !! t = Some taskSpec
            ∧ taskResources taskSpec = rs1 ++ res :: rs2
            ∧ renderResources plan meta (stepConfigs plan meta phase j step)
                rs1 ∅ = inr rendered
            ∧ apTemplates plan !! res = None
      end.

(** [step] of [phase] is where the walk of the preparation fails first, and
    it fails there on a lookup of the given kind. *)
Definition firstFailure (kind : lookupFailure) (plan : activePlan)
    (meta : executionMetadata) (renderer : kubernetesObjectEnhancer)
    (phase : Phase) (step : Step) : Prop :=
  ∃ phs1 phs2 sts1 sts2,
    planPhases (apSpec plan) = phs1 ++ phase :: phs2
    ∧ Forall (phasePrepares plan meta renderer) phs1
    ∧ phaseSteps phase = sts1 ++ step :: sts2
    ∧ (∀ j s, sts1 !! j = Some s → stepPrepares plan meta renderer phase j s)
    ∧ failsOn kind plan meta renderer phase (length sts1) step.

End Notions.

(** The keys a list of calls reads, and the objects it deletes, in order. *)
Definition fetched (evs : list Event) : list ObjectKey :=
  omap (λ e, match e with EvGet k => Some k | _ => None end) evs.

Definition deletions (evs : list Event) : list Object :=
  omap (λ e, match e with EvDelete o => Some o | _ => None end) evs.

(** No entry of the status is at ExecutionFatalError. *)
Definition noneFatal (status : PlanStatus) : Prop :=
  Forall
    (λ p, phsStatus p ≠ ExecutionFatalError
          ∧ Forall (λ s, ssStatus s ≠ ExecutionFatalError) (phsSteps p))
    (plsPhases status).

Section Weather.

Context {Cluster : Type} {libs : Libraries} {oracle : HealthOracle Cluster}.

(** A cluster on which every resource goes through and is healthy. *)
Definition alwaysHealthy (c : Client Cluster) : Prop :=
  ∀ step r cl, wentThroughHealthy (applyResource step r c cl).1.1.

End Weather.

Section Runs.

Context {Cluster : Type} {libs : Libraries} {oracle : HealthOracle Cluster}.

(** What the execution of each step of a list gives when the steps are
    executed one after the other, whatever the strategy, each on the phase
    status and the cluster the one before leaves: the error [executeStep]
    returns, and whether it leaves the step Complete. The list ends where a
    step has no entry. *)
Fixpoint stepResults (res : gmap string (list Object)) (steps : list Step)
    (pst : PhaseStatus) (c : Client Cluster) (cl : Cluster)
  : list (option error * bool) :=
  match steps with
  | [] => []
  | st :: rest =>
      match getStepFromStatus (stepName st) pst with
      | None => []
      | Some (j, cur) =>
          let '(state1, err, cl1, _) :=
            executeStep st cur (default [] (res !! stepName st)) c cl in
          (err, isFinished (ssStatus state1))
            :: stepResults res rest
                 (setPhaseSteps (<[j := state1]> (phsSteps pst)) pst) c cl1
      end
  end.

End Runs.

(** The call [call], made on the cluster [cl], is answered with the error
    [e] and leaves the cluster [cl1]. *)
Definition answers {Cluster : Type} (c : Client Cluster) (call : Event) (cl : Cluster)
    (e : error) (cl1 : Cluster) : Prop :=
  match call with
  | EvGet key => ∃ into, clGet c cl key into = inl e ∧ cl1 = cl
  | EvCreate r => clCreate c cl r = (Some e, cl1)
  | EvPatch r pt data => clPatch c cl r pt data = (inl e, cl1)
  | EvDelete r => clDelete c cl r = (Some e, cl1)
  | EvExecutingStep _ => False
  end.

(** No status is at ExecutionFatalError in [after] that was not in
    [before], position by position: the steps of a phase, and the top-level
    status, the phases and their steps of a plan. *)
Definition stepsNoNewFatal (before after : PhaseStatus) : Prop :=
  ∀ k s', phsSteps after !! k = Some s' →
          ∃ s, phsSteps before !! k = Some s
               ∧ (ssStatus s' = ExecutionFatalError → ssStatus s = ExecutionFatalError).

Definition noNewFatal (before after : PlanStatus) : Prop :=
  (plsStatus after = ExecutionFatalError → plsStatus before = ExecutionFatalError)
  ∧ ∀ i p', plsPhases after !! i = Some p' →
            ∃ p, plsPhases before !! i = Some p
                 ∧ (phsStatus p' = ExecutionFatalError →
                    phsStatus p = ExecutionFatalError)
                 ∧ stepsNoNewFatal p p'.

Section StepSpec.

Context {Cluster : Type} {libs : Libraries} {oracle : HealthOracle Cluster}.

(** Section 4.4 of the spec, stated on the answers of the cluster. A
    resource of a step that deletes is deleted without error, from the
    cluster [cl] to [cl1]: the delete answers no error, or not-found. *)
Definition deletedCleanly (c : Client Cluster) (r : Object) (cl cl1 : Cluster) : Prop :=
  ∃ err, clDelete c cl r = (err, cl1) ∧ ∀ e, err = Some e → IsNotFound e = true.

(** The patch policy of section 4.4.1: the strategic merge patch of the
    existing object, with the JSON of the new object, answers without error;
    or it answers UnsupportedMediaType and the merge patch of the new object
    answers without error. [checked] is the object the health check is then
    made on: the existing object as the patch left it. *)
Definition patchedCleanly (c : Client Cluster) (r fetched : Object) (cl cl1 : Cluster)
    (checked : Object) : Prop :=
  clPatch c cl fetched StrategicMergePatchType (Marshal r) = (inr checked, cl1)
  ∨ ∃ e cl' o,
      clPatch c cl fetched StrategicMergePatchType (Marshal r) = (inl e, cl')
      ∧ IsUnsupportedMediaType e = true
      ∧ clPatch c cl' r MergePatchType (Marshal r) = (inr o, cl1)
      ∧ checked = fetched.

(** A resource of a step that applies is applied without error: the fetch
    answers not-found and the create answers no error, the health check
    being then made on the resource itself; or the fetch answers the
    existing object and the patch goes through. *)
Definition appliedCleanly (c : Client Cluster) (r : Object) (cl cl1 : Cluster)
    (checked : Object) : Prop :=
  (∃ e, clGet c cl (ObjectKeyFromObject r) r = inl e
        ∧ IsNotFound e = true
        ∧ clCreate c cl r = (None, cl1)
        ∧ checked = r)
  ∨ (∃ fetched, clGet c cl (ObjectKeyFromObject r) r = inr fetched
                ∧ patchedCleanly c r fetched cl cl1 checked).

(** Every resource of the list is applied or deleted without error, one
    after the other, from the cluster [cl] to [cl1]; the flag tells whether
    every health check that was made passed. No health check is made on a
    deleted resource. *)
Inductive goesThrough (c : Client Cluster) (step : Step)
  : list Object → Cluster → bool → Cluster → Prop :=
  | goesThrough_nil cl : goesThrough c step [] cl true cl
  | goesThrough_delete r rs cl cl1 cl2 healthy :
      stepDelete step = true →
      deletedCleanly c r cl cl1 →
      goesThrough c step rs cl1 healthy cl2 →
      goesThrough c step (r :: rs) cl healthy cl2
  | goesThrough_apply r rs cl cl1 cl2 checked healthy :
      stepDelete step = false →
      appliedCleanly c r cl cl1 checked →
      goesThrough c step rs cl1 healthy cl2 →
      goesThrough c step (r :: rs) cl
        (bool_decide (IsHealthy cl1 checked = None) && healthy) cl2.

End StepSpec.

Section TaskSpec.

Context {libs : Libraries}.

(** The objects of one task of step number [j] of a phase: the task is in
    the task catalog; every resource key of the task is in the template
    catalog and its template renders under the configuration of the step;
    and the objects are what the enhancer makes of the rendered templates,
    filed by resource key and no other, under the metadata of the step and
    the owner of the instance. *)
Definition taskObjects (plan : activePlan) (meta : executionMetadata)
    (renderer : kubernetesObjectEnhancer) (phase : Phase) (j : nat) (step : Step)
    (t : string) (objs : list Object) : Prop :=
  ∃ (taskSpec : TaskSpec) (rendered : gmap string string),
    apTasks plan !! t = Some taskSpec
    ∧ (∀ key, key ∈ taskResources taskSpec →
              ∃ template text,
                apTemplates plan !! key = Some template
                ∧ Render template (stepConfigs plan meta phase j step) = inr text
                ∧ rendered !! key = Some text)
    ∧ (∀ key, key ∉ taskResources taskSpec → rendered !! key = None)
    ∧ applyConventionsToTemplates renderer rendered
        (stepMetadata plan meta phase step) (resourcesOwner meta) = inr objs.

End TaskSpec.

(** ** A small world to run the engine in *)

Module Fixtures.

(** A template engine that rejects one template, and a JSON encoding that
    keeps the body of an object. *)
#[export] Instance libraries : Libraries :=
  {| Render := λ t cfg,
       if bool_decide (t = "{{bad") then inl (Errorf "template: unexpected bad" [])
       else inr t;
     Marshal := objBody |}.

Definition withBody (b : string) (o : Object) : Object :=
  mkObject (objKind o) (objName o) (objNamespace o) (objLabels o)
    (objAnnotations o) (objOwnerReferences o) b.

(** An object is healthy when its body says so. *)
#[export] Instance bodyHealth {Cluster : Type} : HealthOracle Cluster :=
  {| IsHealthy := λ cl o,
       if bool_decide (objBody o = "ready") then None
       else Some (Errorf "object %s is not healthy" [objName o]) |}.

(** A cluster in memory: objects by key. Objects of kind Broken cannot be
    read, and objects of kind Custom refuse strategic merge patches. *)
Definition memClient : Client (gmap (string * string) Object) :=
  {| clGet := λ cl key into,
       if bool_decide (objKind into = "Broken")
       then inl (StatusError (StatusReasonOther 500) "internal error")
       else match cl !! key with
            | Some o => inr o
            | None => inl (StatusError StatusReasonNotFound "not found")
            end;
     clCreate := λ cl r,
       match cl !! ObjectKeyFromObject r with
       | Some _ => (Some (StatusError (StatusReasonOther 409) "already exists"), cl)
       | None => (None, <[ObjectKeyFromObject r := r]> cl)
       end;
     clPatch := λ cl target pt data,
       if bool_decide (pt = StrategicMergePatchType)
          && bool_decide (objKind target = "Custom")
       then (inl (StatusError StatusReasonUnsupportedMediaType "unsupported media type"), cl)
       else (inr (withBody data target),
             <[ObjectKeyFromObject target := withBody data target]> cl);
     clDelete := λ cl r,
       match cl !! ObjectKeyFromObject r with
       | Some _ => (None, delete (ObjectKeyFromObject r) cl)
       | None => (Some (StatusError StatusReasonNotFound "not found"), cl)
       end |}.

(** A cluster that holds every object as it is asked for and that no call
    changes. *)
Definition staticClient : Client unit :=
  {| clGet := λ _ _ into, inr into;
     clCreate := λ _ _, (Some (StatusError (StatusReasonOther 409) "already exists"), tt);
     clPatch := λ _ target _ _, (inr target, tt);
     clDelete := λ _ _, (None, tt) |}.

(** One document per template; its body names the object. *)
Definition parseDocuments (body : string) : error + list Object :=
  if bool_decide (body = "") then inl (Errorf "yaml: empty document" [])
  else inr [mkObject
              (if bool_decide (body = "broken") then "Broken"
               else if bool_decide (body = "custom") then "Custom" else "Deployment")
              body "" ∅ ∅ [] body].

Definition enhancer : kubernetesObjectEnhancer := kustomizeEnhancer parseDocuments.

Definition meta : executionMetadata :=
  mkExecutionMetadata "inst" "default" "op" "op-1.0" "1.0" (mkOwner "Instance" "inst").

Definition tasks : gmap string TaskSpec :=
  <["up" := mkTaskSpec ["ready.yaml"]]>
    (<["slow" := mkTaskSpec ["unhealthy.yaml"]]>
       (<["broken" := mkTaskSpec ["broken.yaml"]]>
          (<["dangling" := mkTaskSpec ["missing.yaml"]]> ∅))).

Definition templates : gmap string string :=
  <["ready.yaml" := "ready"]>
    (<["unhealthy.yaml" := "unhealthy"]>
       (<["broken.yaml" := "broken"]> ∅)).

(** A plan of one phase with the steps "one" and "two", of one task each. *)
Definition phaseMain (strategy : Ordering) (t1 t2 : string) : Phase :=
  mkPhase "main" strategy [mkStep "one" [t1] false; mkStep "two" [t2] false].

Definition planOf (strategy : Ordering) (t1 t2 : string) : activePlan :=
  mkActivePlan "deploy" 0 (mkPlan Serial [phaseMain strategy t1 t2]) tasks templates ∅.

Definition pending : PlanStatus :=
  mkPlanStatus "deploy" ExecutionPending
    [mkPhaseStatus "main" ExecutionPending
       [mkStepStatus "one" ExecutionPending; mkStepStatus "two" ExecutionPending]].

Definition heapOf (status : PlanStatus) : gmap ptr PlanStatus := <[0 := status]> ∅.

(** An object that is not healthy, as the resource of step "one". *)
Definition slowObject : Object :=
  mkObject "Deployment" "inst-web" "default" ∅ ∅ [] "unhealthy".

Definition slowResources : gmap string (list Object) := <["one" := [slowObject]]> ∅.

Definition mainPending : PhaseStatus :=
  mkPhaseStatus "main" ExecutionInProgress
    [mkStepStatus "one" ExecutionPending; mkStepStatus "two" ExecutionPending].

(** A plan without phases and its status. *)
Definition emptyPlan : activePlan :=
  mkActivePlan "noop" 0 (mkPlan Serial []) ∅ ∅ ∅.

Definition emptyPending : PlanStatus := mkPlanStatus "noop" ExecutionPending [].

(** One tick on the cluster in memory, and on the unchanging cluster. *)
Definition run (plan : activePlan) (h : gmap ptr PlanStatus)
  : Outcome (tick (gmap (string * string) Object)) :=
  executePlan plan meta memClient enhancer h ∅.

Definition runStatic (plan : activePlan) (h : gmap ptr PlanStatus)
  : Outcome (tick unit) :=
  executePlan plan meta staticClient enhancer h tt.

(** What a tick leaves at a pointer. *)
Definition statusAt {Cluster : Type} (p : ptr) (o : Outcome (tick Cluster))
  : option PlanStatus :=
  match o with
  | Returned t => tickHeap t !! p
  | Panicked => None
  end.

Definition eventsOf {Cluster : Type} (o : Outcome (tick Cluster)) : list Event :=
  match o with
  | Returned t => tickEvents t
  | Panicked => []
  end.

Definition errOf {Cluster : Type} (o : Outcome (tick Cluster)) : option error :=
  match o with
  | Returned t => tickErr t
  | Panicked => None
  end.

(** A health check that every object passes. *)
Definition healthyOracle : HealthOracle unit := {| IsHealthy := λ _ _, None |}.

(** A status in which step "one" is Complete, and one whose phase stands at
    ExecutionFatalError under a plan that is in progress. *)
Definition halfway : PlanStatus :=
  mkPlanStatus "deploy" ExecutionInProgress
    [mkPhaseStatus "main" ExecutionInProgress
       [mkStepStatus "one" ExecutionComplete; mkStepStatus "two" ExecutionPending]].

Definition stuck : PlanStatus :=
  mkPlanStatus "deploy" ExecutionInProgress
    [mkPhaseStatus "main" ExecutionFatalError
       [mkStepStatus "one" ExecutionFatalError; mkStepStatus "two" ExecutionPending]].

(** An object that is healthy, as the resource of both steps of "main". *)
Definition readyObject : Object :=
  mkObject "Deployment" "inst-web" "default" ∅ ∅ [] "ready".

Definition readyResources : planResources :=
  <["main" := <["one" := [readyObject]]> (<["two" := [readyObject]]> ∅)]> ∅.

(** An object that cannot be read, as the resource of step "one", with a
    healthy one for step "two". *)
Definition brokenObject : Object :=
  mkObject "Broken" "inst-web" "default" ∅ ∅ [] "broken".

Definition brokenResources : gmap string (list Object) :=
  <["one" := [brokenObject]]> (<["two" := [readyObject]]> ∅).

(** A cluster that admits what is created and holds it ready from then on:
    a create stores the object as ready, a read answers what is stored, a
    patch changes nothing and a delete removes the object. *)
Definition admittingClient : Client (gmap (string * string) Object) :=
  {| clGet := λ cl key into,
       match cl !! key with
       | Some o => inr o
       | None => inl (StatusError StatusReasonNotFound "not found")
       end;
     clCreate := λ cl r, (None, <[ObjectKeyFromObject r := withBody "ready" r]> cl);
     clPatch := λ cl target pt data, (inr target, cl);
     clDelete := λ cl r, (None, delete (ObjectKeyFromObject r) cl) |}.

(** A plan whose phase has two steps of one name: the first applies, the
    second deletes. Its status has the one entry of that name. *)
Definition sameNamePlan : activePlan :=
  mkActivePlan "deploy" 0
    (mkPlan Serial
       [mkPhase "main" Parallel
          [mkStep "one" ["up"] false; mkStep "one" ["slow"] true]])
    tasks templates ∅.

Definition sameNamePending : PlanStatus :=
  mkPlanStatus "deploy" ExecutionPending
    [mkPhaseStatus "main" ExecutionPending [mkStepStatus "one" ExecutionPending]].

(** A plan of two phases of one step each, and its status. *)
Definition twoPhases : activePlan :=
  mkActivePlan "deploy" 0
    (mkPlan Serial
       [mkPhase "first" Serial [mkStep "a" ["up"] false];
        mkPhase "second" Serial [mkStep "b" ["up"] false]])
    tasks templates ∅.

Definition twoPending : PlanStatus :=
  mkPlanStatus "deploy" ExecutionPending
    [mkPhaseStatus "first" ExecutionPending [mkStepStatus "a" ExecutionPending];
     mkPhaseStatus "second" ExecutionPending [mkStepStatus "b" ExecutionPending]].

End Fixtures.

(** * Properties *)

(** ** Status predicates *)

Lemma isFinished_true s : isFinished s = true ↔ s = ExecutionComplete.
Proof. unfold isFinished. by rewrite bool_decide_eq_true. Qed.

Lemma isFinished_false s : isFinished s = false ↔ s ≠ ExecutionComplete.
Proof. unfold isFinished. by rewrite bool_decide_eq_false. Qed.

Lemma isInProgress_not_finished s : isInProgress s = true → isFinished s = false.
Proof. by destruct s. Qed.

Lemma isInProgress_ErrorStatus : isInProgress ErrorStatus = true.
Proof. done. Qed.

(** ** The step executor *)

Section StepExecutor.

Context {Cluster : Type} {libs : Libraries} {oracle : HealthOracle Cluster}.

Lemma applyResources_verdict step resources b c cl :
  (applyResources step resources b c cl).1.1
  = verdict b (resourceOutcomes step resources c cl).
Proof.
  revert b cl. induction resources as [|r rest IH]; intros b cl; simpl; [done|].
  destruct (applyResource step r c cl) as [[o cl1] ev1].
  destruct o as [e| |healthy]; simpl; [done| |].
  - specialize (IH b cl1).
    by destruct (applyResources step rest b c cl1) as [[res cl2] ev2].
  - specialize (IH (if healthy then b else false) cl1).
    by destruct (applyResources step rest _ c cl1) as [[res cl2] ev2].
Qed.

Lemma resourceOutcomes_length step resources c cl :
  Forall wentThrough (resourceOutcomes step resources c cl) →
  length (resourceOutcomes step resources c cl) = length resources.
Proof.
  revert cl. induction resources as [|r rest IH]; intros cl; simpl; [done|].
  destruct (applyResource step r c cl) as [[o cl1] ev1].
  destruct o as [e| |healthy]; simpl.
  - by intros [[] _]%Forall_cons.
  - intros [_ H]%Forall_cons. by rewrite IH.
  - intros [_ H]%Forall_cons. by rewrite IH.
Qed.

Lemma verdict_false outs : verdict false outs ≠ inr true.
Proof.
  induction outs as [|[e| |[]] rest IH]; simpl; try done.
Qed.

Lemma verdict_true_iff outs :
  verdict true outs = inr true ↔ Forall wentThroughHealthy outs.
Proof.
  induction outs as [|o rest IH]; simpl.
  - split; [constructor | done].
  - destruct o as [e| |[]].
    + split; [done|]. intros [[|] _]%Forall_cons; done.
    + rewrite IH. split; [intros; constructor; [by left | done]|].
      by intros [_ ?]%Forall_cons.
    + rewrite IH. split; [intros; constructor; [by right | done]|].
      by intros [_ ?]%Forall_cons.
    + split; [by intros ?%verdict_false|].
      intros [[|] _]%Forall_cons; done.
Qed.

Lemma verdict_wentThrough b outs :
  Forall wentThrough outs → ∃ b', verdict b outs = inr b'.
Proof.
  revert b. induction outs as [|o rest IH]; intros b; simpl; [eauto|].
  intros [Ho Hrest]%Forall_cons. destruct o as [e| |healthy]; [done| |]; eauto.
Qed.

Lemma wentThroughHealthy_wentThrough o : wentThroughHealthy o → wentThrough o.
Proof. by intros [-> | ->]. Qed.

(** The shape of a run of [executeStep] on a step that is in progress. *)
Lemma executeStep_inProgress step state resources c cl :
  isInProgress (ssStatus state) = true →
  let '(state1, err, _, _) := executeStep step state resources c cl in
  match verdict true (resourceOutcomes step resources c cl) with
  | inl e => state1 = setStepStatus ExecutionInProgress state ∧ err = Some e
  | inr true => state1 = setStepStatus ExecutionComplete state ∧ err = None
  | inr false => state1 = setStepStatus ExecutionInProgress state ∧ err = None
  end.
Proof.
  intros Hin. unfold executeStep. rewrite Hin.
  rewrite <- applyResources_verdict.
  destruct (applyResources step resources true c cl) as [[res cl1] evs].
  simpl. by destruct res as [e|[]].
Qed.

(** The step executor against section 4.4 of the spec: a resource that is
    deleted or applied without error, on the answers of the cluster, is what
    [applyResource] reports, with the cluster it leaves. *)
Lemma deletedCleanly_applyResource step r c cl cl1 :
  stepDelete step = true →
  deletedCleanly c r cl cl1 →
  ∃ evs, applyResource step r c cl = (Deleted, cl1, evs).
Proof.
  intros Hd (err & Hcall & Hnf). unfold applyResource. rewrite Hd, Hcall.
  destruct err as [e|]; [|by eexists]. rewrite (Hnf e eq_refl). by eexists.
Qed.

Lemma appliedCleanly_applyResource step r c cl cl1 checked :
  stepDelete step = false →
  appliedCleanly c r cl cl1 checked →
  ∃ evs, applyResource step r c cl
         = (Applied (bool_decide (IsHealthy cl1 checked = None)), cl1, evs).
Proof.
  intros Hd Happ. unfold applyResource. rewrite Hd.
  destruct Happ as [(e & Hget & Hnf & Hcreate & ->)|(fetched & Hget & Hpatch)];
    rewrite Hget.
  - rewrite Hnf, Hcreate. by eexists.
  - unfold patchExistingObject.
    destruct Hpatch as [Hp|(e & cl' & o & Hp & Hmedia & Hp2 & ->)]; rewrite Hp.
    + by eexists.
    + rewrite Hmedia, Hp2. by eexists.
Qed.

Lemma applyResource_cleanly step r c cl o cl1 evs :
  applyResource step r c cl = (o, cl1, evs) →
  match o with
  | Failed _ => True
  | Deleted => stepDelete step = true ∧ deletedCleanly c r cl cl1
  | Applied healthy =>
      stepDelete step = false
      ∧ ∃ checked, appliedCleanly c r cl cl1 checked
                   ∧ healthy = bool_decide (IsHealthy cl1 checked = None)
  end.
Proof.
  unfold applyResource. destruct (stepDelete step) eqn:Hd.
  - destruct (clDelete c cl r) as [[e|] cl2] eqn:Hcall.
    + destruct (IsNotFound e) eqn:Hnf; intros Heq; injection Heq as <- <- <-; [|done].
      split; [done|]. exists (Some e). split; [done|]. by intros ? [= <-].
    + intros Heq; injection Heq as <- <- <-.
      split; [done|]. exists None. by split.
  - destruct (clGet c cl _ r) as [e|fetched] eqn:Hget.
    + destruct (IsNotFound e) eqn:Hnf.
      * destruct (clCreate c cl r) as [[e1|] cl2] eqn:Hcreate;
          intros Heq; injection Heq as <- <- <-; [done|].
        split; [done|]. exists r. split; [|done]. left. by exists e.
      * by intros Heq; injection Heq as <- <- <-.
    + unfold patchExistingObject.
      destruct (clPatch c cl fetched _ _) as [[e|answer] cl2] eqn:Hp.
      * destruct (IsUnsupportedMediaType e) eqn:Hmedia.
        -- destruct (clPatch c cl2 r _ _) as [[e2|o2] cl3] eqn:Hp2;
             intros Heq; injection Heq as <- <- <-; [done|].
           split; [done|]. exists fetched. split; [|done]. right.
           exists fetched. split; [done|]. right. by exists e, cl2, o2.
        -- by intros Heq; injection Heq as <- <- <-.
      * intros Heq; injection Heq as <- <- <-.
        split; [done|]. exists answer. split; [|done]. right.
        exists fetched. split; [done|]. by left.
Qed.

Lemma goesThrough_applyResources step rs c cl healthy cl1 :
  goesThrough c step rs cl healthy cl1 →
  ∀ b, ∃ evs, applyResources step rs b c cl = (inr (healthy && b), cl1, evs).
Proof.
  induction 1 as [cl|r rs cl cl1 cl2 healthy Hd Hdel _ IH
                    |r rs cl cl1 cl2 checked healthy Hd Happ _ IH]; intros b; simpl.
  - by eexists.
  - destruct (deletedCleanly_applyResource step r c cl cl1 Hd Hdel) as [ev1 ->].
    destruct (IH b) as [ev2 ->]. by eexists.
  - destruct (appliedCleanly_applyResource step r c cl cl1 checked Hd Happ) as [ev1 ->].
    destruct (IH (if bool_decide (IsHealthy cl1 checked = None) then b else false))
      as [ev2 ->].
    eexists. f_equal. f_equal. f_equal.
    by destruct (bool_decide _), healthy, b.
Qed.

Lemma applyResources_goesThrough step rs b c cl b' cl1 evs :
  applyResources step rs b c cl = (inr b', cl1, evs) →
  ∃ healthy, goesThrough c step rs cl healthy cl1 ∧ b' = healthy && b.
Proof.
  revert b cl evs. induction rs as [|r rs IH]; intros b cl evs; simpl.
  - intros Heq; injection Heq as <- <- <-. exists true. split; [constructor|done].
  - destruct (applyResource step r c cl) as [[o cl2] ev1] eqn:Hr.
    apply applyResource_cleanly in Hr.
    destruct o as [e| |h]; [done| |].
    + destruct (applyResources step rs b c cl2) as [[res cl3] ev2] eqn:Hrest.
      intros Heq; injection Heq as -> <- <-.
      destruct (IH _ _ _ Hrest) as (healthy & Hgo & ->). destruct Hr as [Hd Hdel].
      exists healthy. split; [by eapply goesThrough_delete|done].
    + destruct (applyResources step rs _ c cl2) as [[res cl3] ev2] eqn:Hrest.
      intros Heq; injection Heq as -> <- <-.
      destruct (IH _ _ _ Hrest) as (healthy & Hgo & ->).
      destruct Hr as (Hd & checked & Happ & ->).
      eexists. split; [by eapply goesThrough_apply|].
      by destruct (bool_decide _), healthy, b.
Qed.

(** C5. For a step whose status is Pending, InProgress or ErrorStatus,
    [executeStep] leaves the status Complete exactly when every resource of
    the step, one after the other, is applied or deleted without an error
    answered by the cluster and every health check that is made passes; it
    then returns no error. When every resource is applied or deleted without
    error and some health check fails, the status is left at InProgress and
    no error is returned. It returns no error only when every resource went
    through. The resources go through on the answers of the client: a delete
    answers no error or not-found; a fetch answers not-found and the create
    no error; or the fetch answers the object and the patch goes through. *)
Theorem executeStep_complete_iff step state resources c cl :
  isInProgress (ssStatus state) = true →
  let '(state1, err, cl1, _) := executeStep step state resources c cl in
  (ssStatus state1 = ExecutionComplete ↔ goesThrough c step resources cl true cl1)
  ∧ (∀ cl', goesThrough c step resources cl true cl' →
            ssStatus state1 = ExecutionComplete ∧ err = None ∧ cl1 = cl')
  ∧ (∀ cl', goesThrough c step resources cl false cl' →
            ssStatus state1 = ExecutionInProgress ∧ err = None ∧ cl1 = cl')
  ∧ (err = None → ∃ healthy, goesThrough c step resources cl healthy cl1).
Proof.
  intros Hin. unfold executeStep. rewrite Hin.
  destruct (applyResources step resources true c cl) as [[res cl1] evs] eqn:Hrun.
  assert (∀ healthy cl', goesThrough c step resources cl healthy cl' →
                         res = inr healthy ∧ cl1 = cl') as Hspec.
  { intros healthy cl' Hgo.
    destruct (goesThrough_applyResources _ _ _ _ _ _ Hgo true) as [evs' Heq].
    rewrite Hrun in Heq. injection Heq as -> -> _.
    by rewrite andb_true_r. }
  destruct res as [e|b].
  - split_and!.
    + split; [done|]. by intros [? _]%Hspec.
    + by intros cl' [? _]%Hspec.
    + by intros cl' [? _]%Hspec.
    + done.
  - destruct (applyResources_goesThrough _ _ _ _ _ _ _ _ Hrun) as (healthy & Hgo & Hb).
    rewrite andb_true_r in Hb. subst healthy.
    destruct b; simpl; split_and!.
    + done.
    + intros cl' [_ ->]%Hspec. done.
    + by intros cl' [? _]%Hspec.
    + intros _. by exists true.
    + split; [done|]. by intros [? _]%Hspec.
    + by intros cl' [? _]%Hspec.
    + intros cl' [_ ->]%Hspec. done.
    + intros _. by exists false.
Qed.

(** C6. The first attempt is a strategic merge patch of the existing object
    with the JSON of the new object as body. Exactly when it fails with
    UnsupportedMediaType, one merge patch of the new object with the same
    body follows, and its error, if any, is the result. Any other error of
    the first attempt is the result and no second call is made. An error of
    [patchExistingObject] ends [executeStep] with that error, the remaining
    resources untouched. *)
Theorem patchExistingObject_fallback newResource existingResource c cl :
  let body := Marshal newResource in
  let first := EvPatch existingResource StrategicMergePatchType body in
  let retry := EvPatch newResource MergePatchType body in
  let attempt := clPatch c cl existingResource StrategicMergePatchType body in
  let second := clPatch c attempt.2 newResource MergePatchType body in
  let '(err, _, cl1, evs) := patchExistingObject newResource existingResource c cl in
  match attempt.1 with
  | inr _ => evs = [first] ∧ err = None ∧ cl1 = attempt.2
  | inl e =>
      if IsUnsupportedMediaType e
      then evs = [first; retry] ∧ cl1 = second.2
           ∧ err = match second.1 with inl e2 => Some e2 | inr _ => None end
      else evs = [first] ∧ err = Some e ∧ cl1 = attempt.2
  end
  ∧ ∀ step state rest fetched e,
      stepDelete step = false →
      isInProgress (ssStatus state) = true →
      clGet c cl (ObjectKeyFromObject newResource) newResource = inr fetched →
      fetched = existingResource →
      err = Some e →
      executeStep step state (newResource :: rest) c cl
      = (setStepStatus ExecutionInProgress state, Some e, cl1,
         EvGet (ObjectKeyFromObject newResource) :: evs).
Proof.
  simpl.
  destruct (patchExistingObject newResource existingResource c cl)
    as [[[err ex] cl1] evs] eqn:Hpatch.
  split.
  - unfold patchExistingObject in Hpatch.
    destruct (clPatch c cl existingResource StrategicMergePatchType (Marshal newResource))
      as [r1 cl0]; simpl.
    destruct r1 as [e|o]; [|by simplify_eq].
    destruct (IsUnsupportedMediaType e); [|by simplify_eq].
    destruct (clPatch c cl0 newResource MergePatchType (Marshal newResource))
      as [r2 cl2]; simpl.
    destruct r2; by simplify_eq.
  - intros step state rest fetched e Hdel Hin Hget -> ->.
    unfold executeStep. rewrite Hin. simpl.
    unfold applyResource. rewrite Hdel, Hget, Hpatch. done.
Qed.

End StepExecutor.

(** ** Lookups by name *)

Lemma fmap_insert_same {A B : Type} (f : A → B) (l : list A) i x y :
  l !! i = Some x → f y = f x → f <$> <[i := y]> l = f <$> l.
Proof.
  intros Hi Hf. rewrite list_fmap_insert, Hf.
  apply list_insert_id. by rewrite list_lookup_fmap, Hi.
Qed.

Lemma getStepFromStatus_Some n phs j ss :
  getStepFromStatus n phs = Some (j, ss) →
  phsSteps phs !! j = Some ss ∧ ssName ss = n.
Proof. unfold getStepFromStatus. intros (? & ? & _)%list_find_Some. done. Qed.

Lemma getPhaseFromStatus_Some n status i phs :
  getPhaseFromStatus n status = Some (i, phs) →
  plsPhases status !! i = Some phs ∧ phsName phs = n.
Proof. unfold getPhaseFromStatus. intros (? & ? & _)%list_find_Some. done. Qed.

Lemma getStepFromStatus_elem_of n phs :
  n ∈ stepNames phs → is_Some (getStepFromStatus n phs).
Proof.
  unfold stepNames, getStepFromStatus.
  intros (ss & -> & Hin)%list_elem_of_fmap.
  by eapply list_find_elem_of.
Qed.

(** A lookup by name sees the names only. *)
Lemma list_find_by_key {A K : Type} `{EqDecision K} (key : A → K) (n : K) (l l' : list A) :
  key <$> l = key <$> l' →
  fst <$> list_find (λ p, key p = n) l = fst <$> list_find (λ p, key p = n) l'.
Proof.
  revert l'. induction l as [|x l IH]; intros [|x' l'] Heq; simplify_eq/=; [done|].
  repeat case_decide; try done; try congruence.
  specialize (IH l' ltac:(done)).
  destruct (list_find _ l) as [[]|], (list_find _ l') as [[]|]; simplify_eq/=; done.
Qed.

Lemma getStepFromStatus_names n phs phs' j ss :
  stepNames phs' = stepNames phs →
  getStepFromStatus n phs = Some (j, ss) →
  ∃ ss', getStepFromStatus n phs' = Some (j, ss').
Proof.
  unfold stepNames, getStepFromStatus. intros Hn Hf.
  pose proof (list_find_by_key ssName n _ _ Hn) as Heq.
  rewrite Hf in Heq. simpl in Heq.
  destruct (list_find _ (phsSteps phs')) as [[j' ss']|]; simplify_eq/=. eauto.
Qed.

Lemma getPhaseFromStatus_skeleton n status status' i phs :
  skeleton status' = skeleton status →
  getPhaseFromStatus n status = Some (i, phs) →
  ∃ phs', getPhaseFromStatus n status' = Some (i, phs')
          ∧ stepNames phs' = stepNames phs.
Proof.
  unfold skeleton, getPhaseFromStatus. intros Hs Hf.
  assert (phsName <$> plsPhases status' = phsName <$> plsPhases status) as Hn.
  { apply (f_equal (fmap fst)) in Hs. by rewrite <- !list_fmap_compose in Hs. }
  pose proof (list_find_by_key phsName n _ _ Hn) as Heq.
  rewrite Hf in Heq. simpl in Heq.
  destruct (list_find _ (plsPhases status')) as [[i' phs']|] eqn:Hf'; simplify_eq/=.
  exists phs'. split; [done|].
  apply list_find_Some in Hf as (Hi & _). apply list_find_Some in Hf' as (Hi' & _).
  apply (f_equal (λ l, l !! i)) in Hs.
  rewrite !list_lookup_fmap, Hi, Hi' in Hs. by simplify_eq/=.
Qed.

Lemma namesOf_skeleton status status' n :
  skeleton status' = skeleton status → namesOf status' n = namesOf status n.
Proof.
  intros Hs. unfold namesOf.
  destruct (getPhaseFromStatus n status) as [[i phs]|] eqn:Hf.
  - destruct (getPhaseFromStatus_skeleton _ _ _ _ _ Hs Hf) as (phs' & -> & Hn).
    simpl. by rewrite Hn.
  - destruct (getPhaseFromStatus n status') as [[i phs']|] eqn:Hf'; [|done].
    destruct (getPhaseFromStatus_skeleton _ _ _ _ _ (eq_sym Hs) Hf') as (? & ? & _).
    congruence.
Qed.

Lemma hasEntries_skeleton spec status status' :
  skeleton status' = skeleton status → hasEntries spec status → hasEntries spec status'.
Proof.
  intros Hs. unfold hasEntries. intros H. eapply Forall_impl; [exact H|].
  intros ph (names & Hn & Hall).
  exists names. by rewrite (namesOf_skeleton _ _ _ Hs).
Qed.

Lemma filter_length_one_elem {A : Type} (P : A → Prop) `{∀ x, Decision (P x)} (l : list A) :
  length (filter P l) = 1 → ∃ x, x ∈ l ∧ P x.
Proof.
  destruct (filter P l) as [|x [|]] eqn:Hf; try done. intros _.
  assert (x ∈ filter P l) as Hx by (rewrite Hf; left).
  apply list_elem_of_filter in Hx as [HP Hl]. eauto.
Qed.

(** Exactly one entry for every name of the spec gives every lookup an
    entry. *)
Lemma statusMatchesSpec_hasEntries spec status :
  statusMatchesSpec spec status = true → hasEntries spec status.
Proof.
  unfold statusMatchesSpec, hasEntries. rewrite forallb_forall, Forall_forall.
  intros Hall ph Hph. specialize (Hall ph). rewrite <- list_elem_of_In in Hall.
  specialize (Hall Hph).
  destruct (filter _ (plsPhases status)) as [|phs [|]] eqn:Hf; try done.
  assert (phs ∈ filter (λ p, phsName p = phaseName ph) (plsPhases status)) as Hin
    by (rewrite Hf; left).
  apply list_elem_of_filter in Hin as [Hname Hin].
  destruct (list_find_elem_of (λ p, phsName p = phaseName ph) _ _ Hin Hname)
    as [[i phs'] Hfind].
  assert (phs' = phs) as ->.
  { apply list_find_Some in Hfind as (Hi & Hn & _).
    assert (phs' ∈ filter (λ p, phsName p = phaseName ph) (plsPhases status)) as Hin'.
    { apply list_elem_of_filter. split; [done|]. by eapply list_elem_of_lookup_2. }
    rewrite Hf in Hin'. by apply list_elem_of_singleton in Hin'. }
  exists (stepNames phs). split.
  { unfold namesOf, getPhaseFromStatus. by rewrite Hfind. }
  unfold stepsMatch in Hall. rewrite forallb_forall in Hall.
  apply Forall_forall. intros st Hst. rewrite list_elem_of_In in Hst.
  specialize (Hall st Hst). apply bool_decide_eq_true in Hall.
  apply filter_length_one_elem in Hall as (ss & Hss & Hn).
  unfold stepNames. apply list_elem_of_fmap. eauto.
Qed.

Lemma list_find_insert_found {A : Type} (P : A → Prop) `{∀ x, Decision (P x)}
    (l : list A) i x y :
  list_find P l = Some (i, x) → P y → list_find P (<[i := y]> l) = Some (i, y).
Proof.
  intros (Hi & HP & Hleast)%list_find_Some Hy.
  apply list_find_insert_Some. right. left.
  split_and!; [done..| by eapply lookup_lt_Some | done | done].
Qed.

(** ** The preparer *)

Section Preparer.

Context {libs : Libraries}.
Variables (plan : activePlan) (meta : executionMetadata)
  (renderer : kubernetesObjectEnhancer).

Lemma renderResources_app configs rs1 rs2 acc :
  renderResources plan meta configs (rs1 ++ rs2) acc
  = match renderResources plan meta configs rs1 acc with
    | inl f => inl f
    | inr acc1 => renderResources plan meta configs rs2 acc1
    end.
Proof.
  revert acc. induction rs1 as [|r rs1 IH]; intros acc; simpl; [done|].
  destruct (apTemplates plan !! r); [|done].
  destruct (Render s configs); [done|]. apply IH.
Qed.

Lemma prepareTasks_app phase j step ts1 ts2 acc :
  prepareTasks plan meta renderer phase j step (ts1 ++ ts2) acc
  = match prepareTasks plan meta renderer phase j step ts1 acc with
    | inl f => inl f
    | inr acc1 => prepareTasks plan meta renderer phase j step ts2 acc1
    end.
Proof.
  revert acc. induction ts1 as [|t ts1 IH]; intros acc; simpl; [done|].
  destruct (apTasks plan !! t); [|done].
  destruct (renderResources _ _ _ _ _); [done|].
  destruct (applyConventionsToTemplates _ _ _ _); [done|]. apply IH.
Qed.

Lemma failsOn_prepareTasks kind phase j step :
  failsOn kind plan meta renderer phase j step →
  ∃ cause,
    prepareTasks plan meta renderer phase j step (stepTasks step) []
    = inl (failureStatus kind, executionError cause (failureFatal kind)).
Proof.
  intros (ts1 & t & ts2 & objs & -> & Hpre & Hkind).
  rewrite prepareTasks_app, Hpre. simpl.
  destruct kind.
  - rewrite Hkind. eauto.
  - destruct Hkind as (taskSpec & rs1 & res & rs2 & rendered & -> & -> & Hr & Hnone).
    rewrite renderResources_app, Hr. simpl. rewrite Hnone. eauto.
Qed.

Lemma markFailed_skeleton s i phs k ss status :
  plsPhases status !! i = Some phs → phsSteps phs !! k = Some ss →
  skeleton (markFailed s i phs k ss status) = skeleton status.
Proof.
  intros Hi Hk. unfold skeleton, markFailed. simpl.
  apply (fmap_insert_same _ _ _ phs); [done|]. simpl. f_equal.
  unfold stepNames. simpl. by apply (fmap_insert_same _ _ _ ss).
Qed.

Lemma markFailed_phaseStatusOf s i phs k ss status n :
  getPhaseFromStatus n status = Some (i, phs) →
  phaseStatusOf n (markFailed s i phs k ss status) = Some s.
Proof.
  intros Hf. unfold phaseStatusOf, getPhaseFromStatus, markFailed. simpl.
  erewrite list_find_insert_found; [done|exact Hf|].
  simpl. by apply getPhaseFromStatus_Some in Hf as [_ ?].
Qed.

Lemma markFailed_stepStatusOf s i phs k ss status n m :
  getPhaseFromStatus n status = Some (i, phs) →
  getStepFromStatus m phs = Some (k, ss) →
  stepStatusOf n m (markFailed s i phs k ss status) = Some s.
Proof.
  intros Hf Hg. unfold stepStatusOf, getPhaseFromStatus, markFailed. simpl.
  erewrite list_find_insert_found; [|exact Hf|].
  - simpl. unfold stepStatusIn, getStepFromStatus. simpl.
    erewrite list_find_insert_found; [done|exact Hg|].
    simpl. by apply getStepFromStatus_Some in Hg as [_ ?].
  - simpl. by apply getPhaseFromStatus_Some in Hf as [_ ?].
Qed.

(** The loop over the steps passes the steps that prepare. *)
Lemma prepareSteps_prepared phase i phs status j sts1 rest perStep :
  (∀ k s, sts1 !! k = Some s → stepPrepares plan meta renderer phase (j + k) s) →
  ∃ perStep1,
    prepareSteps plan meta renderer phase (Some (i, phs)) status j (sts1 ++ rest) perStep
    = prepareSteps plan meta renderer phase (Some (i, phs)) status
        (j + length sts1) rest perStep1.
Proof.
  revert j perStep. induction sts1 as [|st sts1 IH]; intros j perStep Hall; simpl.
  - exists perStep. by rewrite Nat.add_0_r.
  - destruct (Hall 0 st eq_refl) as [objs Hobjs]. rewrite Nat.add_0_r in Hobjs.
    rewrite Hobjs.
    destruct (IH (S j) (<[stepName st := objs]> perStep)) as [perStep1 Heq].
    { intros k s Hk. replace (S j + k) with (j + S k) by lia. by apply Hall. }
    exists perStep1. rewrite Heq. f_equal. lia.
Qed.

Lemma prepareSteps_success_any phase phaseState status j steps perStep :
  (steps ≠ [] → is_Some phaseState) →
  (∀ k s, steps !! k = Some s → stepPrepares plan meta renderer phase (j + k) s) →
  ∃ perStep1,
    prepareSteps plan meta renderer phase phaseState status j steps perStep
    = Returned (status, inr perStep1).
Proof.
  intros Hsome Hall. destruct steps as [|st steps]; [simpl; eauto|].
  destruct Hsome as [[i phs] ->]; [done|].
  destruct (prepareSteps_prepared phase i phs status j (st :: steps) [] perStep Hall)
    as [perStep1 Heq].
  rewrite app_nil_r in Heq. rewrite Heq. simpl. eauto.
Qed.

(** The loop over the steps never panics when the names of the steps have
    entries; it leaves the names, and on success the whole status, as they
    were. *)
Lemma prepareSteps_returns phase i phs status j steps perStep :
  plsPhases status !! i = Some phs →
  Forall (λ st, stepName st ∈ stepNames phs) steps →
  ∃ status1 r,
    prepareSteps plan meta renderer phase (Some (i, phs)) status j steps perStep
    = Returned (status1, r)
    ∧ skeleton status1 = skeleton status
    ∧ (∀ m, r = inr m → status1 = status).
Proof.
  intros Hi. revert j perStep.
  induction steps as [|st steps IH]; intros j perStep Hall; simpl.
  - eauto 6.
  - apply Forall_cons in Hall as [Hst Hall].
    destruct (getStepFromStatus_elem_of _ _ Hst) as [[k ss] Hk]. rewrite Hk.
    destruct (prepareTasks _ _ _ _ _ _ _ _) as [[s err]|objs].
    + eexists _, _. split; [done|]. split; [|done].
      apply markFailed_skeleton; [done|]. by apply getStepFromStatus_Some in Hk as [? _].
    + by apply IH.
Qed.

Lemma preparePhases_returns phases status result :
  hasEntries (mkPlan Serial phases) status →
  ∃ status1 r,
    preparePhases plan meta renderer phases status result = Returned (status1, r)
    ∧ skeleton status1 = skeleton status
    ∧ (∀ m, r = inr m → status1 = status).
Proof.
  unfold hasEntries. simpl. revert result.
  induction phases as [|ph phases IH]; intros result Hall; simpl.
  - eauto 6.
  - apply Forall_cons in Hall as [(names & Hn & Hsteps) Hall].
    unfold namesOf in Hn.
    destruct (getPhaseFromStatus (phaseName ph) status) as [[i phs]|] eqn:Hf;
      simplify_eq/=.
    destruct (prepareSteps_returns ph i phs status 0 (phaseSteps ph) ∅)
      as (status1 & r & -> & Hskel & Hsame); [|done|].
    { by apply getPhaseFromStatus_Some in Hf as [? _]. }
    destruct r as [err|perStep].
    { eexists _, _. split; [done|]. split; [done|]. intros; simplify_eq. }
    rewrite (Hsame _ eq_refl). by apply IH.
Qed.

(** The preparation never panics when every name of the spec has an entry. *)
Lemma prepareKubeResources_returns status :
  hasEntries (apSpec plan) status →
  ∃ status1 r,
    prepareKubeResources plan meta renderer status = Returned (status1, r)
    ∧ skeleton status1 = skeleton status
    ∧ (∀ m, r = inr m → status1 = status).
Proof.
  intros H. unfold prepareKubeResources. apply preparePhases_returns.
  by destruct (apSpec plan).
Qed.

(** The resources a successful preparation gives do not depend on the
    status it ran on. *)
Lemma prepareSteps_success_indep phase phaseState status j steps perStep status1 m
    phaseState' status' :
  prepareSteps plan meta renderer phase phaseState status j steps perStep
  = Returned (status1, inr m) →
  (steps ≠ [] → is_Some phaseState') →
  prepareSteps plan meta renderer phase phaseState' status' j steps perStep
  = Returned (status', inr m).
Proof.
  revert j perStep. induction steps as [|st steps IH]; intros j perStep; simpl.
  - intros. by simplify_eq.
  - intros Hrun Hsome. destruct Hsome as [[i' phs'] ->]; [done|].
    destruct phaseState as [[i phs]|]; [|done].
    destruct (prepareTasks _ _ _ _ _ _ _ _) as [[s err]|objs].
    { by destruct (getStepFromStatus _ phs) as [[]|]. }
    destruct steps as [|st2 steps]; [simpl in *; by simplify_eq|].
    eapply (IH (S j)) in Hrun; [|done]. exact Hrun.
Qed.

Lemma preparePhases_success_indep phases status result status1 res status' :
  preparePhases plan meta renderer phases status result = Returned (status1, inr res) →
  hasEntries (mkPlan Serial phases) status' →
  preparePhases plan meta renderer phases status' result = Returned (status', inr res).
Proof.
  unfold hasEntries. simpl. revert status result.
  induction phases as [|ph phases IH]; intros status result; simpl.
  - intros. by simplify_eq.
  - intros Hrun [(names & Hn & _) Hall]%Forall_cons.
    unfold namesOf in Hn.
    destruct (getPhaseFromStatus (phaseName ph) status') as [[i' phs']|] eqn:Hf';
      simplify_eq/=.
    destruct (prepareSteps _ _ _ ph (getPhaseFromStatus _ status) _ _ _ _)
      as [[status2 [err|perStep]]|] eqn:Hsteps; try done.
    erewrite prepareSteps_success_indep; [|exact Hsteps|eauto].
    eapply IH; [exact Hrun|done].
Qed.

Lemma prepareKubeResources_success_indep status status1 res status' :
  prepareKubeResources plan meta renderer status = Returned (status1, inr res) →
  hasEntries (apSpec plan) status' →
  prepareKubeResources plan meta renderer status' = Returned (status', inr res).
Proof.
  unfold prepareKubeResources. intros Hrun H.
  eapply preparePhases_success_indep; [exact Hrun|]. by destruct (apSpec plan).
Qed.

(** An error of the preparation is an [executionError]. *)
Lemma prepareTasks_error phase j step tasks acc s err :
  prepareTasks plan meta renderer phase j step tasks acc = inl (s, err) →
  errorsAs_executionError err = true.
Proof.
  revert acc. induction tasks as [|t tasks IH]; intros acc; simpl; [done|].
  destruct (apTasks plan !! t) as [taskSpec|]; [|by intros; simplify_eq].
  destruct (renderResources _ _ _ _ _) as [[s' err']|m] eqn:Hr.
  - intros; simplify_eq. clear IH. revert Hr. generalize (∅ : gmap string string).
    induction (taskResources taskSpec) as [|r rs IHr]; intros acc'; simpl; [done|].
    destruct (apTemplates plan !! r); [|by intros; simplify_eq].
    destruct (Render _ _); [by intros; simplify_eq|]. apply IHr.
  - destruct (applyConventionsToTemplates _ _ _ _); [by intros; simplify_eq|].
    apply IH.
Qed.

Lemma prepareSteps_error phase phaseState status j steps perStep status1 err :
  prepareSteps plan meta renderer phase phaseState status j steps perStep
  = Returned (status1, inl err) →
  errorsAs_executionError err = true.
Proof.
  revert j perStep. induction steps as [|st steps IH]; intros j perStep; simpl; [done|].
  destruct phaseState as [[i phs]|]; [|done].
  destruct (prepareTasks _ _ _ _ _ _ _ _) as [[s e]|objs] eqn:Ht.
  - destruct (getStepFromStatus _ phs) as [[k ss]|]; [|done].
    intros; simplify_eq. by eapply prepareTasks_error.
  - apply IH.
Qed.

Lemma prepareKubeResources_error status status1 err :
  prepareKubeResources plan meta renderer status = Returned (status1, inl err) →
  errorsAs_executionError err = true.
Proof.
  unfold prepareKubeResources. generalize (∅ : planResources).
  revert status. induction (planPhases (apSpec plan)) as [|ph phases IH];
    intros status result; simpl; [done|].
  destruct (prepareSteps _ _ _ ph _ _ _ _ _) as [[status2 [e|perStep]]|] eqn:Hs;
    try done.
  - intros; simplify_eq. by eapply prepareSteps_error.
  - apply IH.
Qed.

Lemma preparePhases_firstFailure kind phs1 phase phs2 sts1 step sts2 status result :
  Forall (phasePrepares plan meta renderer) phs1 →
  phaseSteps phase = sts1 ++ step :: sts2 →
  (∀ j s, sts1 !! j = Some s → stepPrepares plan meta renderer phase j s) →
  failsOn kind plan meta renderer phase (length sts1) step →
  hasEntries (mkPlan Serial (phs1 ++ phase :: phs2)) status →
  ∃ i phs k ss cause,
    getPhaseFromStatus (phaseName phase) status = Some (i, phs)
    ∧ getStepFromStatus (stepName step) phs = Some (k, ss)
    ∧ preparePhases plan meta renderer (phs1 ++ phase :: phs2) status result
      = Returned (markFailed (failureStatus kind) i phs k ss status,
                  inl (executionError cause (failureFatal kind))).
Proof.
  intros Hpre Hsteps Hsts1 Hfail. unfold hasEntries. simpl. revert result.
  induction phs1 as [|ph phs1 IH]; intros result Hent; simpl in *.
  - apply Forall_cons in Hent as [(names & Hn & Hall) _]. unfold namesOf in Hn.
    destruct (getPhaseFromStatus (phaseName phase) status) as [[i phs]|] eqn:Hf;
      simplify_eq/=.
    rewrite Hsteps in Hall. apply Forall_app in Hall as [_ Hall].
    apply Forall_cons in Hall as [Hst _].
    destruct (getStepFromStatus_elem_of _ _ Hst) as [[k ss] Hk].
    destruct (failsOn_prepareTasks _ _ _ _ Hfail) as [cause Hcause].
    exists i, phs, k, ss, cause. split; [done|]. split; [done|].
    rewrite Hsteps.
    destruct (prepareSteps_prepared phase i phs status 0 sts1 (step :: sts2) ∅ Hsts1)
      as [perStep1 ->].
    simpl. by rewrite Hcause, Hk.
  - apply Forall_cons in Hent as [(names & Hn & Hall) Hent].
    apply Forall_cons in Hpre as [Hph Hpre].
    destruct (prepareSteps_success_any ph (getPhaseFromStatus (phaseName ph) status)
                status 0 (phaseSteps ph) ∅) as [perStep1 ->].
    { intros _. unfold namesOf in Hn.
      by destruct (getPhaseFromStatus (phaseName ph) status) as [[]|]. }
    { intros k s Hk. by apply Hph. }
    by apply IH.
Qed.

(** Where the walk fails first on a lookup, the preparation marks the phase
    and the step it found for the names and returns the error. *)
Lemma firstFailure_prepare kind phase step status :
  firstFailure kind plan meta renderer phase step →
  hasEntries (apSpec plan) status →
  ∃ i phs k ss cause,
    getPhaseFromStatus (phaseName phase) status = Some (i, phs)
    ∧ getStepFromStatus (stepName step) phs = Some (k, ss)
    ∧ prepareKubeResources plan meta renderer status
      = Returned (markFailed (failureStatus kind) i phs k ss status,
                  inl (executionError cause (failureFatal kind))).
Proof.
  intros (phs1 & phs2 & sts1 & sts2 & Hphases & Hpre & Hsteps & Hsts1 & Hfail) Hent.
  unfold prepareKubeResources. rewrite Hphases.
  eapply preparePhases_firstFailure; [done..|].
  unfold hasEntries in *. simpl. by rewrite <- Hphases.
Qed.

End Preparer.

(** ** The driver never panics on a status with an entry for every name *)

Section Driver.

Context {Cluster : Type} {libs : Libraries} {oracle : HealthOracle Cluster}.

Lemma executeStep_name step state resources (c : Client Cluster) cl :
  ssName (executeStep step state resources c cl).1.1.1 = ssName state.
Proof.
  unfold executeStep. destruct (isInProgress _); [|done].
  destruct (applyResources _ _ _ _ _) as [[[e|[]] cl1] evs]; done.
Qed.

Lemma setPhaseSteps_insert_names pst j cur state1 :
  phsSteps pst !! j = Some cur → ssName state1 = ssName cur →
  stepNames (setPhaseSteps (<[j := state1]> (phsSteps pst)) pst) = stepNames pst.
Proof. intros. unfold stepNames. simpl. by eapply fmap_insert_same. Qed.

Lemma executeSteps_returns ph res steps pst flag (c : Client Cluster) cl :
  Forall (λ st, stepName st ∈ stepNames pst) steps →
  ∃ pst1 r cl1 evs,
    executeSteps ph res steps pst flag c cl = Returned (pst1, r, cl1, evs)
    ∧ phsName pst1 = phsName pst
    ∧ stepNames pst1 = stepNames pst.
Proof.
  revert pst flag cl. induction steps as [|st steps IH]; intros pst flag cl Hall; simpl.
  - eauto 8.
  - apply Forall_cons in Hall as [Hst Hall].
    destruct (getStepFromStatus_elem_of _ _ Hst) as [[j cur] Hj]. rewrite Hj.
    apply getStepFromStatus_Some in Hj as [Hj _].
    pose proof (executeStep_name st cur (default [] (res !! stepName st)) c cl) as Hname.
    destruct (executeStep st cur _ c cl) as [[[state1 err] cl1] evs]. simpl in Hname.
    destruct err as [e|].
    { eexists _, _, _, _. split; [done|]. split; [done|].
      apply (setPhaseSteps_insert_names (setPhaseStatus ErrorStatus pst) j cur); done. }
    set (pst1 := setPhaseSteps (<[j := state1]> (phsSteps pst)) pst).
    assert (stepNames pst1 = stepNames pst) as Hn
      by (by apply (setPhaseSteps_insert_names pst j cur)).
    assert (Forall (λ st, stepName st ∈ stepNames pst1) steps) as Hall1
      by (by rewrite Hn).
    destruct (isFinished (ssStatus state1)).
    + destruct (IH pst1 flag cl1 Hall1) as (p & r & cl2 & ev2 & -> & Hp & Hs).
      eexists _, _, _, _. split; [done|]. split; [done|]. by rewrite Hs.
    + destruct (bool_decide (phaseStrategy ph = Serial)).
      * eexists _, _, _, _. split; [done|]. done.
      * destruct (IH pst1 false cl1 Hall1) as (p & r & cl2 & ev2 & -> & Hp & Hs).
        eexists _, _, _, _. split; [done|]. split; [done|]. by rewrite Hs.
Qed.

Lemma write_phase_skeleton status i cur p :
  plsPhases status !! i = Some cur →
  phsName p = phsName cur → stepNames p = stepNames cur →
  skeleton (setPlanPhases (<[i := p]> (plsPhases status))
              (setPlanStatus ExecutionInProgress status))
  = skeleton status.
Proof.
  intros Hi Hn Hs. unfold skeleton. simpl.
  apply (fmap_insert_same _ _ _ cur); [done|]. simpl. by rewrite Hn, Hs.
Qed.

Lemma executePhase_returns ph res status (c : Client Cluster) cl names :
  namesOf status (phaseName ph) = Some names →
  Forall (λ st, stepName st ∈ names) (phaseSteps ph) →
  ∃ status1 exit cl1 evs,
    executePhase ph res status c cl = Returned (status1, exit, cl1, evs)
    ∧ skeleton status1 = skeleton status.
Proof.
  unfold namesOf, executePhase. intros Hn Hall.
  destruct (getPhaseFromStatus (phaseName ph) status) as [[i cur]|] eqn:Hf;
    simplify_eq/=.
  apply getPhaseFromStatus_Some in Hf as [Hi _].
  destruct (isFinished (phsStatus cur)); [eauto 8|].
  destruct (isInProgress (phsStatus cur)); [|eauto 8].
  destruct (executeSteps_returns ph (default ∅ (res !! phaseName ph)) (phaseSteps ph)
              (setPhaseStatus ExecutionInProgress cur) true c cl Hall)
    as (pst1 & r & cl1 & evs & -> & Hp & Hs).
  destruct r as [err|healthy].
  - eexists _, _, _, _. split; [done|]. by apply (write_phase_skeleton _ _ cur).
  - eexists _, _, _, _. split; [done|]. apply (write_phase_skeleton _ _ cur); [done|..];
      by destruct healthy.
Qed.

Lemma executePhases_returns phases res status (c : Client Cluster) cl :
  hasEntries (mkPlan Serial phases) status →
  ∃ status1 r cl1 evs,
    executePhases phases res status c cl = Returned (status1, r, cl1, evs)
    ∧ skeleton status1 = skeleton status.
Proof.
  unfold hasEntries. simpl. revert status cl.
  induction phases as [|ph phases IH]; intros status cl Hall; simpl.
  - eauto 8.
  - apply Forall_cons in Hall as [(names & Hn & Hsteps) Hall].
    destruct (executePhase_returns ph res status c cl names Hn Hsteps)
      as (s1 & exit & cl1 & ev1 & -> & Hskel).
    destruct exit as [| |err]; [|eauto 8..].
    destruct (IH s1 cl1) as (s2 & r & cl2 & ev2 & -> & Hskel2).
    { eapply Forall_impl; [exact Hall|]. intros ph' (names' & Hn' & Hs').
      exists names'. by rewrite (namesOf_skeleton _ _ _ Hskel). }
    eexists _, _, _, _. split; [done|]. congruence.
Qed.

Lemma executePlan_returns plan meta (c : Client Cluster) renderer h cl status :
  h !! apPlanStatus plan = Some status →
  hasEntries (apSpec plan) status →
  ∃ t, executePlan plan meta c renderer h cl = Returned t.
Proof.
  intros Hh Hent. unfold executePlan. rewrite Hh.
  destruct (IsTerminal (plsStatus status)); [eauto|].
  destruct (prepareKubeResources_returns plan meta renderer status Hent)
    as (status1 & r & -> & Hskel & Hsame).
  destruct r as [err|res]; [eauto|].
  rewrite lookup_insert_eq.
  destruct (executePhases_returns (planPhases (apSpec plan)) res status1 c cl)
    as (s2 & r & cl2 & evs & -> & _).
  { eapply hasEntries_skeleton; [exact Hskel|]. by destruct (apSpec plan). }
  destruct r; eauto.
Qed.

(** C10. [executePlan] and [prepareKubeResources] drop the errors of
    [getPhaseFromStatus] and [getStepFromStatus] and use the pointers; when
    every phase and step named in the plan spec has exactly one entry in the
    plan status, every lookup finds its entry, and neither function
    dereferences a nil pointer: both return. *)
Theorem lookups_succeed_no_panic plan meta (c : Client Cluster) renderer h cl status :
  h !! apPlanStatus plan = Some status →
  statusMatchesSpec (apSpec plan) status = true →
  (∀ ph, ph ∈ planPhases (apSpec plan) →
     ∃ i phs, getPhaseFromStatus (phaseName ph) status = Some (i, phs)
              ∧ ∀ st, st ∈ phaseSteps ph →
                      is_Some (getStepFromStatus (stepName st) phs))
  ∧ (∃ r, prepareKubeResources plan meta renderer status = Returned r)
  ∧ (∃ t, executePlan plan meta c renderer h cl = Returned t).
Proof.
  intros Hh Hm. apply statusMatchesSpec_hasEntries in Hm as Hent. split_and!.
  - intros ph Hph. unfold hasEntries in Hent. rewrite Forall_forall in Hent.
    destruct (Hent ph Hph) as (names & Hn & Hall). unfold namesOf in Hn.
    destruct (getPhaseFromStatus (phaseName ph) status) as [[i phs]|]; simplify_eq/=.
    exists i, phs. split; [done|]. intros st Hst.
    apply getStepFromStatus_elem_of. rewrite Forall_forall in Hall. by apply Hall.
  - destruct (prepareKubeResources_returns plan meta renderer status Hent)
      as (status1 & r & -> & _). eauto.
  - by eapply executePlan_returns.
Qed.

End Driver.

(** ** How a failed preparation ends the tick *)

Section PreparationFailure.

Context {Cluster : Type} {libs : Libraries} {oracle : HealthOracle Cluster}.

(** Whatever the preparation fails with, the tick ends with the top-level
    status ExecutionFatalError, without a call to the cluster. *)
Lemma executePlan_preparation_failure plan meta (c : Client Cluster) renderer h cl
    status status1 err :
  h !! apPlanStatus plan = Some status →
  IsTerminal (plsStatus status) = false →
  prepareKubeResources plan meta renderer status = Returned (status1, inl err) →
  executePlan plan meta c renderer h cl
  = Returned (mkTick (apPlanStatus plan) (Some err)
                (<[apPlanStatus plan := setPlanStatus ExecutionFatalError status1]> h)
                cl []).
Proof.
  intros Hh Hterm Hprep. unfold executePlan. rewrite Hh, Hterm, Hprep.
  rewrite (prepareKubeResources_error _ _ _ _ _ _ Hprep).
  do 2 f_equal. rewrite alter_insert_eq. done.
Qed.

(** The pointer [executePlan] returns is the pointer it was given. *)
Lemma executePlan_returns_input_pointer plan meta (c : Client Cluster) renderer h cl t :
  executePlan plan meta c renderer h cl = Returned t →
  tickState t = apPlanStatus plan.
Proof.
  unfold executePlan. intros Hrun.
  repeat (case_match; simplify_eq/=); done.
Qed.

Lemma phaseStatusOf_setPlanStatus n s status :
  phaseStatusOf n (setPlanStatus s status) = phaseStatusOf n status.
Proof. done. Qed.

Lemma stepStatusOf_setPlanStatus n m s status :
  stepStatusOf n m (setPlanStatus s status) = stepStatusOf n m status.
Proof. done. Qed.

Lemma firstFailure_marks plan meta renderer status kind phase step :
  firstFailure kind plan meta renderer phase step →
  hasEntries (apSpec plan) status →
  ∃ status1 err,
    prepareKubeResources plan meta renderer status = Returned (status1, inl err)
    ∧ phaseStatusOf (phaseName phase) status1 = Some (failureStatus kind)
    ∧ stepStatusOf (phaseName phase) (stepName step) status1 = Some (failureStatus kind)
    ∧ errorsAs_executionError err = true
    ∧ isFatal err = failureFatal kind.
Proof.
  intros Hfail Hent.
  destruct (firstFailure_prepare plan meta renderer kind phase step status Hfail Hent)
    as (i & phs & k & ss & cause & Hf & Hg & ->).
  eexists _, _. split; [done|].
  split; [by apply markFailed_phaseStatusOf|].
  split; [by apply markFailed_stepStatusOf|]. done.
Qed.

(** C2, as the code has it. Where the walk of the preparation fails first on
    the lookup of a task in the task catalog, the phase status and the step
    status are set to ErrorStatus and the error returned is not fatal; where
    it fails first on the lookup of a resource key in the template catalog,
    both are set to ExecutionFatalError and the error returned is fatal. *)
Theorem prepare_lookup_failure plan meta renderer status kind phase step :
  firstFailure kind plan meta renderer phase step →
  statusMatchesSpec (apSpec plan) status = true →
  ∃ status1 err,
    prepareKubeResources plan meta renderer status = Returned (status1, inl err)
    ∧ phaseStatusOf (phaseName phase) status1 = Some (failureStatus kind)
    ∧ stepStatusOf (phaseName phase) (stepName step) status1 = Some (failureStatus kind)
    ∧ errorsAs_executionError err = true
    ∧ isFatal err = failureFatal kind.
Proof.
  intros Hfail Hent%statusMatchesSpec_hasEntries. by apply firstFailure_marks.
Qed.

(** A tick on a plan that is not terminal and whose preparation fails first
    on a resource key missing from the template catalog. *)
Lemma executePlan_missing_template plan meta (c : Client Cluster) renderer h cl
    status phase step :
  h !! apPlanStatus plan = Some status →
  IsTerminal (plsStatus status) = false →
  hasEntries (apSpec plan) status →
  firstFailure MissingTemplate plan meta renderer phase step →
  ∃ t final,
    executePlan plan meta c renderer h cl = Returned t
    ∧ tickHeap t !! apPlanStatus plan = Some final
    ∧ plsStatus final = ExecutionFatalError
    ∧ phaseStatusOf (phaseName phase) final = Some ExecutionFatalError
    ∧ stepStatusOf (phaseName phase) (stepName step) final = Some ExecutionFatalError
    ∧ tickEvents t = []
    ∧ tickCluster t = cl.
Proof.
  intros Hh Hterm Hent Hfail.
  destruct (firstFailure_marks plan meta renderer status _ _ _ Hfail Hent)
    as (status1 & err & Hprep & Hph & Hst & _).
  rewrite (executePlan_preparation_failure _ _ _ _ _ _ _ _ _ Hh Hterm Hprep).
  eexists _, _. split; [done|]. simpl. rewrite lookup_insert_eq.
  split; [done|]. split; [done|].
  by rewrite phaseStatusOf_setPlanStatus, stepStatusOf_setPlanStatus.
Qed.

End PreparationFailure.

(** ** The loop over the steps of a phase *)

Lemma list_find_insert_other {A : Type} (P : A → Prop) `{∀ x, Decision (P x)}
    (l : list A) i j x y z :
  list_find P l = Some (j, x) → l !! i = Some z → ¬ P z → ¬ P y →
  list_find P (<[i := y]> l) = Some (j, x).
Proof.
  intros Hf Hi Hz Hy. apply list_find_insert_Some.
  destruct (decide (j < i)) as [|Hge]; [left; done|].
  right. right. left.
  assert (i ≠ j).
  { intros ->. apply list_find_Some in Hf as (Hj & HP & _). naive_solver. }
  split_and!; [lia|done|done|naive_solver].
Qed.

Lemma stepStatusIn_insert_same n pst pst' j cur state1 :
  getStepFromStatus n pst = Some (j, cur) →
  phsSteps pst' = <[j := state1]> (phsSteps pst) →
  ssName state1 = n →
  stepStatusIn n pst' = Some (ssStatus state1).
Proof.
  intros Hf Hs Hn. unfold stepStatusIn, getStepFromStatus. rewrite Hs.
  by erewrite list_find_insert_found.
Qed.

Lemma stepStatusIn_insert_other n m pst pst' j cur state1 :
  getStepFromStatus m pst = Some (j, cur) →
  phsSteps pst' = <[j := state1]> (phsSteps pst) →
  ssName state1 = m → n ≠ m →
  stepStatusIn n pst' = stepStatusIn n pst.
Proof.
  intros Hf Hs Hm Hne. unfold stepStatusIn, getStepFromStatus. rewrite Hs.
  apply getStepFromStatus_Some in Hf as [Hj Hcur].
  destruct (list_find (λ p, ssName p = n) (phsSteps pst)) as [[k x]|] eqn:Hk.
  - erewrite list_find_insert_other; [done|exact Hk|exact Hj|congruence..].
  - destruct (list_find _ (<[j:=state1]> (phsSteps pst))) as [[k x]|] eqn:Hk'; [|done].
    exfalso. apply list_find_None in Hk. apply list_find_Some in Hk' as (Hl & Hx & _).
    apply list_lookup_insert_Some in Hl as [(_ & <- & _)|[_ Hl]]; [congruence|].
    rewrite Forall_forall in Hk. eapply Hk; [|exact Hx].
    by eapply list_elem_of_lookup_2.
Qed.

Section StepLoop.

Context {Cluster : Type} {libs : Libraries} {oracle : HealthOracle Cluster}.

Lemma executedSteps_app evs1 evs2 :
  executedSteps (evs1 ++ evs2) = executedSteps evs1 ++ executedSteps evs2.
Proof. unfold executedSteps. apply omap_app. Qed.

Lemma patchExistingObject_events newResource existing (c : Client Cluster) cl :
  executedSteps (patchExistingObject newResource existing c cl).2 = [].
Proof.
  unfold patchExistingObject.
  destruct (clPatch c cl existing _ _) as [[e|o] cl1]; [|done].
  destruct (IsUnsupportedMediaType e); [|done].
  by destruct (clPatch c cl1 newResource _ _) as [[e2|o2] cl2].
Qed.

Lemma applyResource_events step r (c : Client Cluster) cl :
  executedSteps (applyResource step r c cl).2 = [].
Proof.
  unfold applyResource. destruct (stepDelete step).
  - destruct (clDelete c cl r) as [[e|] cl1]; [|done]. by destruct (IsNotFound e).
  - destruct (clGet c cl _ r) as [e|fetched].
    + destruct (IsNotFound e); [|done]. by destruct (clCreate c cl r) as [[e1|] cl1].
    + pose proof (patchExistingObject_events r fetched c cl) as Hp.
      destruct (patchExistingObject r fetched c cl) as [[[perr ex] cl1] evs].
      by destruct perr.
Qed.

Lemma applyResources_events step rs b (c : Client Cluster) cl :
  executedSteps (applyResources step rs b c cl).2 = [].
Proof.
  revert b cl. induction rs as [|r rs IH]; intros b cl; simpl; [done|].
  pose proof (applyResource_events step r c cl) as Hr.
  destruct (applyResource step r c cl) as [[o cl1] ev1]. simpl in Hr.
  destruct o as [e| |healthy]; [done| |].
  - specialize (IH b cl1). destruct (applyResources step rs b c cl1) as [[res cl2] ev2].
    simpl in *. by rewrite executedSteps_app, Hr, IH.
  - specialize (IH (if healthy then b else false) cl1).
    destruct (applyResources step rs _ c cl1) as [[res cl2] ev2].
    simpl in *. by rewrite executedSteps_app, Hr, IH.
Qed.

Lemma executeStep_events step state rs (c : Client Cluster) cl :
  executedSteps (executeStep step state rs c cl).2 = [].
Proof.
  unfold executeStep. destruct (isInProgress _); [|done].
  pose proof (applyResources_events step rs true c cl) as Hr.
  destruct (applyResources step rs true c cl) as [[[e|[]] cl1] evs]; done.
Qed.

(** A step that is Complete is left alone. *)
Lemma executeStep_complete step state rs (c : Client Cluster) cl :
  ssStatus state = ExecutionComplete →
  executeStep step state rs c cl = (state, None, cl, []).
Proof. intros H. unfold executeStep. by rewrite H. Qed.

(** The status [executeStep] leaves is Complete or InProgress, unless it left
    the step alone. *)
Lemma executeStep_status step state rs (c : Client Cluster) cl state1 err cl1 evs :
  executeStep step state rs c cl = (state1, err, cl1, evs) →
  ssName state1 = ssName state
  ∧ (err ≠ None → ssStatus state1 ≠ ExecutionComplete).
Proof.
  unfold executeStep. destruct (isInProgress _) eqn:Hin.
  - destruct (applyResources _ _ _ _ _) as [[[e|[]] cl2] evs2]; intros; by simplify_eq.
  - intros; by simplify_eq.
Qed.

(** A step entry that is Complete stays Complete through the loop. *)
Lemma executeSteps_keeps_complete ph res steps pst flag (c : Client Cluster) cl
    pst1 r cl1 evs n :
  executeSteps ph res steps pst flag c cl = Returned (pst1, r, cl1, evs) →
  stepStatusIn n pst = Some ExecutionComplete →
  stepStatusIn n pst1 = Some ExecutionComplete.
Proof.
  revert pst flag cl evs. induction steps as [|st steps IH];
    intros pst flag cl evs; simpl.
  - intros; by simplify_eq.
  - destruct (getStepFromStatus (stepName st) pst) as [[j cur]|] eqn:Hj; [|done].
    destruct (executeStep st cur _ c cl) as [[[state1 err] cl2] evs2] eqn:Hex.
    intros Hrun Hn.
    destruct (executeStep_status _ _ _ _ _ _ _ _ _ Hex) as [Hname Herr].
    pose proof (getStepFromStatus_Some _ _ _ _ Hj) as [Hlook Hcur].
    assert (∀ pst', phsSteps pst' = <[j := state1]> (phsSteps pst) →
                    err = None →
                    stepStatusIn n pst' = Some ExecutionComplete) as Hkeep.
    { intros pst' Hs ->. destruct (decide (n = stepName st)) as [->|Hne].
      - unfold stepStatusIn in Hn. rewrite Hj in Hn. simplify_eq/=.
        rewrite executeStep_complete in Hex by done. simplify_eq.
        erewrite stepStatusIn_insert_same; [|exact Hj|exact Hs|done]. by f_equal.
      - erewrite stepStatusIn_insert_other; [exact Hn|exact Hj|exact Hs|congruence|done]. }
    destruct err as [e|].
    { simplify_eq. destruct (decide (n = stepName st)) as [->|Hne].
      - unfold stepStatusIn in Hn. rewrite Hj in Hn. simplify_eq/=.
        rewrite executeStep_complete in Hex by done. simplify_eq.
      - erewrite stepStatusIn_insert_other;
          [exact Hn|exact Hj|done|simpl; congruence|done]. }
    destruct (isFinished (ssStatus state1)).
    + destruct (executeSteps ph res steps _ flag c cl2) as [[[[p r'] cl3] ev3]|] eqn:Hrest;
        [|done].
      simplify_eq. eapply IH; [exact Hrest|]. by apply Hkeep.
    + destruct (bool_decide (phaseStrategy ph = Serial)).
      * simplify_eq. by apply Hkeep.
      * destruct (executeSteps ph res steps _ false c cl2) as [[[[p r'] cl3] ev3]|] eqn:Hrest;
          [|done].
        simplify_eq. eapply IH; [exact Hrest|]. by apply Hkeep.
Qed.

Lemma stepsShape_stop ph st steps pst1 r evs s :
  stepStatusIn (stepName st) pst1 = Some s → s ≠ ExecutionComplete →
  (phaseStrategy ph = Parallel → ¬ ∃ b : bool, r = inr b) →
  executedSteps evs = [stepName st] →
  stepsShape ph (st :: steps) pst1 r evs.
Proof.
  intros Hst Hs Hpar Hev. exists 1. split_and!.
  - simpl. lia.
  - done.
  - intros _. split; [intros; lia|]. intros _. split; [lia|].
    exists st. split; [done|]. rewrite Hst. congruence.
  - intros Hp Hr. by destruct (Hpar Hp).
Qed.

Lemma stepsShape_go ph st steps pst1 r evs ev3 :
  stepsShape ph steps pst1 r ev3 →
  (phaseStrategy ph = Serial →
   stepStatusIn (stepName st) pst1 = Some ExecutionComplete) →
  executedSteps evs = stepName st :: executedSteps ev3 →
  stepsShape ph (st :: steps) pst1 r evs.
Proof.
  intros (n & Hle & Hexec & Hserial & Hparallel) Hser Hev.
  exists (S n). split_and!.
  - simpl. lia.
  - simpl. by rewrite Hev, Hexec.
  - intros Hs. destruct (Hserial Hs) as [Hbefore Hlast]. split.
    + intros [|i] st0 Hi Hst0; simplify_eq/=; [by apply Hser|].
      eapply Hbefore; [|done]. lia.
    + intros Hlt. destruct Hlast as [Hpos (st0 & Hst0 & Hnc)]; [simpl in Hlt; lia|].
      split; [lia|]. exists st0. split; [|done].
      destruct n as [|n]; [lia|]. simpl in *. by rewrite Nat.sub_0_r in Hst0.
  - intros Hp Hr. simpl. by rewrite (Hparallel Hp Hr).
Qed.

Lemma executeSteps_shape ph res steps pst flag (c : Client Cluster) cl pst1 r cl1 evs :
  executeSteps ph res steps pst flag c cl = Returned (pst1, r, cl1, evs) →
  stepsShape ph steps pst1 r evs.
Proof.
  revert pst flag cl evs. induction steps as [|st steps IH];
    intros pst flag cl evs; simpl.
  - intros; simplify_eq. exists 0. split_and!; [done|done| |done].
    intros _. split; [intros; lia | simpl; lia].
  - destruct (getStepFromStatus (stepName st) pst) as [[j cur]|] eqn:Hj; [|done].
    pose proof (executeStep_events st cur (default [] (res !! stepName st)) c cl) as Hev.
    destruct (executeStep st cur _ c cl) as [[[state1 err] cl2] evs2] eqn:Hex.
    simpl in Hev.
    destruct (executeStep_status _ _ _ _ _ _ _ _ _ Hex) as [Hname Herr].
    pose proof (getStepFromStatus_Some _ _ _ _ Hj) as [Hlook Hcur].
    set (pst2 := setPhaseSteps (<[j := state1]> (phsSteps pst)) pst).
    assert (stepStatusIn (stepName st) pst2 = Some (ssStatus state1)) as Hst
      by (eapply stepStatusIn_insert_same; [exact Hj|done|congruence]).
    assert (∀ flag' ev3,
              executeSteps ph res steps pst2 flag' c cl2 = Returned (pst1, r, cl1, ev3) →
              (phaseStrategy ph = Serial → ssStatus state1 = ExecutionComplete) →
              stepsShape ph (st :: steps) pst1 r
                ((EvExecutingStep (stepName st) :: evs2) ++ ev3)) as Hgo.
    { intros flag' ev3 Hrest Hser. eapply stepsShape_go.
      - eapply IH. exact Hrest.
      - intros Hs. eapply executeSteps_keeps_complete; [exact Hrest|].
        rewrite Hst. f_equal. by apply Hser.
      - simpl. by rewrite executedSteps_app, Hev. }
    destruct err as [e|].
    { intros; simplify_eq.
      eapply (stepsShape_stop _ _ _ _ _ _ ErrorStatus); [|done| |by simpl; rewrite Hev].
      - change (Some ErrorStatus)
          with (Some (ssStatus (setStepStatus ErrorStatus state1))).
        eapply (stepStatusIn_insert_same _ pst); [exact Hj|done|simpl; congruence].
      - intros _ [b Hb]. done. }
    destruct (isFinished (ssStatus state1)) eqn:Hfin.
    + destruct (executeSteps ph res steps _ flag c cl2) as [[[[p r'] cl3] ev3]|] eqn:Hrest;
        [|done].
      intros; simplify_eq. eapply Hgo; [exact Hrest|].
      intros _. by apply isFinished_true.
    + apply isFinished_false in Hfin.
      destruct (bool_decide (phaseStrategy ph = Serial)) eqn:Hs.
      * intros; simplify_eq. apply bool_decide_eq_true in Hs.
        eapply stepsShape_stop; [exact Hst|done| |by simpl; rewrite Hev].
        intros Hp. congruence.
      * destruct (executeSteps ph res steps _ false c cl2) as [[[[p r'] cl3] ev3]|] eqn:Hrest;
          [|done].
        intros; simplify_eq. eapply Hgo; [exact Hrest|].
        intros Hser. apply bool_decide_eq_false in Hs. done.
Qed.

End StepLoop.

(** ** How an error of the cluster ends the tick *)

Section ClusterErrors.

Context {Cluster : Type} {libs : Libraries} {oracle : HealthOracle Cluster}.

Lemma executeSteps_names ph res steps pst flag (c : Client Cluster) cl pst1 r cl1 evs :
  executeSteps ph res steps pst flag c cl = Returned (pst1, r, cl1, evs) →
  phsName pst1 = phsName pst ∧ stepNames pst1 = stepNames pst.
Proof.
  revert pst flag cl evs. induction steps as [|st steps IH];
    intros pst flag cl evs; simpl.
  - intros; by simplify_eq.
  - destruct (getStepFromStatus (stepName st) pst) as [[j cur]|] eqn:Hj; [|done].
    destruct (executeStep st cur _ c cl) as [[[state1 err] cl2] evs2] eqn:Hex.
    destruct (executeStep_status _ _ _ _ _ _ _ _ _ Hex) as [Hname _].
    pose proof (getStepFromStatus_Some _ _ _ _ Hj) as [Hlook _].
    pose proof (setPhaseSteps_insert_names pst j cur state1 Hlook Hname) as Hn.
    destruct err as [e|].
    { intros; simplify_eq. split; [done|].
      by apply (setPhaseSteps_insert_names (setPhaseStatus ErrorStatus pst) j cur). }
    destruct (isFinished (ssStatus state1)).
    + destruct (executeSteps ph res steps _ flag c cl2) as [[[[p r'] cl3] ev3]|] eqn:Hrest;
        [|done].
      intros; simplify_eq. destruct (IH _ _ _ _ Hrest) as [-> ->]. done.
    + destruct (bool_decide (phaseStrategy ph = Serial)); [intros; by simplify_eq|].
      destruct (executeSteps ph res steps _ false c cl2) as [[[[p r'] cl3] ev3]|] eqn:Hrest;
        [|done].
      intros; simplify_eq. destruct (IH _ _ _ _ Hrest) as [-> ->]. done.
Qed.

(** The loop over the steps leaves the status of the phase alone unless it
    ends with an error. *)
Lemma executeSteps_phase_status ph res steps pst flag (c : Client Cluster) cl
    pst1 b cl1 evs :
  executeSteps ph res steps pst flag c cl = Returned (pst1, inr b, cl1, evs) →
  phsStatus pst1 = phsStatus pst.
Proof.
  revert pst flag cl evs. induction steps as [|st steps IH];
    intros pst flag cl evs; simpl.
  - intros; by simplify_eq.
  - destruct (getStepFromStatus (stepName st) pst) as [[j cur]|]; [|done].
    destruct (executeStep st cur _ c cl) as [[[state1 [e|]] cl2] evs2]; [done|].
    destruct (isFinished (ssStatus state1)).
    + destruct (executeSteps ph res steps _ flag c cl2) as [[[[p r'] cl3] ev3]|] eqn:Hrest;
        [|done].
      intros; simplify_eq. by rewrite (IH _ _ _ _ Hrest).
    + destruct (bool_decide (phaseStrategy ph = Serial)); [intros; by simplify_eq|].
      destruct (executeSteps ph res steps _ false c cl2) as [[[[p r'] cl3] ev3]|] eqn:Hrest;
        [|done].
      intros; simplify_eq. by rewrite (IH _ _ _ _ Hrest).
Qed.

Lemma executeSteps_error ph res steps pst flag (c : Client Cluster) cl pst1 e cl1 evs :
  executeSteps ph res steps pst flag c cl = Returned (pst1, inl e, cl1, evs) →
  phsStatus pst1 = ErrorStatus
  ∧ ∃ st, st ∈ steps ∧ stepStatusIn (stepName st) pst1 = Some ErrorStatus.
Proof.
  revert pst flag cl evs. induction steps as [|st steps IH];
    intros pst flag cl evs; simpl; [done|].
  destruct (getStepFromStatus (stepName st) pst) as [[j cur]|] eqn:Hj; [|done].
  destruct (executeStep st cur _ c cl) as [[[state1 err] cl2] evs2] eqn:Hex.
  destruct (executeStep_status _ _ _ _ _ _ _ _ _ Hex) as [Hname _].
  pose proof (getStepFromStatus_Some _ _ _ _ Hj) as [_ Hcur].
  destruct err as [e'|].
  { intros; simplify_eq. split; [done|]. exists st. split; [left|].
    change (Some ErrorStatus)
      with (Some (ssStatus (setStepStatus ErrorStatus state1))).
    eapply (stepStatusIn_insert_same _ pst); [exact Hj|done|simpl; congruence]. }
  destruct (isFinished (ssStatus state1)).
  + destruct (executeSteps ph res steps _ flag c cl2) as [[[[p r'] cl3] ev3]|] eqn:Hrest;
      [|done].
    intros; simplify_eq. destruct (IH _ _ _ _ Hrest) as (Hp & st0 & Hin & Hs).
    split; [done|]. exists st0. split; [by right|done].
  + destruct (bool_decide (phaseStrategy ph = Serial)); [done|].
    destruct (executeSteps ph res steps _ false c cl2) as [[[[p r'] cl3] ev3]|] eqn:Hrest;
      [|done].
    intros; simplify_eq. destruct (IH _ _ _ _ Hrest) as (Hp & st0 & Hin & Hs).
    split; [done|]. exists st0. split; [by right|done].
Qed.

(** Where the loop over the steps ends with an error, the step it executes
    last is the first whose execution returns an error, and that error is
    the one the loop ends with; where it ends without one, no step it
    executes returns an error. *)
Lemma executeSteps_first_error ph res steps pst flag (c : Client Cluster) cl
    pst1 r cl1 evs :
  executeSteps ph res steps pst flag c cl = Returned (pst1, r, cl1, evs) →
  ∃ n : nat,
    n ≤ length steps
    ∧ executedSteps evs = stepName <$> take n steps
    ∧ (∀ e, r = inl e →
            0 < n
            ∧ (∃ b, stepResults res steps pst c cl !! (n - 1) = Some (Some e, b))
            ∧ (∀ i o, i < n - 1 → stepResults res steps pst c cl !! i = Some o →
                      o.1 = None)
            ∧ ∃ st, steps !! (n - 1) = Some st
                    ∧ stepStatusIn (stepName st) pst1 = Some ErrorStatus)
    ∧ ((∃ b : bool, r = inr b) →
       ∀ i o, i < n → stepResults res steps pst c cl !! i = Some o → o.1 = None).
Proof.
  revert pst flag cl evs. induction steps as [|st steps IH];
    intros pst flag cl evs; simpl.
  { intros; simplify_eq. exists 0. split; [done|]. split; [done|].
    split; [done|]. intros _ i o Hi. lia. }
  destruct (getStepFromStatus (stepName st) pst) as [[j cur]|] eqn:Hj; [|done].
  pose proof (executeStep_events st cur (default [] (res !! stepName st)) c cl) as Hev.
  destruct (executeStep st cur _ c cl) as [[[state1 err] cl2] evs2] eqn:Hex.
  simpl in Hev.
  destruct (executeStep_status _ _ _ _ _ _ _ _ _ Hex) as [Hname _].
  pose proof (getStepFromStatus_Some _ _ _ _ Hj) as [_ Hcur].
  assert (∀ ev3 flag',
            executeSteps ph res steps
              (setPhaseSteps (<[j := state1]> (phsSteps pst)) pst) flag' c cl2
            = Returned (pst1, r, cl1, ev3) →
            err = None →
            ∃ n : nat,
              n ≤ S (length steps)
              ∧ executedSteps ((EvExecutingStep (stepName st) :: evs2) ++ ev3)
                = stepName <$> take n (st :: steps)
              ∧ (∀ e, r = inl e →
                      0 < n
                      ∧ (∃ b, ((err, isFinished (ssStatus state1))
                               :: stepResults res steps
                                    (setPhaseSteps (<[j := state1]> (phsSteps pst)) pst)
                                    c cl2) !! (n - 1) = Some (Some e, b))
                      ∧ (∀ i o, i < n - 1 →
                                ((err, isFinished (ssStatus state1))
                                 :: stepResults res steps
                                      (setPhaseSteps (<[j := state1]> (phsSteps pst)) pst)
                                      c cl2) !! i = Some o → o.1 = None)
                      ∧ ∃ st', (st :: steps) !! (n - 1) = Some st'
                               ∧ stepStatusIn (stepName st') pst1 = Some ErrorStatus)
              ∧ ((∃ b : bool, r = inr b) →
                 ∀ i o, i < n →
                        ((err, isFinished (ssStatus state1))
                         :: stepResults res steps
                              (setPhaseSteps (<[j := state1]> (phsSteps pst)) pst)
                              c cl2) !! i = Some o → o.1 = None)) as Hgo.
  { intros ev3 flag' Hrest ->.
    destruct (IH _ _ _ _ Hrest) as (n & Hle & Hexec & Herr & Hok).
    exists (S n). split; [lia|]. split.
    { simpl. rewrite executedSteps_app, Hev. simpl. by rewrite Hexec. }
    split.
    - intros e He. destruct (Herr e He) as (Hpos & [b Hb] & Hbefore & st' & Hst' & Hs).
      split; [lia|]. simpl. rewrite Nat.sub_0_r.
      destruct n as [|n]; [lia|]. simpl in *. rewrite Nat.sub_0_r in *.
      split; [by exists b|]. split; [|by exists st'].
      intros [|i] o Hi Ho; simpl in Ho; [by simplify_eq|].
      apply (Hbefore i o); [lia|done].
    - intros Hb [|i] o Hi Ho; simpl in Ho; [by simplify_eq|].
      apply (Hok Hb i o); [lia|done]. }
  destruct err as [e|].
  { intros; simplify_eq. exists 1. split; [lia|]. split.
    { simpl. by rewrite Hev. }
    split; [|by intros [b ?]].
    intros e' ?; simplify_eq. split; [lia|]. simpl.
    split; [by eexists|]. split; [intros i o Hi; lia|].
    exists st. split; [done|].
    change (Some ErrorStatus)
      with (Some (ssStatus (setStepStatus ErrorStatus state1))).
    eapply (stepStatusIn_insert_same _ pst); [exact Hj|done|simpl; congruence]. }
  destruct (isFinished (ssStatus state1)) eqn:Hfin.
  - destruct (executeSteps ph res steps _ flag c cl2) as [[[[p r'] cl3] ev3]|] eqn:Hrest;
      [|done].
    intros; simplify_eq. by eapply Hgo.
  - destruct (bool_decide (phaseStrategy ph = Serial)).
    + intros; simplify_eq. exists 1. split; [lia|]. split.
      { simpl. by rewrite Hev. }
      split; [done|]. intros _ [|i] o Hi Ho; [|lia]. simpl in Ho. by simplify_eq.
    + destruct (executeSteps ph res steps _ false c cl2) as [[[[p r'] cl3] ev3]|] eqn:Hrest;
        [|done].
      intros; simplify_eq. by eapply Hgo.
Qed.

(** C4, as the code has it. In one run of the loop over the steps of a phase
    the steps executed are the first steps of the phase, in order. Under
    Serial every executed step but the last is Complete, and where a step is
    left unexecuted the last executed step is not Complete: the loop stops at
    the first step that is not Complete after its execution. Under Parallel
    every step of the phase is executed, whatever the completion of earlier
    steps, in a run that ends without an error. Under either strategy a run
    ends with an error exactly at the first step whose execution returns
    one: that step is the last executed, the steps after it are not
    executed, it is left at ErrorStatus, and no step executed before it
    returned an error; a run that ends without an error executed no step
    that returned one. *)
Theorem executeSteps_strategy ph res steps pst flag (c : Client Cluster) cl
    pst1 r cl1 evs :
  executeSteps ph res steps pst flag c cl = Returned (pst1, r, cl1, evs) →
  ∃ n : nat,
    n ≤ length steps
    ∧ executedSteps evs = stepName <$> take n steps
    ∧ (phaseStrategy ph = Serial →
         (∀ i st, S i < n → steps !! i = Some st →
                  stepStatusIn (stepName st) pst1 = Some ExecutionComplete)
         ∧ (n < length steps →
              0 < n ∧ ∃ st, steps !! (n - 1) = Some st
                            ∧ stepStatusIn (stepName st) pst1 ≠ Some ExecutionComplete))
    ∧ (phaseStrategy ph = Parallel → (∃ b : bool, r = inr b) → n = length steps)
    ∧ (∀ e, r = inl e →
            0 < n
            ∧ (∃ b, stepResults res steps pst c cl !! (n - 1) = Some (Some e, b))
            ∧ (∀ i o, i < n - 1 → stepResults res steps pst c cl !! i = Some o →
                      o.1 = None)
            ∧ ∃ st, steps !! (n - 1) = Some st
                    ∧ stepStatusIn (stepName st) pst1 = Some ErrorStatus)
    ∧ ((∃ b : bool, r = inr b) →
       ∀ i o, i < n → stepResults res steps pst c cl !! i = Some o → o.1 = None).
Proof.
  intros Hrun.
  destruct (executeSteps_shape _ _ _ _ _ _ _ _ _ _ _ Hrun)
    as (n & Hle & Hexec & Hserial & Hparallel).
  destruct (executeSteps_first_error _ _ _ _ _ _ _ _ _ _ _ Hrun)
    as (n' & Hle' & Hexec' & Herr & Hok).
  assert (n' = n) as ->.
  { apply (f_equal length) in Hexec. rewrite Hexec' in Hexec.
    rewrite !length_fmap, !length_take in Hexec. lia. }
  exists n. done.
Qed.

End ClusterErrors.

(** ** Two ticks on an unchanged cluster *)

Lemma list_find_insert_irrelevant {A : Type} (P : A → Prop) `{∀ x, Decision (P x)}
    (l : list A) i y z :
  l !! i = Some z → ¬ P z → ¬ P y → list_find P (<[i := y]> l) = list_find P l.
Proof.
  intros Hi Hz Hy. destruct (list_find P l) as [[j x]|] eqn:Hf.
  - by eapply list_find_insert_other.
  - apply list_find_None. apply list_find_None in Hf.
    rewrite Forall_forall in *. intros x [j Hj]%list_elem_of_lookup.
    apply list_lookup_insert_Some in Hj as [(_ & <- & _)|[_ Hj]]; [done|].
    apply Hf. by eapply list_elem_of_lookup_2.
Qed.

Lemma setPhaseStatus_same (pst : PhaseStatus) : setPhaseStatus (phsStatus pst) pst = pst.
Proof. by destruct pst. Qed.

Lemma setPhaseSteps_insert_id (pst : PhaseStatus) l j x :
  l = phsSteps pst → l !! j = Some x → setPhaseSteps (<[j := x]> l) pst = pst.
Proof.
  intros -> H. unfold setPhaseSteps. rewrite list_insert_id by done. by destruct pst.
Qed.

Lemma getStepFromStatus_insert_found n pst pst' j cur state1 :
  getStepFromStatus n pst = Some (j, cur) →
  phsSteps pst' = <[j := state1]> (phsSteps pst) →
  ssName state1 = n →
  getStepFromStatus n pst' = Some (j, state1).
Proof.
  intros Hf Hs Hn. unfold getStepFromStatus. rewrite Hs.
  by erewrite list_find_insert_found.
Qed.

Lemma getStepFromStatus_insert_irrelevant n m pst pst' j cur state1 :
  getStepFromStatus m pst = Some (j, cur) →
  phsSteps pst' = <[j := state1]> (phsSteps pst) →
  ssName state1 = m → n ≠ m →
  getStepFromStatus n pst' = getStepFromStatus n pst.
Proof.
  intros Hf Hs Hm Hne. unfold getStepFromStatus. rewrite Hs.
  apply getStepFromStatus_Some in Hf as [Hj Hcur].
  eapply list_find_insert_irrelevant; [exact Hj|congruence..].
Qed.

Section Untouched.

Context {Cluster : Type} {libs : Libraries} {oracle : HealthOracle Cluster}.

(** The loop over the steps leaves the entries of other names alone. *)
Lemma executeSteps_untouched ph res steps pst flag (c : Client Cluster) cl
    pst1 r cl1 evs n :
  n ∉ stepName <$> steps →
  executeSteps ph res steps pst flag c cl = Returned (pst1, r, cl1, evs) →
  getStepFromStatus n pst1 = getStepFromStatus n pst.
Proof.
  revert pst flag cl evs. induction steps as [|st steps IH];
    intros pst flag cl evs Hn; simpl.
  - intros; by simplify_eq.
  - apply not_elem_of_cons in Hn as [Hne Hn].
    destruct (getStepFromStatus (stepName st) pst) as [[j cur]|] eqn:Hj; [|done].
    destruct (executeStep st cur _ c cl) as [[[state1 err] cl2] evs2] eqn:Hex.
    destruct (executeStep_status _ _ _ _ _ _ _ _ _ Hex) as [Hname _].
    pose proof (getStepFromStatus_Some _ _ _ _ Hj) as [_ Hcur].
    destruct err as [e|].
    { intros; simplify_eq.
      eapply (getStepFromStatus_insert_irrelevant _ _ pst);
        [exact Hj|done|simpl; congruence|done]. }
    assert (getStepFromStatus n (setPhaseSteps (<[j := state1]> (phsSteps pst)) pst)
            = getStepFromStatus n pst) as Heq
      by (eapply getStepFromStatus_insert_irrelevant; [exact Hj|done|congruence|done]).
    destruct (isFinished (ssStatus state1)).
    + destruct (executeSteps ph res steps _ flag c cl2) as [[[[p r'] cl3] ev3]|] eqn:Hrest;
        [|done].
      intros; simplify_eq. by rewrite (IH _ _ _ _ Hn Hrest).
    + destruct (bool_decide (phaseStrategy ph = Serial)); [intros; by simplify_eq|].
      destruct (executeSteps ph res steps _ false c cl2) as [[[[p r'] cl3] ev3]|] eqn:Hrest;
        [|done].
      intros; simplify_eq. by rewrite (IH _ _ _ _ Hn Hrest).
Qed.

Lemma executePhase_complete_noop ph res status (c : Client Cluster) cl i p :
  getPhaseFromStatus (phaseName ph) status = Some (i, p) →
  phsStatus p = ExecutionComplete →
  executePhase ph res status c cl = Returned (status, PhaseContinue, cl, []).
Proof. intros Hf Hp. unfold executePhase. by rewrite Hf, Hp. Qed.

(** What one iteration of the loop over the phases writes: nothing, or the
    top-level status InProgress and the entry of its phase. *)
Lemma executePhase_writes ph res status (c : Client Cluster) cl s1 exit cl1 evs :
  executePhase ph res status c cl = Returned (s1, exit, cl1, evs) →
  s1 = status
  ∨ ∃ i cur p,
      getPhaseFromStatus (phaseName ph) status = Some (i, cur)
      ∧ phsStatus cur ≠ ExecutionComplete
      ∧ phsName p = phsName cur
      ∧ s1 = setPlanPhases (<[i := p]> (plsPhases status))
               (setPlanStatus ExecutionInProgress status).
Proof.
  unfold executePhase.
  destruct (getPhaseFromStatus (phaseName ph) status) as [[i cur]|] eqn:Hf; [|done].
  destruct (isFinished (phsStatus cur)) eqn:Hfin; [intros; simplify_eq; by left|].
  apply isFinished_false in Hfin.
  destruct (isInProgress (phsStatus cur)); [|intros; simplify_eq; by left].
  destruct (executeSteps ph _ _ _ true c cl) as [[[[pst1 r] cl2] ev2]|] eqn:Hrun;
    [|done].
  destruct (executeSteps_names _ _ _ _ _ _ _ _ _ _ _ Hrun) as [Hn _].
  destruct r as [e|b]; intros; simplify_eq; right; eexists i, cur, _;
    (split; [done|]); (split; [done|]); (split; [|done]).
  - done.
  - by destruct b.
Qed.

Lemma executePhase_untouched ph res status (c : Client Cluster) cl s1 exit cl1 evs n :
  n ≠ phaseName ph →
  executePhase ph res status c cl = Returned (s1, exit, cl1, evs) →
  getPhaseFromStatus n s1 = getPhaseFromStatus n status.
Proof.
  intros Hne Hrun.
  destruct (executePhase_writes _ _ _ _ _ _ _ _ _ Hrun)
    as [->|(i & cur & p & Hf & _ & Hn & ->)]; [done|].
  unfold getPhaseFromStatus. simpl.
  apply getPhaseFromStatus_Some in Hf as [Hi Hcur].
  eapply list_find_insert_irrelevant; [exact Hi|congruence..].
Qed.

Lemma executePhase_toplevel ph res status (c : Client Cluster) cl s1 exit cl1 evs :
  executePhase ph res status c cl = Returned (s1, exit, cl1, evs) →
  plsStatus s1 = plsStatus status ∨ plsStatus s1 = ExecutionInProgress.
Proof.
  intros Hrun.
  destruct (executePhase_writes _ _ _ _ _ _ _ _ _ Hrun)
    as [->|(i & cur & p & _ & _ & _ & ->)]; [by left|by right].
Qed.

Lemma executePhases_toplevel phases res status (c : Client Cluster) cl s1 r cl1 evs :
  executePhases phases res status c cl = Returned (s1, r, cl1, evs) →
  plsStatus s1 = plsStatus status ∨ plsStatus s1 = ExecutionInProgress.
Proof.
  revert status cl evs. induction phases as [|ph phases IH];
    intros status cl evs; simpl.
  - intros; simplify_eq. by left.
  - destruct (executePhase ph res status c cl) as [[[[s2 exit] cl2] ev2]|] eqn:Hph;
      [|done].
    pose proof (executePhase_toplevel _ _ _ _ _ _ _ _ _ Hph) as Htop.
    destruct exit as [| |e]; [|intros; by simplify_eq..].
    destruct (executePhases phases res s2 c cl2) as [[[[s3 r'] cl3] ev3]|] eqn:Hrest;
      [|done].
    intros; simplify_eq. destruct (IH _ _ _ Hrest) as [->| ->]; [done|by right].
Qed.

(** A phase entry that is Complete is left as it is by the loop over the
    phases. *)
Lemma executePhases_keeps_complete phases res status (c : Client Cluster) cl
    s1 r cl1 evs n i p :
  getPhaseFromStatus n status = Some (i, p) →
  phsStatus p = ExecutionComplete →
  executePhases phases res status c cl = Returned (s1, r, cl1, evs) →
  getPhaseFromStatus n s1 = Some (i, p).
Proof.
  revert status cl evs. induction phases as [|ph phases IH];
    intros status cl evs Hf Hp; simpl.
  - intros; by simplify_eq.
  - destruct (executePhase ph res status c cl) as [[[[s2 exit] cl2] ev2]|] eqn:Hph;
      [|done].
    assert (getPhaseFromStatus n s2 = Some (i, p)) as Hf2.
    { destruct (decide (n = phaseName ph)) as [->|Hne].
      - rewrite (executePhase_complete_noop _ _ _ _ _ _ _ Hf Hp) in Hph. by simplify_eq.
      - by rewrite (executePhase_untouched _ _ _ _ _ _ _ _ _ _ Hne Hph). }
    destruct exit as [| |e]; [|intros; by simplify_eq..].
    destruct (executePhases phases res s2 c cl2) as [[[[s3 r'] cl3] ev3]|] eqn:Hrest;
      [|done].
    intros; simplify_eq. by eapply IH.
Qed.

Lemma executePhase_continue ph res status (c : Client Cluster) cl s1 cl1 evs :
  executePhase ph res status c cl = Returned (s1, PhaseContinue, cl1, evs) →
  ∃ i p, getPhaseFromStatus (phaseName ph) s1 = Some (i, p)
         ∧ phsStatus p = ExecutionComplete.
Proof.
  unfold executePhase.
  destruct (getPhaseFromStatus (phaseName ph) status) as [[i cur]|] eqn:Hf; [|done].
  destruct (isFinished (phsStatus cur)) eqn:Hfin.
  { intros; simplify_eq. apply isFinished_true in Hfin. eauto. }
  destruct (isInProgress (phsStatus cur)); [|done].
  destruct (executeSteps ph _ _ _ true c cl) as [[[[pst1 r] cl2] ev2]|] eqn:Hrun;
    [|done].
  destruct (executeSteps_names _ _ _ _ _ _ _ _ _ _ _ Hrun) as [Hn _].
  destruct r as [e|b]; [done|].
  destruct (isFinished (phsStatus (if b then _ else _))) eqn:Hfin2; [|done].
  intros; simplify_eq. apply isFinished_true in Hfin2.
  eexists i, _. split; [|exact Hfin2].
  unfold getPhaseFromStatus. simpl. eapply list_find_insert_found; [exact Hf|].
  apply getPhaseFromStatus_Some in Hf as [_ Hcur]. simpl in Hn.
  destruct b; simpl; congruence.
Qed.

End Untouched.

Section Idempotence.

Context {Cluster : Type} {libs : Libraries} {oracle : HealthOracle Cluster}.
Variables (c : Client Cluster) (cl : Cluster).
Hypothesis Hquiet : quiescent c cl.

Lemma patchExistingObject_quiet newResource existing :
  (patchExistingObject newResource existing c cl).1.2 = cl.
Proof.
  unfold patchExistingObject.
  destruct (Hquiet existing) as (_ & _ & Hp).
  specialize (Hp StrategicMergePatchType (Marshal newResource)).
  destruct (clPatch c cl existing _ _) as [[e|o] cl1]; simpl in Hp; subst; [|done].
  destruct (IsUnsupportedMediaType e); [|done].
  destruct (Hquiet newResource) as (_ & _ & Hp).
  specialize (Hp MergePatchType (Marshal newResource)).
  by destruct (clPatch c cl newResource _ _) as [[e2|o2] cl2]; simpl in Hp; subst.
Qed.

Lemma applyResource_quiet step r : (applyResource step r c cl).1.2 = cl.
Proof.
  unfold applyResource. destruct (Hquiet r) as (Hc & Hd & _).
  destruct (stepDelete step).
  - destruct (clDelete c cl r) as [[e|] cl1]; simpl in Hd; subst; [|done].
    by destruct (IsNotFound e).
  - destruct (clGet c cl _ r) as [e|fetched].
    + destruct (IsNotFound e); [|done].
      by destruct (clCreate c cl r) as [[e1|] cl1]; simpl in Hc; subst.
    + pose proof (patchExistingObject_quiet r fetched) as Hp.
      destruct (patchExistingObject r fetched c cl) as [[[perr ex] cl1] evs].
      simpl in Hp. subst. by destruct perr.
Qed.

Lemma applyResources_quiet step rs b : (applyResources step rs b c cl).1.2 = cl.
Proof.
  revert b. induction rs as [|r rs IH]; intros b; simpl; [done|].
  pose proof (applyResource_quiet step r) as Hr.
  destruct (applyResource step r c cl) as [[o cl1] ev1]. simpl in Hr. subst.
  destruct o as [e| |healthy]; [done| |].
  - specialize (IH b). by destruct (applyResources step rs b c cl) as [[res cl2] ev2].
  - specialize (IH (if healthy then b else false)).
    by destruct (applyResources step rs _ c cl) as [[res cl2] ev2].
Qed.

(** On an unchanged cluster, running a step again from the status the driver
    left gives that status again. *)
Lemma executeStep_rerun step state rs state1 err cl1 evs :
  executeStep step state rs c cl = (state1, err, cl1, evs) →
  cl1 = cl
  ∧ match err with
    | None => ∃ evs', executeStep step state1 rs c cl = (state1, None, cl, evs')
    | Some e =>
        executeStep step (setStepStatus ErrorStatus state1) rs c cl
        = (state1, Some e, cl, evs)
    end.
Proof.
  unfold executeStep. destruct (isInProgress (ssStatus state)) eqn:Hin.
  - pose proof (applyResources_quiet step rs true) as Hq.
    destruct (applyResources step rs true c cl) as [[res cl2] evs2] eqn:Hrun.
    simpl in Hq. rewrite Hq in *. clear Hq cl2.
    destruct res as [e|[]]; intros Heq; injection Heq as <- <- <- <-;
      (split; [done|]); simpl.
    + done.
    + eauto.
    + eauto.
  - intros Heq; injection Heq as <- <- <- <-. split; [done|]. rewrite Hin. eauto.
Qed.

(** On an unchanged cluster, running the loop over the steps again from the
    entries it left gives them again. *)
Lemma executeSteps_rerun ph res steps pst flag pst1 r cl1 evs :
  NoDup (stepName <$> steps) →
  executeSteps ph res steps pst flag c cl = Returned (pst1, r, cl1, evs) →
  cl1 = cl
  ∧ ∃ evs', executeSteps ph res steps (setPhaseStatus (phsStatus pst) pst1) flag c cl
            = Returned (pst1, r, cl, evs').
Proof.
  revert pst flag evs. induction steps as [|st steps IH];
    intros pst flag evs Hnd; simpl.
  - intros Heq; injection Heq as <- <- <- <-. rewrite setPhaseStatus_same. eauto.
  - apply NoDup_cons in Hnd as [Hfresh Hnd].
    destruct (getStepFromStatus (stepName st) pst) as [[j cur]|] eqn:Hj; [|done].
    destruct (executeStep st cur _ c cl) as [[[state1 err] cl2] evs2] eqn:Hex.
    destruct (executeStep_status _ _ _ _ _ _ _ _ _ Hex) as [Hname _].
    pose proof (getStepFromStatus_Some _ _ _ _ Hj) as [Hlook Hcur].
    destruct (executeStep_rerun _ _ _ _ _ _ _ Hex) as [Hcl Hre].
    rewrite Hcl in *. clear Hcl cl2.
    destruct err as [e|].
    { intros Heq; injection Heq as <- <- <- <-. split; [done|].
      erewrite (getStepFromStatus_insert_found _ pst);
        [|exact Hj|done|simpl; congruence].
      rewrite Hre. eexists. do 2 f_equal. simpl.
      rewrite list_insert_insert_eq. done. }
    destruct Hre as [evs' Hre].
    set (pstA := setPhaseSteps (<[j := state1]> (phsSteps pst)) pst).
    assert (getStepFromStatus (stepName st) pstA = Some (j, state1)) as HjA
      by (eapply getStepFromStatus_insert_found; [exact Hj|done|congruence]).
    (* going on with the rest *)
    assert (∀ flag' ev3,
              executeSteps ph res steps pstA flag' c cl = Returned (pst1, r, cl1, ev3) →
              cl1 = cl
              ∧ getStepFromStatus (stepName st) (setPhaseStatus (phsStatus pst) pst1)
                = Some (j, state1)
              ∧ ∃ ev', executeSteps ph res steps (setPhaseStatus (phsStatus pst) pst1)
                         flag' c cl = Returned (pst1, r, cl, ev')) as Hgo.
    { intros flag' ev3 Hrest. destruct (IH _ _ _ Hnd Hrest) as [-> Hrerun].
      split; [done|]. split; [|exact Hrerun].
      change (getStepFromStatus (stepName st) pst1 = Some (j, state1)).
      by rewrite (executeSteps_untouched _ _ _ _ _ _ _ _ _ _ _ _ Hfresh Hrest). }
    destruct (isFinished (ssStatus state1)) eqn:Hfin.
    + destruct (executeSteps ph res steps pstA flag c cl) as [[[[p r'] cl3] ev3]|] eqn:Hrest;
        [|done].
      intros Heq; injection Heq as <- <- <- <-.
      destruct (Hgo _ _ Hrest) as (-> & Hfind & ev' & Hrerun).
      split; [done|]. rewrite Hfind, Hre, Hfin.
      erewrite setPhaseSteps_insert_id;
        [|done|by apply getStepFromStatus_Some in Hfind as [? _]].
      rewrite Hrerun. eauto.
    + destruct (bool_decide (phaseStrategy ph = Serial)) eqn:Hser.
      * intros Heq; injection Heq as <- <- <- <-. split; [done|].
        assert (setPhaseStatus (phsStatus pst) pstA = pstA) as -> by reflexivity.
        rewrite HjA, Hre, Hfin.
        erewrite setPhaseSteps_insert_id;
          [|done|by apply getStepFromStatus_Some in HjA as [? _]].
        eauto.
      * destruct (executeSteps ph res steps pstA false c cl)
          as [[[[p r'] cl3] ev3]|] eqn:Hrest; [|done].
        intros Heq; injection Heq as <- <- <- <-.
        destruct (Hgo _ _ Hrest) as (-> & Hfind & ev' & Hrerun).
        split; [done|]. rewrite Hfind, Hre, Hfin.
        erewrite setPhaseSteps_insert_id;
          [|done|by apply getStepFromStatus_Some in Hfind as [? _]].
        rewrite Hrerun. eauto.
Qed.

(** On an unchanged cluster, one more iteration for the same phase from the
    status the first left gives that status again. *)
Lemma executePhase_rerun ph res status s1 exit cl1 evs :
  NoDup (stepName <$> phaseSteps ph) →
  executePhase ph res status c cl = Returned (s1, exit, cl1, evs) →
  cl1 = cl ∧ ∃ evs', executePhase ph res s1 c cl = Returned (s1, exit, cl, evs').
Proof.
  intros Hnd. unfold executePhase at 1.
  destruct (getPhaseFromStatus (phaseName ph) status) as [[i cur]|] eqn:Hf; [|done].
  pose proof (getPhaseFromStatus_Some _ _ _ _ Hf) as [Hi Hcur].
  destruct (isFinished (phsStatus cur)) eqn:Hfin.
  { intros Heq; injection Heq as <- <- <- <-. split; [done|].
    unfold executePhase. rewrite Hf, Hfin. eauto. }
  destruct (isInProgress (phsStatus cur)) eqn:Hin.
  2:{ intros Heq; injection Heq as <- <- <- <-. split; [done|].
      unfold executePhase. rewrite Hf, Hfin, Hin. eauto. }
  destruct (executeSteps ph _ _ _ true c cl) as [[[[pst1 r] cl2] ev2]|] eqn:Hrun;
    [|done].
  destruct (executeSteps_names _ _ _ _ _ _ _ _ _ _ _ Hrun) as [Hn _].
  destruct (executeSteps_rerun _ _ _ _ _ _ _ _ _ Hnd Hrun) as [-> [ev' Hre]].
  simpl in Hre.
  assert (∀ p, phsName p = phsName cur →
               getPhaseFromStatus (phaseName ph)
                 (setPlanPhases (<[i := p]> (plsPhases status))
                    (setPlanStatus ExecutionInProgress status)) = Some (i, p)) as Hfind.
  { intros p Hp. unfold getPhaseFromStatus. simpl.
    eapply list_find_insert_found; [exact Hf|congruence]. }
  assert (∀ p, setPlanPhases
                 (<[i := p]> (<[i := p]> (plsPhases status)))
                 (setPlanStatus ExecutionInProgress
                    (setPlanPhases (<[i := p]> (plsPhases status))
                       (setPlanStatus ExecutionInProgress status)))
               = setPlanPhases (<[i := p]> (plsPhases status))
                   (setPlanStatus ExecutionInProgress status)) as Hwrite.
  { intros p. unfold setPlanPhases, setPlanStatus. simpl.
    by rewrite list_insert_insert_eq. }
  destruct r as [e|b].
  - intros Heq; injection Heq as <- <- <- <-. split; [done|].
    destruct (executeSteps_error _ _ _ _ _ _ _ _ _ _ _ Hrun) as [Hp _].
    unfold executePhase. rewrite (Hfind pst1 Hn), Hp. simpl.
    rewrite Hre, Hwrite. eauto.
  - pose proof (executeSteps_phase_status _ _ _ _ _ _ _ _ _ _ _ Hrun) as Hp.
    simpl in Hp. destruct b.
    + intros Heq; injection Heq as <- <- <- <-. split; [done|].
      unfold executePhase.
      rewrite (Hfind (setPhaseStatus ExecutionComplete pst1) Hn). simpl. eauto.
    + intros Heq; injection Heq as <- <- <- <-. split; [done|].
      unfold executePhase. rewrite (Hfind pst1 Hn), Hp. simpl.
      rewrite Hre. simpl. rewrite Hp, Hwrite. simpl. eauto.
Qed.

(** On an unchanged cluster, the loop over the phases run again from the
    status it left gives that status again. *)
Lemma executePhases_rerun phases res status s1 r cl1 evs :
  Forall (λ ph, NoDup (stepName <$> phaseSteps ph)) phases →
  executePhases phases res status c cl = Returned (s1, r, cl1, evs) →
  cl1 = cl ∧ ∃ evs', executePhases phases res s1 c cl = Returned (s1, r, cl, evs').
Proof.
  revert status evs. induction phases as [|ph phases IH];
    intros status evs Hnd; simpl.
  - intros Heq; injection Heq as <- <- <- <-. eauto.
  - apply Forall_cons in Hnd as [Hph Hnd].
    destruct (executePhase ph res status c cl) as [[[[s2 exit] cl2] ev2]|] eqn:Hrun;
      [|done].
    destruct (executePhase_rerun _ _ _ _ _ _ _ Hph Hrun) as [-> [ev' Hre]].
    destruct exit as [| |e].
    + destruct (executePhases phases res s2 c cl) as [[[[s3 r'] cl3] ev3]|] eqn:Hrest;
        [|done].
      intros Heq; injection Heq as <- <- <- <-.
      destruct (IH _ _ Hnd Hrest) as [-> [ev'' Hrerun]]. split; [done|].
      destruct (executePhase_continue _ _ _ _ _ _ _ _ Hrun) as (i & p & Hf & Hp).
      pose proof (executePhases_keeps_complete _ _ _ _ _ _ _ _ _ _ _ _ Hf Hp Hrest) as Hf3.
      rewrite (executePhase_complete_noop _ _ _ _ _ _ _ Hf3 Hp), Hrerun. eauto.
    + intros Heq; injection Heq as <- <- <- <-. split; [done|]. rewrite Hre. eauto.
    + intros Heq; injection Heq as <- <- <- <-. split; [done|]. rewrite Hre. eauto.
Qed.

End Idempotence.

(** ** The conventions of the kustomize enhancer *)

Lemma append_assoc (a b c : string) : (a +:+ b) +:+ c = a +:+ b +:+ c.
Proof.
  induction a as [|x a IH]; [done|].
  change (String x ((a +:+ b) +:+ c) = String x (a +:+ b +:+ c)). by f_equal.
Qed.

Lemma kustomizationOf_labels names md :
  CommonLabels (kustomizationOf names md) !! "heritage" = Some "kudo"
  ∧ CommonLabels (kustomizationOf names md) !! "operator" = Some (OperatorName md)
  ∧ CommonLabels (kustomizationOf names md) !! "instance" = Some (InstanceName md).
Proof.
  unfold kustomizationOf, HeritageLabel, OperatorLabel, InstanceLabel. simpl.
  split_and!; by simplify_map_eq.
Qed.

Lemma kustomizationOf_annotations names md :
  CommonAnnotations (kustomizationOf names md) !! "plan" = Some (PlanName md)
  ∧ CommonAnnotations (kustomizationOf names md) !! "phase" = Some (PhaseName md)
  ∧ CommonAnnotations (kustomizationOf names md) !! "step" = Some (StepName md)
  ∧ CommonAnnotations (kustomizationOf names md) !! "operatorVersion"
    = Some (OperatorVersion md).
Proof.
  unfold kustomizationOf, PlanAnnotation, PhaseAnnotation, StepAnnotation,
    OperatorVersionAnnotation. simpl.
  split_and!; by simplify_map_eq.
Qed.

Lemma SetControllerReference_keeps owner o o1 :
  SetControllerReference owner o = inr o1 →
  objName o1 = objName o ∧ objNamespace o1 = objNamespace o
  ∧ objLabels o1 = objLabels o ∧ objAnnotations o1 = objAnnotations o
  ∧ mkOwnerReference (ownerKind owner) (ownerName owner) true ∈ objOwnerReferences o1.
Proof.
  unfold SetControllerReference. destruct (existsb _ _); [done|].
  intros; simplify_eq. simpl. split_and!; try done.
  apply elem_of_app. right. apply list_elem_of_singleton. done.
Qed.

Section KustomizeConventions.

Variable parseDocuments : string → error + list Object.

Lemma setControllerReferences_Forall owner (P : Object → Prop) objs objs1 :
  (∀ o o1, o ∈ objs → SetControllerReference owner o = inr o1 → P o1) →
  setControllerReferences owner objs = inr objs1 →
  Forall P objs1.
Proof.
  revert objs1. induction objs as [|o objs IH]; intros objs1 HP; simpl.
  - intros; simplify_eq. constructor.
  - destruct (SetControllerReference owner o) as [e|o1] eqn:Ho; [done|].
    destruct (setControllerReferences owner objs) as [e|rest] eqn:Hrest; [done|].
    intros; simplify_eq. constructor.
    + eapply HP; [left|done].
    + apply IH; [|done]. intros o' o1' Hin. apply HP. by right.
Qed.

(** C7. Every object the kustomize enhancer emits carries the labels
    heritage, operator and instance, the annotations plan, phase, step and
    operatorVersion with the values of the metadata, a name that begins with
    the instance name and a dash, the namespace of the instance, and a
    controller owner reference to the owner it was given. *)
Theorem applyConventionsToTemplates_conventions templates md owner objs :
  applyConventionsToTemplates (kustomizeEnhancer parseDocuments) templates md owner
  = inr objs →
  Forall (carriesConventions md owner) objs.
Proof.
  simpl. unfold kustomizeEnhancer_applyConventionsToTemplates, MakeCustomizedResMap.
  rewrite lookup_insert_eq.
  set (names := (map_to_list templates).*1).
  destruct (loadResources _ _ _) as [e|loaded]; [done|].
  apply setControllerReferences_Forall.
  intros o o1 (o0 & -> & _)%list_elem_of_fmap Hset.
  destruct (SetControllerReference_keeps _ _ _ Hset) as (Hn & Hns & Hl & Ha & Href).
  destruct (kustomizationOf_labels names md) as (L1 & L2 & L3).
  destruct (kustomizationOf_annotations names md) as (A1 & A2 & A3 & A4).
  unfold carriesConventions. rewrite Hn, Hns, Hl, Ha. simpl.
  split_and!; try (apply lookup_union_Some_l; assumption); try done.
  exists (objName o0). apply append_assoc.
Qed.

End KustomizeConventions.

(** ** What an error of the cluster leaves *)

Section ClusterAnswers.

Context {Cluster : Type} {libs : Libraries} {oracle : HealthOracle Cluster}.

(** One iteration of the loop over the phases on an entry that is not
    Complete: it stops at once on an entry that is not in progress, and else
    writes back what the loop over the steps made of the entry. *)
Lemma executePhase_run ph res status (c : Client Cluster) cl s1 exit cl1 evs i cur :
  getPhaseFromStatus (phaseName ph) status = Some (i, cur) →
  phsStatus cur ≠ ExecutionComplete →
  executePhase ph res status c cl = Returned (s1, exit, cl1, evs) →
  (isInProgress (phsStatus cur) = false
   ∧ s1 = status ∧ exit = PhaseBreak ∧ cl1 = cl ∧ evs = [])
  ∨ ∃ pst1 r p,
      executeSteps ph (default ∅ (res !! phaseName ph)) (phaseSteps ph)
        (setPhaseStatus ExecutionInProgress cur) true c cl
      = Returned (pst1, r, cl1, evs)
      ∧ getPhaseFromStatus (phaseName ph) s1 = Some (i, p)
      ∧ phsSteps p = phsSteps pst1
      ∧ phsStatus p = match r with
                      | inr true => ExecutionComplete
                      | inr false => ExecutionInProgress
                      | inl _ => ErrorStatus
                      end
      ∧ exit = match r with
               | inr true => PhaseContinue
               | inr false => PhaseBreak
               | inl e => PhaseReturn e
               end
      ∧ plsStatus s1 = ExecutionInProgress.
Proof.
  intros Hf Hcur. unfold executePhase. rewrite Hf.
  apply isFinished_false in Hcur. rewrite Hcur.
  destruct (isInProgress (phsStatus cur)); [|intros; simplify_eq; by left].
  destruct (executeSteps ph _ _ _ true c cl) as [[[[pst1 r] cl2] ev2]|] eqn:Hrun;
    [|done].
  destruct (executeSteps_names _ _ _ _ _ _ _ _ _ _ _ Hrun) as [Hn _].
  pose proof (getPhaseFromStatus_Some _ _ _ _ Hf) as [_ Hname]. simpl in Hn.
  intros Heq. right. exists pst1, r.
  destruct r as [e|b].
  - simplify_eq. exists pst1. split; [done|]. split.
    { unfold getPhaseFromStatus. simpl.
      eapply list_find_insert_found; [exact Hf|congruence]. }
    split; [done|]. split; [|done].
    by apply executeSteps_error in Hrun as [? _].
  - pose proof (executeSteps_phase_status _ _ _ _ _ _ _ _ _ _ _ Hrun) as Hst.
    simpl in Hst. destruct b; simpl in Heq; [|rewrite Hst in Heq; simpl in Heq];
      simplify_eq; eexists; (split; [done|]);
      (split;
       [unfold getPhaseFromStatus; simpl;
        eapply list_find_insert_found; [exact Hf|simpl; congruence]
       |done]).
Qed.

(** A step that is Complete stays Complete through the loop over the phases. *)
Lemma executePhase_keeps_complete_step ph res status (c : Client Cluster) cl
    s1 exit cl1 evs n m :
  executePhase ph res status c cl = Returned (s1, exit, cl1, evs) →
  stepStatusOf n m status = Some ExecutionComplete →
  stepStatusOf n m s1 = Some ExecutionComplete.
Proof.
  intros Hrun. destruct (decide (n = phaseName ph)) as [->|Hne].
  2:{ unfold stepStatusOf. by rewrite (executePhase_untouched _ _ _ _ _ _ _ _ _ _ Hne Hrun). }
  unfold stepStatusOf.
  destruct (getPhaseFromStatus (phaseName ph) status) as [[i cur]|] eqn:Hf; [|done].
  simpl. intros Hm.
  destruct (decide (phsStatus cur = ExecutionComplete)) as [Hc|Hc].
  { rewrite (executePhase_complete_noop _ _ _ _ _ _ _ Hf Hc) in Hrun.
    simplify_eq. by rewrite Hf. }
  destruct (executePhase_run _ _ _ _ _ _ _ _ _ _ _ Hf Hc Hrun)
    as [(_ & -> & _)|(pst1 & r & p & Hsteps & Hp & Hps & _)].
  { by rewrite Hf. }
  rewrite Hp. simpl.
  eapply executeSteps_keeps_complete in Hsteps; [|exact Hm].
  unfold stepStatusIn, getStepFromStatus in *. by rewrite Hps.
Qed.

Lemma executePhases_keeps_complete_step phases res status (c : Client Cluster) cl
    s1 r cl1 evs n m :
  executePhases phases res status c cl = Returned (s1, r, cl1, evs) →
  stepStatusOf n m status = Some ExecutionComplete →
  stepStatusOf n m s1 = Some ExecutionComplete.
Proof.
  revert status cl evs. induction phases as [|ph phases IH];
    intros status cl evs; simpl.
  - intros; by simplify_eq.
  - destruct (executePhase ph res status c cl) as [[[[s2 exit] cl2] ev2]|] eqn:Hph;
      [|done].
    intros Heq Hm.
    pose proof (executePhase_keeps_complete_step _ _ _ _ _ _ _ _ _ _ _ Hph Hm) as Hm2.
    destruct exit as [| |e]; [|by simplify_eq..].
    destruct (executePhases phases res s2 c cl2) as [[[[s3 r'] cl3] ev3]|] eqn:Hrest;
      [|done].
    simplify_eq. by eapply IH.
Qed.

(** *** No status is set to ExecutionFatalError by the loops *)

Lemma stepsNoNewFatal_refl pst : stepsNoNewFatal pst pst.
Proof. intros k s' Hk. by exists s'. Qed.

Lemma stepsNoNewFatal_trans p1 p2 p3 :
  stepsNoNewFatal p1 p2 → stepsNoNewFatal p2 p3 → stepsNoNewFatal p1 p3.
Proof.
  intros H12 H23 k s3 Hk. destruct (H23 k s3 Hk) as (s2 & Hk2 & H2).
  destruct (H12 k s2 Hk2) as (s1 & Hk1 & H1). exists s1. split; [done|]. auto.
Qed.

Lemma stepsNoNewFatal_insert pst pst' j cur new :
  phsSteps pst !! j = Some cur →
  phsSteps pst' = <[j := new]> (phsSteps pst) →
  (ssStatus new = ExecutionFatalError → ssStatus cur = ExecutionFatalError) →
  stepsNoNewFatal pst pst'.
Proof.
  intros Hj Hs Hnew k s'. rewrite Hs.
  intros [(-> & <- & _)|[_ Hk]]%list_lookup_insert_Some; [by exists cur|by exists s'].
Qed.

Lemma executeStep_no_new_fatal step state rs (c : Client Cluster) cl state1 err cl1 evs :
  executeStep step state rs c cl = (state1, err, cl1, evs) →
  ssStatus state1 = ExecutionFatalError → ssStatus state = ExecutionFatalError.
Proof.
  unfold executeStep. destruct (isInProgress _).
  - destruct (applyResources _ _ _ _ _) as [[[e|[]] cl2] evs2]; intros; by simplify_eq.
  - intros; by simplify_eq.
Qed.

Lemma executeSteps_no_new_fatal ph res steps pst flag (c : Client Cluster) cl
    pst1 r cl1 evs :
  executeSteps ph res steps pst flag c cl = Returned (pst1, r, cl1, evs) →
  stepsNoNewFatal pst pst1.
Proof.
  revert pst flag cl evs. induction steps as [|st steps IH];
    intros pst flag cl evs; simpl.
  { intros; simplify_eq. apply stepsNoNewFatal_refl. }
  destruct (getStepFromStatus (stepName st) pst) as [[j cur]|] eqn:Hj; [|done].
  destruct (executeStep st cur _ c cl) as [[[state1 err] cl2] evs2] eqn:Hex.
  pose proof (executeStep_no_new_fatal _ _ _ _ _ _ _ _ _ Hex) as Hnf.
  pose proof (getStepFromStatus_Some _ _ _ _ Hj) as [Hlook _].
  assert (stepsNoNewFatal pst
            (setPhaseSteps (<[j := state1]> (phsSteps pst)) pst)) as Hstep.
  { by eapply stepsNoNewFatal_insert. }
  destruct err as [e|].
  { intros; simplify_eq. by eapply (stepsNoNewFatal_insert pst _ j cur). }
  destruct (isFinished (ssStatus state1)).
  - destruct (executeSteps ph res steps _ flag c cl2) as [[[[p r'] cl3] ev3]|] eqn:Hrest;
      [|done].
    intros; simplify_eq. eapply stepsNoNewFatal_trans; [exact Hstep|by eapply IH].
  - destruct (bool_decide (phaseStrategy ph = Serial)); [intros; by simplify_eq|].
    destruct (executeSteps ph res steps _ false c cl2) as [[[[p r'] cl3] ev3]|] eqn:Hrest;
      [|done].
    intros; simplify_eq. eapply stepsNoNewFatal_trans; [exact Hstep|by eapply IH].
Qed.

Lemma noNewFatal_refl status : noNewFatal status status.
Proof.
  split; [done|]. intros i p' Hi. exists p'. split; [done|]. split; [done|].
  apply stepsNoNewFatal_refl.
Qed.

Lemma noNewFatal_trans s1 s2 s3 :
  noNewFatal s1 s2 → noNewFatal s2 s3 → noNewFatal s1 s3.
Proof.
  intros [Ht12 H12] [Ht23 H23]. split; [auto|].
  intros i p3 Hi. destruct (H23 i p3 Hi) as (p2 & Hi2 & Hp23 & Hs23).
  destruct (H12 i p2 Hi2) as (p1 & Hi1 & Hp12 & Hs12).
  exists p1. split; [done|]. split; [auto|]. by eapply stepsNoNewFatal_trans.
Qed.

Lemma noNewFatal_setPlanStatus s status :
  s ≠ ExecutionFatalError → noNewFatal status (setPlanStatus s status).
Proof.
  intros Hs. split; [done|]. intros i p' Hi. exists p'. split; [done|].
  split; [done|]. apply stepsNoNewFatal_refl.
Qed.

Lemma executePhase_no_new_fatal ph res status (c : Client Cluster) cl s1 exit cl1 evs :
  executePhase ph res status c cl = Returned (s1, exit, cl1, evs) →
  noNewFatal status s1.
Proof.
  intros Hrun.
  destruct (getPhaseFromStatus (phaseName ph) status) as [[i cur]|] eqn:Hf.
  2:{ unfold executePhase in Hrun. by rewrite Hf in Hrun. }
  destruct (decide (phsStatus cur = ExecutionComplete)) as [Hc|Hc].
  { rewrite (executePhase_complete_noop _ _ _ _ _ _ _ Hf Hc) in Hrun.
    simplify_eq. apply noNewFatal_refl. }
  pose proof Hrun as Hw.
  apply executePhase_writes in Hw as [->|(i' & cur' & p & Hf' & _ & _ & ->)];
    [apply noNewFatal_refl|].
  rewrite Hf in Hf'. simplify_eq.
  destruct (executePhase_run _ _ _ _ _ _ _ _ _ _ _ Hf Hc Hrun)
    as [(_ & Heq & _)|(pst1 & r & p' & Hsteps & Hp & Hps & Hst & _)].
  { rewrite Heq. apply noNewFatal_refl. }
  apply getPhaseFromStatus_Some in Hp as [Hi' _]. simpl in Hi'.
  pose proof (getPhaseFromStatus_Some _ _ _ _ Hf) as [Hi _].
  rewrite list_lookup_insert_eq in Hi' by (by eapply lookup_lt_Some).
  simplify_eq. split; [done|]. simpl.
  intros k q [(-> & <- & _)|[_ Hk]]%list_lookup_insert_Some.
  - exists cur'. split; [done|]. split.
    + rewrite Hst. by destruct r as [e|[]].
    + apply executeSteps_no_new_fatal in Hsteps.
      intros m s' Hm. rewrite Hps in Hm. apply (Hsteps m s' Hm).
  - exists q. split; [done|]. split; [done|]. apply stepsNoNewFatal_refl.
Qed.

Lemma executePhases_no_new_fatal phases res status (c : Client Cluster) cl
    s1 r cl1 evs :
  executePhases phases res status c cl = Returned (s1, r, cl1, evs) →
  noNewFatal status s1.
Proof.
  revert status cl evs. induction phases as [|ph phases IH];
    intros status cl evs; simpl.
  { intros; simplify_eq. apply noNewFatal_refl. }
  destruct (executePhase ph res status c cl) as [[[[s2 exit] cl2] ev2]|] eqn:Hph;
    [|done].
  apply executePhase_no_new_fatal in Hph.
  destruct exit as [| |e]; [|intros; by simplify_eq..].
  destruct (executePhases phases res s2 c cl2) as [[[[s3 r'] cl3] ev3]|] eqn:Hrest;
    [|done].
  intros; simplify_eq. eapply noNewFatal_trans; [exact Hph|by eapply IH].
Qed.

(** *** The error of a step is the answer to its last call *)

Lemma patchExistingObject_answered newResource existing (c : Client Cluster) cl
    e ex cl1 evs :
  patchExistingObject newResource existing c cl = (Some e, ex, cl1, evs) →
  ∃ call cl', last evs = Some call ∧ answers c call cl' e cl1.
Proof.
  unfold patchExistingObject.
  destruct (clPatch c cl existing _ _) as [[e1|o] cl2] eqn:H1; [|done].
  destruct (IsUnsupportedMediaType e1).
  - destruct (clPatch c cl2 newResource _ _) as [[e2|o2] cl3] eqn:H2; [|done].
    intros Heq. injection Heq as <- <- <- <-.
    eexists _, cl2. split; [done|]. exact H2.
  - intros Heq. injection Heq as <- <- <- <-.
    eexists _, cl. split; [done|]. exact H1.
Qed.

Lemma applyResource_answered step r (c : Client Cluster) cl e cl1 evs :
  applyResource step r c cl = (Failed e, cl1, evs) →
  ∃ call cl', last evs = Some call ∧ answers c call cl' e cl1.
Proof.
  unfold applyResource. destruct (stepDelete step).
  - destruct (clDelete c cl r) as [[e1|] cl2] eqn:Hd; [|done].
    destruct (IsNotFound e1); [done|]. intros Heq; injection Heq as <- <- <-.
    eexists _, cl. split; [done|]. exact Hd.
  - destruct (clGet c cl _ r) as [e1|fetched] eqn:Hg.
    + destruct (IsNotFound e1).
      * destruct (clCreate c cl r) as [[e2|] cl2] eqn:Hc; [|done].
        intros Heq; injection Heq as <- <- <-.
        eexists _, cl. split; [done|]. exact Hc.
      * intros Heq; injection Heq as <- <- <-.
        eexists _, cl. split; [done|]. by exists r.
    + destruct (patchExistingObject r fetched c cl) as [[[perr ex] cl2] evs2] eqn:Hp.
      destruct perr as [e1|]; [|done]. intros Heq; injection Heq as <- <- <-.
      destruct (patchExistingObject_answered _ _ _ _ _ _ _ _ Hp)
        as (call & cl' & Hlast & Hans).
      exists call, cl'. split; [|done].
      destruct evs2 as [|ev evs2]; [done|]. done.
Qed.

Lemma last_app_Some {A : Type} (l1 l2 : list A) x :
  last l2 = Some x → last (l1 ++ l2) = Some x.
Proof. intros H. by rewrite last_app, H. Qed.

Lemma applyResources_answered step rs b (c : Client Cluster) cl e cl1 evs :
  applyResources step rs b c cl = (inl e, cl1, evs) →
  ∃ call cl', last evs = Some call ∧ answers c call cl' e cl1.
Proof.
  revert b cl evs. induction rs as [|r rs IH]; intros b cl evs; simpl; [done|].
  destruct (applyResource step r c cl) as [[o cl2] ev1] eqn:Hr.
  destruct o as [e1| |healthy].
  - intros Heq; injection Heq as <- <- <-. by eapply applyResource_answered.
  - destruct (applyResources step rs b c cl2) as [[res cl3] ev2] eqn:Hrest.
    intros Heq; injection Heq as -> <- <-.
    destruct (IH _ _ _ Hrest) as (call & cl' & Hlast & Hans).
    exists call, cl'. split; [by apply last_app_Some|done].
  - destruct (applyResources step rs _ c cl2) as [[res cl3] ev2] eqn:Hrest.
    intros Heq; injection Heq as -> <- <-.
    destruct (IH _ _ _ Hrest) as (call & cl' & Hlast & Hans).
    exists call, cl'. split; [by apply last_app_Some|done].
Qed.

Lemma executeStep_answered step state rs (c : Client Cluster) cl state1 e cl1 evs :
  executeStep step state rs c cl = (state1, Some e, cl1, evs) →
  ∃ call cl', last evs = Some call ∧ answers c call cl' e cl1.
Proof.
  unfold executeStep. destruct (isInProgress _); [|done].
  destruct (applyResources step rs true c cl) as [[[e1|[]] cl2] evs2] eqn:Hr;
    [|done..].
  intros Heq; injection Heq as <- <- <- <-. by eapply applyResources_answered.
Qed.

(** *** The step that fails *)

(** A run of the loop over the steps that ends with an error ends in the
    execution of a step that returns that error: the calls of that execution
    are the last of the run, and the step and the phase are left at
    ErrorStatus. *)
Lemma executeSteps_failing_step ph res steps pst flag (c : Client Cluster) cl
    pst1 e cl1 evs :
  executeSteps ph res steps pst flag c cl = Returned (pst1, inl e, cl1, evs) →
  phsStatus pst1 = ErrorStatus
  ∧ ∃ st pre evs0 cur cl0 state1,
      st ∈ steps
      ∧ evs = pre ++ EvExecutingStep (stepName st) :: evs0
      ∧ executeStep st cur (default [] (res !! stepName st)) c cl0
        = (state1, Some e, cl1, evs0)
      ∧ stepStatusIn (stepName st) pst1 = Some ErrorStatus.
Proof.
  revert pst flag cl evs. induction steps as [|st steps IH];
    intros pst flag cl evs; simpl; [done|].
  destruct (getStepFromStatus (stepName st) pst) as [[j cur]|] eqn:Hj; [|done].
  destruct (executeStep st cur _ c cl) as [[[state1 err] cl2] evs2] eqn:Hex.
  destruct (executeStep_status _ _ _ _ _ _ _ _ _ Hex) as [Hname _].
  pose proof (getStepFromStatus_Some _ _ _ _ Hj) as [_ Hcur].
  assert (∀ flag' ev3,
            executeSteps ph res steps
              (setPhaseSteps (<[j := state1]> (phsSteps pst)) pst) flag' c cl2
            = Returned (pst1, inl e, cl1, ev3) →
            phsStatus pst1 = ErrorStatus
            ∧ ∃ st' pre evs0 cur' cl0 state1',
                st' ∈ st :: steps
                ∧ (EvExecutingStep (stepName st) :: evs2) ++ ev3
                  = pre ++ EvExecutingStep (stepName st') :: evs0
                ∧ executeStep st' cur' (default [] (res !! stepName st')) c cl0
                  = (state1', Some e, cl1, evs0)
                ∧ stepStatusIn (stepName st') pst1 = Some ErrorStatus) as Hgo.
  { intros flag' ev3 Hrest.
    destruct (IH _ _ _ _ Hrest)
      as (Hp & st' & pre & evs0 & cur' & cl0 & state1' & Hin & Hev & Hx & Hs).
    split; [done|].
    exists st', ((EvExecutingStep (stepName st) :: evs2) ++ pre), evs0, cur', cl0, state1'.
    split; [by right|]. split; [by rewrite Hev, <- app_assoc|done]. }
  destruct err as [e'|].
  { intros; simplify_eq. split; [done|].
    exists st, [], evs2, cur, cl, state1. split; [left|]. split; [done|].
    split; [done|].
    change (Some ErrorStatus)
      with (Some (ssStatus (setStepStatus ErrorStatus state1))).
    eapply (stepStatusIn_insert_same _ pst); [exact Hj|done|simpl; congruence]. }
  destruct (isFinished (ssStatus state1)).
  - destruct (executeSteps ph res steps _ flag c cl2) as [[[[p r'] cl3] ev3]|] eqn:Hrest;
      [|done].
    intros; simplify_eq. by eapply Hgo.
  - destruct (bool_decide (phaseStrategy ph = Serial)); [done|].
    destruct (executeSteps ph res steps _ false c cl2) as [[[[p r'] cl3] ev3]|] eqn:Hrest;
      [|done].
    intros; simplify_eq. by eapply Hgo.
Qed.

Lemma executePhases_failing_step phases res status (c : Client Cluster) cl
    s1 e cl1 evs :
  executePhases phases res status c cl = Returned (s1, inl e, cl1, evs) →
  plsStatus s1 = ExecutionInProgress
  ∧ ∃ ph st pre evs0 cur cl0 state1,
      ph ∈ phases ∧ st ∈ phaseSteps ph
      ∧ evs = pre ++ EvExecutingStep (stepName st) :: evs0
      ∧ executeStep st cur
          (default [] (default ∅ (res !! phaseName ph) !! stepName st)) c cl0
        = (state1, Some e, cl1, evs0)
      ∧ phaseStatusOf (phaseName ph) s1 = Some ErrorStatus
      ∧ stepStatusOf (phaseName ph) (stepName st) s1 = Some ErrorStatus.
Proof.
  revert status cl evs. induction phases as [|ph phases IH];
    intros status cl evs; simpl; [done|].
  destruct (executePhase ph res status c cl) as [[[[s2 exit] cl2] ev2]|] eqn:Hph;
    [|done].
  destruct exit as [| |e'].
  - destruct (executePhases phases res s2 c cl2) as [[[[s3 r] cl3] ev3]|] eqn:Hrest;
      [|done].
    intros; simplify_eq.
    destruct (IH _ _ _ Hrest)
      as (Hs & ph' & st & pre & evs0 & cur & cl0 & state1 & Hin & Hst & Hev & Hx & Hp).
    split; [done|]. exists ph', st, (ev2 ++ pre), evs0, cur, cl0, state1.
    split; [by right|]. split; [done|]. split; [by rewrite Hev, <- app_assoc|done].
  - done.
  - intros; simplify_eq.
    destruct (getPhaseFromStatus (phaseName ph) status) as [[i cur]|] eqn:Hf.
    2:{ unfold executePhase in Hph. by rewrite Hf in Hph. }
    assert (phsStatus cur ≠ ExecutionComplete) as Hc.
    { intros Hc. rewrite (executePhase_complete_noop _ _ _ _ _ _ _ Hf Hc) in Hph.
      by simplify_eq. }
    destruct (executePhase_run _ _ _ _ _ _ _ _ _ _ _ Hf Hc Hph)
      as [(_ & _ & ? & _)|(pst1 & r & p & Hsteps & Hp & Hps & Hst & Hexit & Hs1)];
      [done|].
    destruct r as [e'|[]]; simplify_eq.
    destruct (executeSteps_failing_step _ _ _ _ _ _ _ _ _ _ _ Hsteps)
      as (Hp1 & st & pre & evs0 & cur0 & cl0 & state1 & Hin & Hev & Hx & Hs).
    split; [done|].
    exists ph, st, pre, evs0, cur0, cl0, state1.
    split; [left|]. split; [done|]. split; [done|]. split; [done|].
    unfold phaseStatusOf, stepStatusOf. rewrite Hp. simpl. split; [by rewrite Hst|].
    unfold stepStatusIn, getStepFromStatus in *. by rewrite Hps.
Qed.

(** C3, as the code has it. On a plan that is not terminal, where the walk of
    the preparation fails first on a resource key missing from the template
    catalog, one tick leaves ExecutionFatalError on the phase status, on the
    step status and on the top-level status, and issues no call to the
    cluster. Where the preparation succeeds and the tick ends with an error,
    that error is the answer of the cluster to the last call of the tick,
    made in the execution of a step of the plan, the last the tick executes,
    which returns it; the tick leaves ErrorStatus on that step and on its
    phase, ExecutionInProgress on the top-level status, and sets no status
    to ExecutionFatalError: the top-level status, a phase or a step at
    ExecutionFatalError after the tick was there before it. *)
Theorem missing_template_fatal_cluster_error_not plan meta (c : Client Cluster)
    renderer h cl status :
  h !! apPlanStatus plan = Some status →
  IsTerminal (plsStatus status) = false →
  statusMatchesSpec (apSpec plan) status = true →
  (∀ phase step,
     firstFailure MissingTemplate plan meta renderer phase step →
     ∃ t final,
       executePlan plan meta c renderer h cl = Returned t
       ∧ tickHeap t !! apPlanStatus plan = Some final
       ∧ plsStatus final = ExecutionFatalError
       ∧ phaseStatusOf (phaseName phase) final = Some ExecutionFatalError
       ∧ stepStatusOf (phaseName phase) (stepName step) final = Some ExecutionFatalError
       ∧ tickEvents t = []
       ∧ tickCluster t = cl)
  ∧ (∀ status1 resources t e,
       prepareKubeResources plan meta renderer status = Returned (status1, inr resources) →
       executePlan plan meta c renderer h cl = Returned t →
       tickErr t = Some e →
       ∃ final phase step,
         tickHeap t !! apPlanStatus plan = Some final
         ∧ plsStatus final = ExecutionInProgress
         ∧ phase ∈ planPhases (apSpec plan)
         ∧ step ∈ phaseSteps phase
         ∧ phaseStatusOf (phaseName phase) final = Some ErrorStatus
         ∧ stepStatusOf (phaseName phase) (stepName step) final = Some ErrorStatus
         ∧ (∃ pre evs0 cur cl0 state1,
              tickEvents t = pre ++ EvExecutingStep (stepName step) :: evs0
              ∧ executedSteps evs0 = []
              ∧ executeStep step cur
                  (default [] (default ∅ (resources !! phaseName phase)
                                 !! stepName step)) c cl0
                = (state1, Some e, tickCluster t, evs0))
         ∧ (∃ call cl',
              last (tickEvents t) = Some call ∧ answers c call cl' e (tickCluster t))
         ∧ noNewFatal status final).
Proof.
  intros Hh Hterm Hent%statusMatchesSpec_hasEntries. split.
  - intros phase step Hfail. by eapply executePlan_missing_template.
  - intros status1 resources t e Hprep. unfold executePlan.
    rewrite Hh, Hterm, Hprep, lookup_insert_eq.
    destruct (prepareKubeResources_returns plan meta renderer status Hent)
      as (status1' & r' & Hprep' & _ & Hsame).
    rewrite Hprep in Hprep'. simplify_eq. rewrite (Hsame _ eq_refl).
    destruct (executePhases _ resources status c cl) as [[[[s1 [e'|b]] cl1] evs]|] eqn:Hrun;
      [|intros; by simplify_eq|done].
    intros Ht He. simplify_eq/=.
    destruct (executePhases_failing_step _ _ _ _ _ _ _ _ _ Hrun)
      as (Hs & ph & st & pre & evs0 & cur & cl0 & state1
          & Hph & Hst & Hev & Hx & Hp1 & Hp2).
    exists s1, ph, st. rewrite lookup_insert_eq.
    split_and!; try done.
    + exists pre, evs0, cur, cl0, state1. split; [done|]. split; [|done].
      pose proof (executeStep_events st cur
                    (default [] (default ∅ (resources !! phaseName ph) !! stepName st))
                    c cl0) as Hno.
      by rewrite Hx in Hno.
    + destruct (executeStep_answered _ _ _ _ _ _ _ _ _ Hx) as (call & cl' & Hl & Ha).
      exists call, cl'. split; [|done]. rewrite Hev.
      apply last_app_Some. by rewrite last_cons, Hl.
    + by eapply executePhases_no_new_fatal.
Qed.

End ClusterAnswers.

Section TwoTicks.

Context {Cluster : Type} {libs : Libraries} {oracle : HealthOracle Cluster}.

(** The second of two ticks, from a status the loop over the phases left and
    that is not terminal. *)
Lemma executePlan_second_tick plan meta (c : Client Cluster) renderer h cl
    status resources w1 r evs :
  quiescent c cl →
  distinctStepNames (apSpec plan) →
  hasEntries (apSpec plan) status →
  prepareKubeResources plan meta renderer status = Returned (status, inr resources) →
  executePhases (planPhases (apSpec plan)) resources status c cl
  = Returned (w1, r, cl, evs) →
  IsTerminal (plsStatus w1) = false →
  (∀ b, r = inr b → b = false) →
  ∃ t2,
    executePlan plan meta c renderer (<[apPlanStatus plan := w1]> h) cl = Returned t2
    ∧ tickHeap t2 = <[apPlanStatus plan := w1]> h
    ∧ tickState t2 = apPlanStatus plan.
Proof.
  intros Hq Hnd Hent Hprep Hrun Hterm Hr.
  destruct (executePhases_returns (planPhases (apSpec plan)) resources status c cl)
    as (w1' & r' & cl' & evs' & Hrun' & Hskel); [by destruct (apSpec plan)|].
  rewrite Hrun in Hrun'. injection Hrun' as <- <- <- <-.
  assert (hasEntries (apSpec plan) w1) as Hent1 by (by eapply hasEntries_skeleton).
  pose proof (prepareKubeResources_success_indep _ _ _ _ _ _ _ Hprep Hent1) as Hprep1.
  destruct (executePhases_rerun c cl Hq _ _ _ _ _ _ _ Hnd Hrun) as [_ [evs2 Hre]].
  unfold executePlan. rewrite lookup_insert_eq, Hterm, Hprep1, lookup_insert_eq, Hre.
  destruct r as [e|b].
  - eexists. split; [done|]. simpl. by rewrite !insert_insert_eq.
  - rewrite (Hr b eq_refl). eexists. split; [done|]. simpl.
    by rewrite !insert_insert_eq.
Qed.

(** Two ticks in a row, whatever the cluster does: both return, and what is
    Complete after the first is Complete after the second. *)
Lemma executePlan_two_ticks plan meta (c : Client Cluster) renderer h cl status :
  h !! apPlanStatus plan = Some status →
  hasEntries (apSpec plan) status →
  ∃ t1 t2 final1 final2,
    executePlan plan meta c renderer h cl = Returned t1
    ∧ tickState t1 = apPlanStatus plan
    ∧ tickHeap t1 !! apPlanStatus plan = Some final1
    ∧ executePlan plan meta c renderer (tickHeap t1) (tickCluster t1) = Returned t2
    ∧ tickState t2 = apPlanStatus plan
    ∧ tickHeap t2 !! apPlanStatus plan = Some final2
    ∧ (plsStatus final1 = ExecutionComplete → plsStatus final2 = ExecutionComplete)
    ∧ (∀ n, phaseStatusOf n final1 = Some ExecutionComplete →
            phaseStatusOf n final2 = Some ExecutionComplete)
    ∧ (∀ n m, stepStatusOf n m final1 = Some ExecutionComplete →
              stepStatusOf n m final2 = Some ExecutionComplete).
Proof.
  intros Hh Hent.
  assert (∀ (h1 : gmap ptr PlanStatus) cl1 final1,
            h1 !! apPlanStatus plan = Some final1 →
            IsTerminal (plsStatus final1) = true →
            executePlan plan meta c renderer h1 cl1
            = Returned (mkTick (apPlanStatus plan) None h1 cl1 [])) as Hnoop.
  { intros h1 cl1 final1 Hh1 Ht. unfold executePlan. by rewrite Hh1, Ht. }
  destruct (IsTerminal (plsStatus status)) eqn:Hterm.
  { exists (mkTick (apPlanStatus plan) None h cl []),
           (mkTick (apPlanStatus plan) None h cl []), status, status.
    rewrite (Hnoop h cl status Hh Hterm). simpl.
    rewrite (Hnoop h cl status Hh Hterm). done. }
  destruct (prepareKubeResources_returns plan meta renderer status Hent)
    as (status1 & r & Hprep & Hskel & Hsame).
  destruct r as [err|resources].
  { rewrite (executePlan_preparation_failure _ _ _ _ _ _ _ _ _ Hh Hterm Hprep).
    eexists _, _, _, _. split; [done|]. simpl. split; [done|].
    split; [apply lookup_insert_eq|].
    erewrite Hnoop; [|apply lookup_insert_eq|done]. simpl.
    split; [done|]. split; [done|]. split; [apply lookup_insert_eq|]. done. }
  rewrite (Hsame _ eq_refl) in Hprep. clear Hsame Hskel status1.
  destruct (executePhases_returns (planPhases (apSpec plan)) resources status c cl)
    as (w1 & r & cl1 & evs & Hrun & Hskel); [by destruct (apSpec plan)|].
  assert (hasEntries (apSpec plan) w1) as Hent1 by (by eapply hasEntries_skeleton).
  pose proof (prepareKubeResources_success_indep _ _ _ _ _ _ _ Hprep Hent1) as Hprep1.
  destruct (executePhases_returns (planPhases (apSpec plan)) resources w1 c cl1)
    as (w2 & r2 & cl2 & evs2 & Hrun2 & _); [by destruct (apSpec plan)|].
  assert (∀ n, phaseStatusOf n w1 = Some ExecutionComplete →
               phaseStatusOf n w2 = Some ExecutionComplete) as Hphases.
  { intros n. unfold phaseStatusOf.
    destruct (getPhaseFromStatus n w1) as [[i p]|] eqn:Hf; [|done]. simpl.
    intros Hp.
    rewrite (executePhases_keeps_complete _ _ _ _ _ _ _ _ _ _ _ _ Hf
               ltac:(congruence) Hrun2).
    simpl. congruence. }
  assert (∀ n m, stepStatusOf n m w1 = Some ExecutionComplete →
                 stepStatusOf n m w2 = Some ExecutionComplete) as Hsteps.
  { intros n m. by eapply executePhases_keeps_complete_step. }
  assert (∀ final1,
            (final1 = w1 ∨ final1 = setPlanStatus ExecutionComplete w1) →
            ∃ t2 final2,
              executePlan plan meta c renderer
                (<[apPlanStatus plan := final1]> (<[apPlanStatus plan := status]> h)) cl1
              = Returned t2
              ∧ tickState t2 = apPlanStatus plan
              ∧ tickHeap t2 !! apPlanStatus plan = Some final2
              ∧ (plsStatus final1 = ExecutionComplete →
                 plsStatus final2 = ExecutionComplete)
              ∧ (∀ n, phaseStatusOf n final1 = Some ExecutionComplete →
                      phaseStatusOf n final2 = Some ExecutionComplete)
              ∧ (∀ n m, stepStatusOf n m final1 = Some ExecutionComplete →
                        stepStatusOf n m final2 = Some ExecutionComplete)) as Hsecond.
  { intros final1 Hfinal1.
    destruct (IsTerminal (plsStatus final1)) eqn:Hterm1.
    { eexists _, final1. erewrite Hnoop; [|apply lookup_insert_eq|done].
      split; [done|]. simpl. split; [done|]. split; [apply lookup_insert_eq|]. done. }
    destruct Hfinal1 as [->| ->]; [|done].
    unfold executePlan.
    rewrite lookup_insert_eq, Hterm1, Hprep1, lookup_insert_eq, Hrun2.
    destruct r2 as [e2|b2]; eexists _, _; (split; [done|]); simpl;
      (split; [done|]); (split; [apply lookup_insert_eq|]).
    - split; [intros Hc; by rewrite Hc in Hterm1|]. done.
    - split; [intros Hc; by rewrite Hc in Hterm1|]. by destruct b2. }
  unfold executePlan at 1. rewrite Hh, Hterm, Hprep, lookup_insert_eq, Hrun.
  destruct r as [e|b].
  - destruct (Hsecond w1) as (t2 & final2 & Ht2 & Hs2 & Hf2 & Hrest); [by left|].
    eexists _, t2, w1, final2. split; [done|]. simpl.
    split; [done|]. split; [apply lookup_insert_eq|]. done.
  - destruct (Hsecond (if b then setPlanStatus ExecutionComplete w1 else w1))
      as (t2 & final2 & Ht2 & Hs2 & Hf2 & Hrest); [destruct b; [by right|by left]|].
    eexists _, t2, _, final2. split; [done|]. simpl.
    split; [done|]. split; [apply lookup_insert_eq|]. done.
Qed.

(** C8, as the code has it. On a status that has exactly one entry for every
    phase and step of the spec, two ticks in a row both return, the second
    run on the status and the cluster the first left, and no top-level,
    phase or step status that is Complete after the first tick is anything
    else after the second, whatever the cluster answers. Where moreover the
    steps of each phase are named differently and no create, patch or
    delete of the client changes the cluster state, so that the first tick
    leaves the cluster as it found it and the second gets the answers the
    first got, the second tick leaves the status the first left: the heaps
    are equal. *)
Theorem executePlan_idempotent plan meta (c : Client Cluster) renderer h cl status :
  h !! apPlanStatus plan = Some status →
  statusMatchesSpec (apSpec plan) status = true →
  (∃ t1 t2,
     executePlan plan meta c renderer h cl = Returned t1
     ∧ executePlan plan meta c renderer (tickHeap t1) (tickCluster t1) = Returned t2
     ∧ tickState t2 = tickState t1
     ∧ ∀ final1 final2 phase step,
         tickHeap t1 !! tickState t1 = Some final1 →
         tickHeap t2 !! tickState t2 = Some final2 →
         (plsStatus final1 = ExecutionComplete → plsStatus final2 = ExecutionComplete)
         ∧ (phaseStatusOf phase final1 = Some ExecutionComplete →
            phaseStatusOf phase final2 = Some ExecutionComplete)
         ∧ (stepStatusOf phase step final1 = Some ExecutionComplete →
            stepStatusOf phase step final2 = Some ExecutionComplete))
  ∧ (distinctStepNames (apSpec plan) →
     quiescent c cl →
     ∃ t1 t2,
       executePlan plan meta c renderer h cl = Returned t1
       ∧ tickCluster t1 = cl
       ∧ executePlan plan meta c renderer (tickHeap t1) (tickCluster t1) = Returned t2
       ∧ tickHeap t2 = tickHeap t1
       ∧ tickState t2 = tickState t1).
Proof.
  intros Hh Hm. apply statusMatchesSpec_hasEntries in Hm as Hent. split.
  { destruct (executePlan_two_ticks plan meta c renderer h cl status Hh Hent)
      as (t1 & t2 & final1 & final2 & H1 & Hs1 & Hf1 & H2 & Hs2 & Hf2 & Htop & Hph & Hst).
    exists t1, t2. split; [done|]. split; [done|]. split; [congruence|].
    intros f1 f2 phase step Hf1' Hf2'. rewrite Hs1, Hf1 in Hf1'. rewrite Hs2, Hf2 in Hf2'.
    simplify_eq. auto. }
  intros Hnd Hq.
  destruct (IsTerminal (plsStatus status)) eqn:Hterm.
  { exists (mkTick (apPlanStatus plan) None h cl []).
    exists (mkTick (apPlanStatus plan) None h cl []).
    unfold executePlan. simpl. by rewrite Hh, Hterm. }
  destruct (prepareKubeResources_returns plan meta renderer status Hent)
    as (status1 & r & Hprep & Hskel & Hsame).
  destruct r as [err|resources].
  { rewrite (executePlan_preparation_failure _ _ _ _ _ _ _ _ _ Hh Hterm Hprep).
    eexists _, _. split; [done|]. split; [done|]. simpl.
    unfold executePlan. rewrite lookup_insert_eq. simpl. done. }
  rewrite (Hsame _ eq_refl) in Hprep. clear Hsame Hskel status1.
  destruct (executePhases_returns (planPhases (apSpec plan)) resources status c cl)
    as (w1 & r & cl1 & evs & Hrun & Hskel); [by destruct (apSpec plan)|].
  destruct (executePhases_rerun c cl Hq _ _ _ _ _ _ _ Hnd Hrun) as [-> _].
  assert (plsStatus w1 = ExecutionInProgress ∨ IsTerminal (plsStatus w1) = false)
    as Hnt.
  { destruct (executePhases_toplevel _ _ _ _ _ _ _ _ _ Hrun) as [->| ->];
      [by right|by left]. }
  assert (IsTerminal (plsStatus w1) = false) as Hterm1
    by (by destruct Hnt as [->|]).
  unfold executePlan at 1. rewrite Hh, Hterm, Hprep, lookup_insert_eq, Hrun.
  destruct r as [e|[]].
  - destruct (executePlan_second_tick plan meta c renderer
                (<[apPlanStatus plan := status]> h) cl status resources w1 (inl e) evs)
      as (t2 & Ht2 & Hheap & Hst); try done.
    eexists _, t2. split; [done|]. split; [done|]. simpl. split; [exact Ht2|done].
  - eexists _, _. split; [done|]. split; [done|]. simpl.
    unfold executePlan. rewrite lookup_insert_eq. simpl. done.
  - destruct (executePlan_second_tick plan meta c renderer
                (<[apPlanStatus plan := status]> h) cl status resources w1 (inr false) evs)
      as (t2 & Ht2 & Hheap & Hst); try done.
    { intros b ?; by simplify_eq. }
    eexists _, t2. split; [done|]. split; [done|]. simpl. split; [exact Ht2|done].
Qed.

End TwoTicks.

(** ** The properties at work on the small world *)

Section Examples.

Import Fixtures.

(** C1 on the code: the task "nothere" of step "one" is not in the task
    catalog. The error returned is not fatal and the phase and the step are
    left at ErrorStatus, yet the top-level status is ExecutionFatalError. *)
Theorem missing_task_marks_plan_fatal :
  let tick := run (planOf Serial "nothere" "up") (heapOf pending) in
  (isFatal <$> errOf tick) = Some false
  ∧ (plsStatus <$> statusAt 0 tick) = Some ExecutionFatalError
  ∧ (statusAt 0 tick ≫= phaseStatusOf "main") = Some ErrorStatus
  ∧ (statusAt 0 tick ≫= stepStatusOf "main" "one") = Some ErrorStatus.
Proof. vm_compute. done. Qed.

(** C9 on the code: the status the caller holds at pointer 0 is Pending
    before the tick; the tick returns that pointer, and the top-level status
    read through it is InProgress afterwards, with the statuses of the phase
    and the steps. *)
Theorem toplevel_write_reaches_input_status :
  let input := heapOf pending in
  let tick := run (planOf Parallel "slow" "up") input in
  (plsStatus <$> input !! 0) = Some ExecutionPending
  ∧ match tick with Returned t => tickState t = 0 | Panicked => False end
  ∧ (plsStatus <$> statusAt 0 tick) = Some ExecutionInProgress
  ∧ (statusAt 0 tick ≫= stepStatusOf "main" "two") = Some ExecutionComplete.
Proof. vm_compute. done. Qed.

(** C2 fails as stated: the task "dangling" of step "one" names the resource
    key "missing.yaml", which is not in the template catalog; the phase and
    the step are set to ExecutionFatalError, not ErrorStatus, and the error
    returned is fatal. *)
Lemma missing_template_is_marked_fatal :
  tasks !! "dangling" = Some (mkTaskSpec ["missing.yaml"])
  ∧ templates !! "missing.yaml" = None
  ∧ ∃ status1 err,
      prepareKubeResources (planOf Serial "dangling" "up") meta enhancer pending
      = Returned (status1, inl err)
      ∧ phaseStatusOf "main" status1 = Some ExecutionFatalError
      ∧ stepStatusOf "main" "one" status1 = Some ExecutionFatalError
      ∧ isFatal err = true.
Proof.
  split; [by vm_compute|]. split; [by vm_compute|].
  eexists _, _. split; [by vm_compute|]. by vm_compute.
Qed.

(** C3 fails as stated: the task "dangling" of step "two" names a resource
    key missing from the template catalog, but the walk fails earlier, on the
    task of step "one"; the phase is left at ErrorStatus and step "two" at
    Pending. *)
Lemma earlier_failure_hides_missing_template :
  let tick := run (planOf Serial "nothere" "dangling") (heapOf pending) in
  tasks !! "dangling" = Some (mkTaskSpec ["missing.yaml"])
  ∧ templates !! "missing.yaml" = None
  ∧ (statusAt 0 tick ≫= phaseStatusOf "main") = Some ErrorStatus
  ∧ (statusAt 0 tick ≫= stepStatusOf "main" "two") = Some ExecutionPending.
Proof. vm_compute. done. Qed.

(** C4 fails as stated: in a Parallel phase the read of the object of step
    "one" fails, and step "two" is not executed in that tick. *)
Lemma parallel_error_skips_later_steps :
  let ph := phaseMain Parallel "broken" "up" in
  let tick := run (planOf Parallel "broken" "up") (heapOf pending) in
  phaseStrategy ph = Parallel
  ∧ stepName <$> phaseSteps ph = ["one"; "two"]
  ∧ executedSteps (eventsOf tick) = ["one"]
  ∧ (statusAt 0 tick ≫= stepStatusOf "main" "one") = Some ErrorStatus
  ∧ (statusAt 0 tick ≫= stepStatusOf "main" "two") = Some ExecutionPending.
Proof. vm_compute. done. Qed.

(** C8 fails as stated. A tick that creates an object checks the health of
    the resource it sent, and the next tick that of the object it reads: on
    a cluster that holds what is created ready, the first tick leaves the
    plan InProgress and the second, run on the cluster the first left and
    with nothing changing it in between, leaves it Complete. And on a
    cluster that no call changes at all, a phase with two steps of one name,
    which share one status entry, is InProgress after the first tick and
    Complete after the second. *)
Lemma back_to_back_ticks_differ :
  match executePlan (planOf Serial "slow" "up") meta admittingClient enhancer
          (heapOf pending) ∅ with
  | Returned t1 =>
      (plsStatus <$> tickHeap t1 !! 0) = Some ExecutionInProgress
      ∧ (plsStatus
           <$> statusAt 0 (executePlan (planOf Serial "slow" "up") meta admittingClient
                             enhancer (tickHeap t1) (tickCluster t1)))
        = Some ExecutionComplete
  | Panicked => False
  end
  ∧ quiescent staticClient tt
  ∧ statusMatchesSpec (apSpec sameNamePlan) sameNamePending = true
  ∧ match runStatic sameNamePlan (heapOf sameNamePending) with
    | Returned t1 =>
        tickCluster t1 = tt
        ∧ (tickHeap t1 !! 0 ≫= phaseStatusOf "main") = Some ExecutionInProgress
        ∧ (statusAt 0 (runStatic sameNamePlan (tickHeap t1)) ≫= phaseStatusOf "main")
          = Some ExecutionComplete
    | Panicked => False
    end.
Proof.
  split; [by vm_compute|]. split.
  { intros r. split; [reflexivity|]. split; [reflexivity|]. intros pt data. reflexivity. }
  split; [reflexivity|]. by vm_compute.
Qed.

Lemma executeStep_complete_iff_witness :
  isInProgress (ssStatus (mkStepStatus "one" ExecutionPending)) = true
  ∧ goesThrough staticClient (mkStep "one" ["slow"] false) [slowObject] tt false tt
  ∧ let step := mkStep "one" ["slow"] false in
    let state := mkStepStatus "one" ExecutionPending in
    let '(state1, err, cl1, _) := executeStep step state [slowObject] staticClient tt in
    (ssStatus state1 = ExecutionComplete
     ↔ goesThrough staticClient step [slowObject] tt true cl1)
    ∧ (∀ cl', goesThrough staticClient step [slowObject] tt true cl' →
              ssStatus state1 = ExecutionComplete ∧ err = None ∧ cl1 = cl')
    ∧ (∀ cl', goesThrough staticClient step [slowObject] tt false cl' →
              ssStatus state1 = ExecutionInProgress ∧ err = None ∧ cl1 = cl')
    ∧ (err = None →
       ∃ healthy, goesThrough staticClient step [slowObject] tt healthy cl1).
Proof.
  split; [reflexivity|]. split.
  - change (goesThrough staticClient (mkStep "one" ["slow"] false) [slowObject] tt
              (bool_decide (IsHealthy tt slowObject = None) && true) tt).
    eapply goesThrough_apply; [reflexivity| |constructor].
    right. exists slowObject. split; [reflexivity|]. left. reflexivity.
  - exact (executeStep_complete_iff (mkStep "one" ["slow"] false)
             (mkStepStatus "one" ExecutionPending) [slowObject] staticClient tt eq_refl).
Defined.

Lemma lookups_succeed_no_panic_witness :
  heapOf pending !! 0 = Some pending
  ∧ statusMatchesSpec (apSpec (planOf Serial "up" "slow")) pending = true
  ∧ (∃ r, prepareKubeResources (planOf Serial "up" "slow") meta enhancer pending
          = Returned r)
  ∧ (∃ t, run (planOf Serial "up" "slow") (heapOf pending) = Returned t).
Proof.
  split; [reflexivity|]. split; [reflexivity|].
  exact (proj2 (lookups_succeed_no_panic (planOf Serial "up" "slow") meta memClient
                  enhancer (heapOf pending) ∅ pending eq_refl eq_refl)).
Defined.

Lemma prepare_lookup_failure_witness :
  firstFailure MissingTask (planOf Serial "nothere" "up") meta enhancer
    (phaseMain Serial "nothere" "up") (mkStep "one" ["nothere"] false)
  ∧ statusMatchesSpec (apSpec (planOf Serial "nothere" "up")) pending = true
  ∧ ∃ status1 err,
      prepareKubeResources (planOf Serial "nothere" "up") meta enhancer pending
      = Returned (status1, inl err)
      ∧ phaseStatusOf "main" status1 = Some ErrorStatus
      ∧ stepStatusOf "main" "one" status1 = Some ErrorStatus
      ∧ errorsAs_executionError err = true
      ∧ isFatal err = false.
Proof.
  assert (firstFailure MissingTask (planOf Serial "nothere" "up") meta enhancer
            (phaseMain Serial "nothere" "up") (mkStep "one" ["nothere"] false)) as H.
  { exists [], [], [], [mkStep "two" ["up"] false].
    split; [reflexivity|]. split; [constructor|]. split; [reflexivity|].
    split; [intros j s Hj; discriminate Hj|].
    exists [], "nothere", [], []. split; [reflexivity|]. split; reflexivity. }
  split; [exact H|]. split; [reflexivity|].
  exact (prepare_lookup_failure (planOf Serial "nothere" "up") meta enhancer pending
           MissingTask _ _ H eq_refl).
Defined.

Lemma missing_template_fatal_cluster_error_not_witness :
  (∃ t final,
     run (planOf Serial "up" "dangling") (heapOf pending) = Returned t
     ∧ tickHeap t !! 0 = Some final
     ∧ plsStatus final = ExecutionFatalError
     ∧ phaseStatusOf "main" final = Some ExecutionFatalError
     ∧ stepStatusOf "main" "two" final = Some ExecutionFatalError
     ∧ tickEvents t = []
     ∧ tickCluster t = ∅)
  ∧ (∃ final phase step e,
       statusAt 0 (run (planOf Parallel "broken" "up") (heapOf pending)) = Some final
       ∧ errOf (run (planOf Parallel "broken" "up") (heapOf pending)) = Some e
       ∧ plsStatus final = ExecutionInProgress
       ∧ phase ∈ planPhases (apSpec (planOf Parallel "broken" "up"))
       ∧ step ∈ phaseSteps phase
       ∧ phaseStatusOf (phaseName phase) final = Some ErrorStatus
       ∧ stepStatusOf (phaseName phase) (stepName step) final = Some ErrorStatus
       ∧ (∃ pre evs0,
            eventsOf (run (planOf Parallel "broken" "up") (heapOf pending))
            = pre ++ EvExecutingStep (stepName step) :: evs0
            ∧ executedSteps evs0 = [])
       ∧ (∃ call cl',
            last (eventsOf (run (planOf Parallel "broken" "up") (heapOf pending)))
            = Some call
            ∧ answers memClient call cl' e ∅)
       ∧ noNewFatal pending final).
Proof.
  split.
  - apply (proj1 (missing_template_fatal_cluster_error_not
                    (planOf Serial "up" "dangling") meta memClient enhancer
                    (heapOf pending) ∅ pending eq_refl eq_refl eq_refl)
             (phaseMain Serial "up" "dangling") (mkStep "two" ["dangling"] false)).
    exists [], [], [mkStep "one" ["up"] false], [].
    split; [reflexivity|]. split; [constructor|]. split; [reflexivity|]. split.
    { intros [|j] s Hj; [|discriminate Hj]. injection Hj as <-.
      eexists. vm_compute. reflexivity. }
    exists [], "dangling", [], []. split; [reflexivity|]. split; [reflexivity|].
    exists (mkTaskSpec ["missing.yaml"]), [], "missing.yaml", [], ∅.
    split; [reflexivity|]. split; [reflexivity|]. split; reflexivity.
  - edestruct (proj2 (missing_template_fatal_cluster_error_not
                        (planOf Parallel "broken" "up") meta memClient enhancer
                        (heapOf pending) ∅ pending eq_refl eq_refl eq_refl))
      as (final & phase & step & H1 & H2 & H3 & H4 & H5 & H6
          & (pre & evs0 & cur & cl0 & state1 & H7 & H8 & _)
          & (call & cl' & H9 & H9') & H10);
      [vm_compute; reflexivity | vm_compute; reflexivity | vm_compute; reflexivity |].
    exists final, phase, step. eexists.
    split; [exact H1|]. split; [reflexivity|].
    split; [exact H2|]. split; [exact H3|]. split; [exact H4|].
    split; [exact H5|]. split; [exact H6|].
    split; [exists pre, evs0; split; [exact H7|exact H8]|].
    split; [exists call, cl'; split; [exact H9|exact H9']|exact H10].
Defined.

Lemma executeSteps_strategy_witness :
  (∃ pst1 r evs,
     executeSteps (phaseMain Serial "slow" "up") slowResources
       (phaseSteps (phaseMain Serial "slow" "up")) mainPending true staticClient tt
     = Returned (pst1, r, tt, evs)
     ∧ ∃ n : nat,
         n ≤ 2
         ∧ executedSteps evs = stepName <$> take n (phaseSteps (phaseMain Serial "slow" "up"))
         ∧ (n < 2 → ∃ st, phaseSteps (phaseMain Serial "slow" "up") !! (n - 1) = Some st
                          ∧ stepStatusIn (stepName st) pst1 ≠ Some ExecutionComplete))
  ∧ (∃ pst1 e evs,
       executeSteps (phaseMain Parallel "broken" "up") brokenResources
         (phaseSteps (phaseMain Parallel "broken" "up")) mainPending true memClient ∅
       = Returned (pst1, inl e, ∅, evs)
       ∧ ∃ n : nat,
           n ≤ 2
           ∧ executedSteps evs
             = stepName <$> take n (phaseSteps (phaseMain Parallel "broken" "up"))
           ∧ 0 < n
           ∧ (∃ b, stepResults brokenResources
                     (phaseSteps (phaseMain Parallel "broken" "up")) mainPending
                     memClient ∅ !! (n - 1) = Some (Some e, b))
           ∧ ∃ st, phaseSteps (phaseMain Parallel "broken" "up") !! (n - 1) = Some st
                   ∧ stepStatusIn (stepName st) pst1 = Some ErrorStatus).
Proof.
  split.
  - eexists _, _, _. split; [vm_compute; reflexivity|].
    edestruct (executeSteps_strategy (phaseMain Serial "slow" "up") slowResources
                 (phaseSteps (phaseMain Serial "slow" "up")) mainPending true
                 staticClient tt)
      as (n & Hle & Hexec & Hserial & _); [vm_compute; reflexivity|].
    exists n. split; [exact Hle|]. split; [exact Hexec|].
    intros Hlt. exact (proj2 (proj2 (Hserial eq_refl) Hlt)).
  - eexists _, _, _. split; [vm_compute; reflexivity|].
    edestruct (executeSteps_strategy (phaseMain Parallel "broken" "up") brokenResources
                 (phaseSteps (phaseMain Parallel "broken" "up")) mainPending true
                 memClient ∅)
      as (n & Hle & Hexec & _ & _ & Herr & _); [vm_compute; reflexivity|].
    destruct (Herr _ eq_refl) as (Hpos & Hres & _ & Hst).
    exists n. split; [exact Hle|]. split; [exact Hexec|]. split; [exact Hpos|].
    split; [exact Hres|exact Hst].
Defined.

Lemma applyConventionsToTemplates_conventions_witness :
  let md := mkMetadata "inst" "default" "op" "1.0" "deploy" "main" "one" in
  let owner := mkOwner "Instance" "inst" in
  ∃ objs,
    applyConventionsToTemplates enhancer (<["web.yaml" := "web"]> ∅) md owner = inr objs
    ∧ length objs = 1
    ∧ Forall (carriesConventions md owner) objs.
Proof.
  eexists. split; [vm_compute; reflexivity|]. split; [reflexivity|].
  apply (applyConventionsToTemplates_conventions parseDocuments
           (<["web.yaml" := "web"]> ∅)
           (mkMetadata "inst" "default" "op" "1.0" "deploy" "main" "one")
           (mkOwner "Instance" "inst")).
  vm_compute. reflexivity.
Defined.

Lemma executePlan_idempotent_witness :
  heapOf pending !! 0 = Some pending
  ∧ statusMatchesSpec (apSpec (planOf Serial "slow" "up")) pending = true
  ∧ (∃ t1 t2,
       executePlan (planOf Serial "slow" "up") meta admittingClient enhancer
         (heapOf pending) ∅ = Returned t1
       ∧ executePlan (planOf Serial "slow" "up") meta admittingClient enhancer
           (tickHeap t1) (tickCluster t1) = Returned t2
       ∧ ∀ final1 final2 phase step,
           tickHeap t1 !! tickState t1 = Some final1 →
           tickHeap t2 !! tickState t2 = Some final2 →
           (plsStatus final1 = ExecutionComplete → plsStatus final2 = ExecutionComplete)
           ∧ (phaseStatusOf phase final1 = Some ExecutionComplete →
              phaseStatusOf phase final2 = Some ExecutionComplete)
           ∧ (stepStatusOf phase step final1 = Some ExecutionComplete →
              stepStatusOf phase step final2 = Some ExecutionComplete))
  ∧ distinctStepNames (apSpec (planOf Serial "slow" "up"))
  ∧ quiescent staticClient tt
  ∧ ∃ t1 t2,
      runStatic (planOf Serial "slow" "up") (heapOf pending) = Returned t1
      ∧ executePlan (planOf Serial "slow" "up") meta staticClient enhancer
          (tickHeap t1) (tickCluster t1) = Returned t2
      ∧ tickHeap t2 = tickHeap t1.
Proof.
  assert (distinctStepNames (apSpec (planOf Serial "slow" "up"))) as Hnd.
  { constructor; [|constructor]. simpl. apply NoDup_cons.
    split; [intros H%list_elem_of_singleton; discriminate H | apply NoDup_singleton]. }
  assert (quiescent staticClient tt) as Hq.
  { intros r. split; [reflexivity|]. split; [reflexivity|]. intros pt data. reflexivity. }
  split; [reflexivity|]. split; [reflexivity|]. split.
  { destruct (proj1 (executePlan_idempotent (planOf Serial "slow" "up") meta
                       admittingClient enhancer (heapOf pending) ∅ pending
                       eq_refl eq_refl))
      as (t1 & t2 & H1 & H2 & _ & H3).
    exists t1, t2. split; [exact H1|]. split; [exact H2|exact H3]. }
  split; [exact Hnd|]. split; [exact Hq|].
  destruct (proj2 (executePlan_idempotent (planOf Serial "slow" "up") meta staticClient
                     enhancer (heapOf pending) tt pending eq_refl eq_refl) Hnd Hq)
    as (t1 & t2 & H1 & _ & H2 & H3 & _).
  exists t1, t2. split; [exact H1|]. split; [exact H2|exact H3].
Defined.

End Examples.

(** * Further properties of the engine *)

(** ** The names of the status *)

Section Frame.

Context {Cluster : Type} {libs : Libraries} {oracle : HealthOracle Cluster}.

Lemma prepareSteps_shape_kept plan meta renderer phase phaseState status j steps
    perStep status1 r :
  (∀ i phs, phaseState = Some (i, phs) → plsPhases status !! i = Some phs) →
  prepareSteps plan meta renderer phase phaseState status j steps perStep
  = Returned (status1, r) →
  skeleton status1 = skeleton status
  ∧ plsName status1 = plsName status
  ∧ plsStatus status1 = plsStatus status
  ∧ (∀ m, r = inr m → status1 = status).
Proof.
  intros Hstate. revert j perStep.
  induction steps as [|st steps IH]; intros j perStep; simpl.
  - intros; by simplify_eq.
  - destruct phaseState as [[i phs]|]; [|done].
    destruct (prepareTasks _ _ _ _ _ _ _ _) as [[s err]|objs]; [|apply IH].
    destruct (getStepFromStatus (stepName st) phs) as [[k ss]|] eqn:Hk; [|done].
    intros; simplify_eq. split; [|done].
    apply markFailed_skeleton; [by apply Hstate|].
    by apply getStepFromStatus_Some in Hk as [? _].
Qed.

Lemma preparePhases_shape_kept plan meta renderer phases status result status1 r :
  preparePhases plan meta renderer phases status result = Returned (status1, r) →
  skeleton status1 = skeleton status
  ∧ plsName status1 = plsName status
  ∧ plsStatus status1 = plsStatus status
  ∧ (∀ m, r = inr m → status1 = status).
Proof.
  revert status result. induction phases as [|ph phases IH];
    intros status result; simpl.
  - intros; by simplify_eq.
  - destruct (prepareSteps _ _ _ ph _ _ _ _ _) as [[status2 r2]|] eqn:Hsteps; [|done].
    apply prepareSteps_shape_kept in Hsteps as (Hs & Hn & Ht & Hsame).
    2:{ intros i phs Hf. by apply getPhaseFromStatus_Some in Hf as [? _]. }
    destruct r2 as [err|perStep]; [intros; by simplify_eq|].
    rewrite (Hsame _ eq_refl). apply IH.
Qed.

Lemma executePhase_shape_kept ph res status (c : Client Cluster) cl s1 exit cl1 evs :
  executePhase ph res status c cl = Returned (s1, exit, cl1, evs) →
  skeleton s1 = skeleton status ∧ plsName s1 = plsName status.
Proof.
  unfold executePhase.
  destruct (getPhaseFromStatus (phaseName ph) status) as [[i cur]|] eqn:Hf; [|done].
  apply getPhaseFromStatus_Some in Hf as [Hi _].
  destruct (isFinished (phsStatus cur)); [intros; by simplify_eq|].
  destruct (isInProgress (phsStatus cur)); [|intros; by simplify_eq].
  destruct (executeSteps ph _ _ _ true c cl) as [[[[pst1 r] cl2] ev2]|] eqn:Hrun;
    [|done].
  destruct (executeSteps_names _ _ _ _ _ _ _ _ _ _ _ Hrun) as [Hn Hs].
  destruct r as [e|b]; intros; simplify_eq; (split; [|done]).
  - by apply (write_phase_skeleton _ _ cur).
  - apply (write_phase_skeleton _ _ cur); [done|by destruct b..].
Qed.

Lemma executePhases_shape_kept phases res status (c : Client Cluster) cl s1 r cl1 evs :
  executePhases phases res status c cl = Returned (s1, r, cl1, evs) →
  skeleton s1 = skeleton status ∧ plsName s1 = plsName status.
Proof.
  revert status cl evs. induction phases as [|ph phases IH];
    intros status cl evs; simpl.
  - intros; by simplify_eq.
  - destruct (executePhase ph res status c cl) as [[[[s2 exit] cl2] ev2]|] eqn:Hph;
      [|done].
    apply executePhase_shape_kept in Hph as [Hs Hn].
    destruct exit as [| |e]; [|intros; by simplify_eq..].
    destruct (executePhases phases res s2 c cl2) as [[[[s3 r'] cl3] ev3]|] eqn:Hrest;
      [|done].
    intros; simplify_eq. apply IH in Hrest as [Hs3 Hn3]. split; congruence.
Qed.

(** X1. In the status [plan.PlanStatus] points to, a tick that returns
    changes no name and adds or removes no entry: the name of the plan, the
    names of the phases and, phase by phase, the names of the steps are
    after the tick what they were before it, in the same order. Only
    [Status] fields change. *)
Theorem executePlan_keeps_names plan meta (c : Client Cluster) renderer h cl t :
  executePlan plan meta c renderer h cl = Returned t →
  ∃ status final,
    h !! apPlanStatus plan = Some status
    ∧ tickHeap t !! apPlanStatus plan = Some final
    ∧ plsName final = plsName status
    ∧ skeleton final = skeleton status.
Proof.
  unfold executePlan.
  destruct (h !! apPlanStatus plan) as [status|] eqn:Hh; [|done].
  destruct (IsTerminal (plsStatus status)).
  { intros; simplify_eq. simpl. by exists status, status. }
  destruct (prepareKubeResources plan meta renderer status) as [[status1 r]|] eqn:Hprep;
    [|done].
  apply preparePhases_shape_kept in Hprep as (Hs & Hn & _ & _).
  destruct r as [err|resources].
  { intros; simplify_eq. simpl.
    exists status. eexists. rewrite alter_insert_eq, lookup_insert_eq. done. }
  rewrite lookup_insert_eq.
  destruct (executePhases _ resources status1 c cl) as [[[[w1 r] cl1] evs]|] eqn:Hrun;
    [|done].
  apply executePhases_shape_kept in Hrun as [Hs1 Hn1].
  destruct r as [e|b]; intros; simplify_eq; simpl.
  - exists status, w1. rewrite lookup_insert_eq. split_and!; congruence.
  - exists status. eexists. rewrite lookup_insert_eq. split; [done|]. split; [done|].
    destruct b; unfold skeleton in *; simpl; split; congruence.
Qed.

End Frame.

(** ** What a tick keeps, and what Complete means *)

Section Progress.

Context {Cluster : Type} {libs : Libraries} {oracle : HealthOracle Cluster}.

(** X2. Completion is never taken back by a tick whose preparation
    succeeds: a phase entry that is Complete is found unchanged after the
    tick, and a step that is Complete is Complete after it. *)
Theorem executePlan_keeps_complete plan meta (c : Client Cluster) renderer h cl
    status status1 resources t :
  h !! apPlanStatus plan = Some status →
  prepareKubeResources plan meta renderer status = Returned (status1, inr resources) →
  executePlan plan meta c renderer h cl = Returned t →
  ∃ final,
    tickHeap t !! apPlanStatus plan = Some final
    ∧ (∀ n i p, getPhaseFromStatus n status = Some (i, p) →
                phsStatus p = ExecutionComplete →
                getPhaseFromStatus n final = Some (i, p))
    ∧ (∀ n m, stepStatusOf n m status = Some ExecutionComplete →
              stepStatusOf n m final = Some ExecutionComplete).
Proof.
  intros Hh Hprep. unfold executePlan. rewrite Hh.
  destruct (IsTerminal (plsStatus status)).
  { intros; simplify_eq. by exists status. }
  rewrite Hprep, lookup_insert_eq.
  apply preparePhases_shape_kept in Hprep as (_ & _ & _ & Hsame).
  rewrite (Hsame _ eq_refl).
  destruct (executePhases _ resources status c cl) as [[[[w1 r] cl1] evs]|] eqn:Hrun;
    [|done].
  assert (∀ n i p, getPhaseFromStatus n status = Some (i, p) →
                   phsStatus p = ExecutionComplete →
                   getPhaseFromStatus n w1 = Some (i, p)) as Hphases.
  { intros n i p Hf Hp. by eapply executePhases_keeps_complete. }
  assert (∀ n m, stepStatusOf n m status = Some ExecutionComplete →
                 stepStatusOf n m w1 = Some ExecutionComplete) as Hsteps.
  { intros n m. by eapply executePhases_keeps_complete_step. }
  destruct r as [e|b]; intros; simplify_eq; simpl;
    eexists; (split; [apply lookup_insert_eq|]); [done|].
  by destruct b.
Qed.

(** The flag [allStepsHealthy], once false, stays false. *)
Lemma executeSteps_flag_false ph res steps pst (c : Client Cluster) cl pst1 r cl1 evs :
  executeSteps ph res steps pst false c cl = Returned (pst1, r, cl1, evs) →
  r ≠ inr true.
Proof.
  revert pst cl evs. induction steps as [|st steps IH]; intros pst cl evs; simpl.
  - intros; by simplify_eq.
  - destruct (getStepFromStatus (stepName st) pst) as [[j cur]|]; [|done].
    destruct (executeStep st cur _ c cl) as [[[state1 [e|]] cl2] evs2];
      [intros; by simplify_eq|].
    destruct (isFinished (ssStatus state1)).
    + destruct (executeSteps ph res steps _ false c cl2) as [[[[p r'] cl3] ev3]|] eqn:Hrest;
        [|done].
      intros; simplify_eq. by eapply IH.
    + destruct (bool_decide (phaseStrategy ph = Serial)); [intros; by simplify_eq|].
      destruct (executeSteps ph res steps _ false c cl2) as [[[[p r'] cl3] ev3]|] eqn:Hrest;
        [|done].
      intros; simplify_eq. by eapply IH.
Qed.

(** The loop over the steps ends with [allStepsHealthy] true only when every
    step it was given is Complete. *)
Lemma executeSteps_all_complete ph res steps pst flag (c : Client Cluster) cl
    pst1 cl1 evs :
  executeSteps ph res steps pst flag c cl = Returned (pst1, inr true, cl1, evs) →
  flag = true
  ∧ ∀ st, st ∈ steps → stepStatusIn (stepName st) pst1 = Some ExecutionComplete.
Proof.
  revert pst cl evs. induction steps as [|st steps IH]; intros pst cl evs; simpl.
  - intros; simplify_eq. split; [done|]. by intros st ?%elem_of_nil.
  - destruct (getStepFromStatus (stepName st) pst) as [[j cur]|] eqn:Hj; [|done].
    destruct (executeStep st cur _ c cl) as [[[state1 err] cl2] evs2] eqn:Hex.
    destruct (executeStep_status _ _ _ _ _ _ _ _ _ Hex) as [Hname _].
    pose proof (getStepFromStatus_Some _ _ _ _ Hj) as [_ Hcur].
    destruct err as [e|]; [done|].
    destruct (isFinished (ssStatus state1)) eqn:Hfin.
    + destruct (executeSteps ph res steps _ flag c cl2) as [[[[p r'] cl3] ev3]|] eqn:Hrest;
        [|done].
      intros; simplify_eq. destruct (IH _ _ _ Hrest) as [Hflag Hall].
      split; [done|]. intros st0 [->|Hin]%elem_of_cons; [|by apply Hall].
      eapply executeSteps_keeps_complete; [exact Hrest|].
      apply isFinished_true in Hfin. rewrite <- Hfin.
      eapply (stepStatusIn_insert_same _ pst); [exact Hj|done|congruence].
    + destruct (bool_decide (phaseStrategy ph = Serial)); [done|].
      destruct (executeSteps ph res steps _ false c cl2) as [[[[p r'] cl3] ev3]|] eqn:Hrest;
        [|done].
      intros; simplify_eq. by apply executeSteps_flag_false in Hrest.
Qed.

(** X4. A phase entry that an iteration of the loop over the phases turns
    Complete has every step of the phase Complete. *)
Theorem executePhase_complete_sound ph res status (c : Client Cluster) cl
    s1 exit cl1 evs :
  executePhase ph res status c cl = Returned (s1, exit, cl1, evs) →
  phaseStatusOf (phaseName ph) status ≠ Some ExecutionComplete →
  phaseStatusOf (phaseName ph) s1 = Some ExecutionComplete →
  ∀ st, st ∈ phaseSteps ph →
        stepStatusOf (phaseName ph) (stepName st) s1 = Some ExecutionComplete.
Proof.
  intros Hrun. unfold phaseStatusOf, stepStatusOf.
  destruct (getPhaseFromStatus (phaseName ph) status) as [[i cur]|] eqn:Hf.
  2:{ unfold executePhase in Hrun. by rewrite Hf in Hrun. }
  simpl. intros Hc Hdone.
  assert (phsStatus cur ≠ ExecutionComplete) as Hc' by congruence.
  destruct (executePhase_run _ _ _ _ _ _ _ _ _ _ _ Hf Hc' Hrun)
    as [(_ & -> & _)|(pst1 & r & p & Hsteps & Hp & Hps & Hst & _)].
  { rewrite Hf in Hdone. simpl in Hdone. congruence. }
  rewrite Hp in Hdone |- *. simpl in *.
  destruct r as [e|[]]; [congruence| |congruence].
  apply executeSteps_all_complete in Hsteps as [_ Hall].
  intros st Hin. specialize (Hall st Hin).
  unfold stepStatusIn, getStepFromStatus in *. by rewrite Hps.
Qed.

(** The loop over the phases ends with [allPhasesCompleted] true only when
    the entry of every phase it was given is Complete. *)
Lemma executePhases_all_complete phases res status (c : Client Cluster) cl s1 cl1 evs :
  executePhases phases res status c cl = Returned (s1, inr true, cl1, evs) →
  ∀ ph, ph ∈ phases → phaseStatusOf (phaseName ph) s1 = Some ExecutionComplete.
Proof.
  revert status cl evs. induction phases as [|ph phases IH];
    intros status cl evs; simpl.
  - intros _ ph ?%elem_of_nil. done.
  - destruct (executePhase ph res status c cl) as [[[[s2 exit] cl2] ev2]|] eqn:Hph;
      [|done].
    destruct exit as [| |e]; [|done..].
    destruct (executePhases phases res s2 c cl2) as [[[[s3 r'] cl3] ev3]|] eqn:Hrest;
      [|done].
    intros Heq; simplify_eq.
    apply executePhase_continue in Hph as (i & p & Hf & Hp).
    intros ph' [->|Hin]%elem_of_cons; [|by eapply IH].
    unfold phaseStatusOf.
    rewrite (executePhases_keeps_complete _ _ _ _ _ _ _ _ _ _ _ _ Hf Hp Hrest).
    simpl. by rewrite Hp.
Qed.

(** X3. A tick on a plan that is not terminal leaves the plan Complete only
    when it returns no error and the entry of every phase of the plan is
    Complete. *)
Theorem executePlan_complete_sound plan meta (c : Client Cluster) renderer h cl
    status t final :
  h !! apPlanStatus plan = Some status →
  IsTerminal (plsStatus status) = false →
  executePlan plan meta c renderer h cl = Returned t →
  tickHeap t !! apPlanStatus plan = Some final →
  plsStatus final = ExecutionComplete →
  tickErr t = None
  ∧ ∀ ph, ph ∈ planPhases (apSpec plan) →
          phaseStatusOf (phaseName ph) final = Some ExecutionComplete.
Proof.
  intros Hh Hterm. unfold executePlan. rewrite Hh, Hterm.
  destruct (prepareKubeResources plan meta renderer status) as [[status1 r]|] eqn:Hprep;
    [|done].
  pose proof (preparePhases_shape_kept _ _ _ _ _ _ _ _ Hprep) as (_ & _ & Htop & _).
  destruct r as [err|resources].
  { intros; simplify_eq. simpl in *.
    rewrite alter_insert_eq, lookup_insert_eq in *. simplify_eq.
    by destruct (errorsAs_executionError err). }
  rewrite lookup_insert_eq.
  destruct (executePhases _ resources status1 c cl) as [[[[w1 r] cl1] evs]|] eqn:Hrun;
    [|done].
  pose proof (executePhases_toplevel _ _ _ _ _ _ _ _ _ Hrun) as Htop1.
  assert (plsStatus w1 ≠ ExecutionComplete) as Hw1.
  { destruct Htop1 as [Ht|Ht]; rewrite Ht; [|done].
    rewrite Htop. intros Hc. by rewrite Hc in Hterm. }
  destruct r as [e|b]; intros; simplify_eq; simpl in *;
    rewrite lookup_insert_eq in *; simplify_eq.
  destruct b; [|done]. split; [done|].
  intros ph Hin.
  by apply (executePhases_all_complete _ _ _ _ _ _ _ _ Hrun).
Qed.

End Progress.

(** ** What the preparation hands to the engine *)

Section Prepared.

Context {libs : Libraries}.
Variables (plan : activePlan) (meta : executionMetadata)
  (renderer : kubernetesObjectEnhancer).

(** A walk of the steps of a phase that succeeds has prepared the tasks of
    each step, leaves the entries of other names alone and, the names of
    the steps being distinct, files the objects of a step under its name. *)
Lemma prepareSteps_resources phase phaseState status j steps perStep status1 m :
  prepareSteps plan meta renderer phase phaseState status j steps perStep
  = Returned (status1, inr m) →
  (∀ k s, steps !! k = Some s → stepPrepares plan meta renderer phase (j + k) s)
  ∧ (∀ n, n ∉ stepName <$> steps → m !! n = perStep !! n)
  ∧ (NoDup (stepName <$> steps) →
     ∀ k s, steps !! k = Some s →
            ∃ objs, m !! stepName s = Some objs
                    ∧ prepareTasks plan meta renderer phase (j + k) s (stepTasks s) []
                      = inr objs).
Proof.
  revert j perStep. induction steps as [|st steps IH]; intros j perStep; simpl.
  - intros; simplify_eq. split_and!; [done..|]. by intros _ k s ?.
  - destruct phaseState as [[i phs]|] eqn:Hstate; [|done].
    destruct (prepareTasks _ _ _ _ _ st _ _) as [[s err]|objs] eqn:Htasks.
    { by destruct (getStepFromStatus (stepName st) phs) as [[k ss]|]. }
    intros Hrest. destruct (IH _ _ Hrest) as (Hprep & Hother & Hfiled).
    split_and!.
    + intros [|k] s Hk; simpl in Hk; simplify_eq.
      * rewrite Nat.add_0_r. by exists objs.
      * replace (j + S k) with (S j + k) by lia. by apply Hprep.
    + intros n [Hn Hns]%not_elem_of_cons.
      rewrite (Hother n Hns). by rewrite lookup_insert_ne.
    + intros [Hst Hnd]%NoDup_cons [|k] s Hk; simpl in Hk; simplify_eq.
      * rewrite Nat.add_0_r. exists objs. split; [|done].
        rewrite (Hother _ Hst). apply lookup_insert_eq.
      * replace (j + S k) with (S j + k) by lia. by apply Hfiled.
Qed.

Lemma preparePhases_resources phases status result status1 res :
  preparePhases plan meta renderer phases status result = Returned (status1, inr res) →
  Forall (phasePrepares plan meta renderer) phases
  ∧ (∀ n, n ∉ phaseName <$> phases → res !! n = result !! n)
  ∧ (NoDup (phaseName <$> phases) →
     ∀ ph, ph ∈ phases →
           ∃ perStep,
             res !! phaseName ph = Some perStep
             ∧ (∀ n, n ∉ stepName <$> phaseSteps ph → perStep !! n = None)
             ∧ (NoDup (stepName <$> phaseSteps ph) →
                ∀ k s, phaseSteps ph !! k = Some s →
                       ∃ objs, perStep !! stepName s = Some objs
                               ∧ prepareTasks plan meta renderer ph k s (stepTasks s) []
                                 = inr objs)).
Proof.
  revert status result. induction phases as [|ph phases IH];
    intros status result; simpl.
  - intros; simplify_eq. split_and!; [done..|]. by intros _ ph ?%elem_of_nil.
  - destruct (prepareSteps _ _ _ ph _ _ _ _ _) as [[status2 [err|perStep]]|] eqn:Hsteps;
      [done| |done].
    apply prepareSteps_resources in Hsteps as (Hprep & Hother & Hfiled).
    intros Hrest. destruct (IH _ _ Hrest) as (Hall & Hothers & Hfiles).
    split_and!.
    + constructor; [|done]. intros k s Hk. by apply (Hprep k s).
    + intros n [Hn Hns]%not_elem_of_cons.
      rewrite (Hothers n Hns). unfold planResources.
      by rewrite lookup_insert_ne.
    + intros [Hph Hnd]%NoDup_cons ph' [->|Hin]%elem_of_cons; [|by apply Hfiles].
      exists perStep. split_and!.
      * rewrite (Hothers _ Hph). unfold planResources. apply lookup_insert_eq.
      * intros n Hn. by rewrite (Hother n Hn).
      * intros Hnds k s Hk. by apply (Hfiled Hnds k s).
Qed.

(** What the loop over the resource keys of a task leaves in the map of
    rendered templates. *)
Lemma renderResources_rendered configs rs acc rendered :
  renderResources plan meta configs rs acc = inr rendered →
  (∀ key, key ∈ rs →
          ∃ template text,
            apTemplates plan !! key = Some template
            ∧ Render template configs = inr text
            ∧ rendered !! key = Some text)
  ∧ (∀ key, key ∉ rs → rendered !! key = acc !! key).
Proof.
  revert acc. induction rs as [|r rs IH]; intros acc; simpl.
  { intros; simplify_eq. split; [by intros key ?%elem_of_nil|done]. }
  destruct (apTemplates plan !! r) as [template|] eqn:Ht; [|done].
  destruct (Render template configs) as [err|text] eqn:Hr; [done|].
  intros Hrest. destruct (IH _ Hrest) as [Hin Hout]. split.
  - intros key [->|Hkey]%elem_of_cons; [|by apply Hin].
    destruct (decide (r ∈ rs)) as [Hr'|Hr']; [by apply Hin|].
    exists template, text. split; [done|]. split; [done|].
    rewrite (Hout r Hr'). apply lookup_insert_eq.
  - intros key [Hne Hkey]%not_elem_of_cons.
    rewrite (Hout key Hkey). by rewrite lookup_insert_ne.
Qed.

(** The loop over the tasks of a step appends, task by task and in the order
    of the tasks, the objects of each task. *)
Lemma prepareTasks_objects phase j step tasks acc objs :
  prepareTasks plan meta renderer phase j step tasks acc = inr objs →
  ∃ perTask : list (list Object),
    objs = acc ++ concat perTask
    ∧ Forall2 (taskObjects plan meta renderer phase j step) tasks perTask.
Proof.
  revert acc. induction tasks as [|t tasks IH]; intros acc; simpl.
  { intros; simplify_eq. exists []. split; [by rewrite app_nil_r|constructor]. }
  destruct (apTasks plan !! t) as [taskSpec|] eqn:Ht; [|done].
  destruct (renderResources plan meta _ (taskResources taskSpec) ∅)
    as [f|rendered] eqn:Hrender; [done|].
  destruct (applyConventionsToTemplates renderer rendered _ _) as [err|os] eqn:Hconv;
    [done|].
  intros Hrest. destruct (IH _ Hrest) as (perTask & -> & Hall).
  exists (os :: perTask). split; [by rewrite <- app_assoc|].
  constructor; [|done]. exists taskSpec, rendered.
  apply renderResources_rendered in Hrender as [Hin Hout].
  split; [done|]. split; [done|]. split; [|done].
  intros key Hkey. by rewrite (Hout key Hkey).
Qed.

(** X5. The resources of a successful preparation, where the phases of the
    plan have different names and so have the steps of each phase. Under
    the name of each phase and of each of its steps stand the objects of the
    tasks of the step, task after task in the order of the tasks: for each
    task, what the enhancer makes of the rendered templates of the resource
    keys of the task. Nothing stands under a name that is no step of the
    phase. *)
Theorem prepareKubeResources_resources status status1 res :
  prepareKubeResources plan meta renderer status = Returned (status1, inr res) →
  NoDup (phaseName <$> planPhases (apSpec plan)) →
  distinctStepNames (apSpec plan) →
  ∀ ph, ph ∈ planPhases (apSpec plan) →
        ∃ perStep,
          res !! phaseName ph = Some perStep
          ∧ (∀ n, n ∉ stepName <$> phaseSteps ph → perStep !! n = None)
          ∧ ∀ k s, phaseSteps ph !! k = Some s →
                   ∃ perTask : list (list Object),
                     perStep !! stepName s = Some (concat perTask)
                     ∧ Forall2 (taskObjects plan meta renderer ph k s)
                         (stepTasks s) perTask.
Proof.
  intros Hprep Hphases Hsteps ph Hin.
  apply preparePhases_resources in Hprep as (_ & _ & Hfiles).
  destruct (Hfiles Hphases ph Hin) as (perStep & Hres & Hnone & Hfiled).
  exists perStep. split_and!; [done..|].
  intros k s Hk.
  destruct (Hfiled (proj1 (Forall_forall _ _) Hsteps ph Hin) k s Hk)
    as (objs & Hobjs & Htasks).
  apply prepareTasks_objects in Htasks as (perTask & -> & Hall).
  by exists perTask.
Qed.

(** X6. A preparation that succeeds writes nothing to the status, and what
    it prepares does not depend on the status: it gives the same resources
    on every status that has the entries of the plan. *)
Theorem prepareKubeResources_status_independent status status1 res status' :
  prepareKubeResources plan meta renderer status = Returned (status1, inr res) →
  hasEntries (apSpec plan) status' →
  status1 = status
  ∧ prepareKubeResources plan meta renderer status' = Returned (status', inr res).
Proof.
  intros Hprep Hent. split.
  - apply preparePhases_shape_kept in Hprep as (_ & _ & _ & Hsame). by eapply Hsame.
  - by eapply prepareKubeResources_success_indep.
Qed.

End Prepared.

Section FailFast.

Context {Cluster : Type} {libs : Libraries} {oracle : HealthOracle Cluster}.

(** X7. The preparation is all or nothing for the cluster: a tick that
    issues any call, or logs the execution of any step, has prepared every
    step of every phase of the plan; and a tick on a plan some step of which
    does not prepare issues nothing and leaves the cluster as it was. *)
Theorem executePlan_calls_only_when_prepared plan meta (c : Client Cluster) renderer
    h cl t :
  executePlan plan meta c renderer h cl = Returned t →
  (tickEvents t ≠ [] →
   Forall (phasePrepares plan meta renderer) (planPhases (apSpec plan)))
  ∧ (¬ Forall (phasePrepares plan meta renderer) (planPhases (apSpec plan)) →
     tickEvents t = [] ∧ tickCluster t = cl).
Proof.
  intros Hrun.
  assert (Forall (phasePrepares plan meta renderer) (planPhases (apSpec plan))
          ∨ (tickEvents t = [] ∧ tickCluster t = cl)) as [Hall|[Hev Hcl]].
  { revert Hrun. unfold executePlan.
    destruct (h !! apPlanStatus plan) as [status|]; [|done].
    destruct (IsTerminal (plsStatus status)).
    { intros; simplify_eq. by right. }
    destruct (prepareKubeResources plan meta renderer status) as [[status1 r]|] eqn:Hprep;
      [|done].
    destruct r as [err|resources].
    { intros; simplify_eq. by right. }
    apply preparePhases_resources in Hprep as (Hall & _). intros _. by left. }
  - split; [done|]. by intros [].
  - split; [by intros []|done].
Qed.

End FailFast.

(** ** The calls of a step *)

Section Calls.

Context {Cluster : Type} {libs : Libraries} {oracle : HealthOracle Cluster}.

Lemma patchExistingObject_calls newResource existing (c : Client Cluster) cl :
  fetched (patchExistingObject newResource existing c cl).2 = []
  ∧ deletions (patchExistingObject newResource existing c cl).2 = [].
Proof.
  unfold patchExistingObject.
  destruct (clPatch c cl existing _ _) as [[e|o] cl1]; [|done].
  destruct (IsUnsupportedMediaType e); [|done].
  by destruct (clPatch c cl1 newResource _ _) as [[e2|o2] cl2].
Qed.

Lemma applyResource_calls step r (c : Client Cluster) cl :
  if stepDelete step
  then (applyResource step r c cl).2 = [EvDelete r]
  else fetched (applyResource step r c cl).2 = [ObjectKeyFromObject r]
       ∧ deletions (applyResource step r c cl).2 = [].
Proof.
  unfold applyResource. destruct (stepDelete step).
  - destruct (clDelete c cl r) as [[e|] cl1]; [|done]. by destruct (IsNotFound e).
  - destruct (clGet c cl _ r) as [e|existing].
    + destruct (IsNotFound e); [|done]. by destruct (clCreate c cl r) as [[e1|] cl1].
    + pose proof (patchExistingObject_calls r existing c cl) as [Hf Hd].
      destruct (patchExistingObject r existing c cl) as [[[perr ex] cl1] evs].
      simpl in Hf, Hd. destruct perr; simpl; by rewrite Hf, Hd.
Qed.

(** X8. The calls of the loop over the resources of a step. A step that
    deletes issues one delete per resource it reaches, in the order of the
    resources, and nothing else: it reads nothing and checks no health. A
    step that applies reads each resource it reaches once, in order, before
    it creates or patches, and deletes nothing. The resources reached are
    those up to the first that fails. *)
Theorem applyResources_calls step rs b (c : Client Cluster) cl :
  let evs := (applyResources step rs b c cl).2 in
  let n := length (resourceOutcomes step rs c cl) in
  n ≤ length rs
  ∧ if stepDelete step
    then evs = EvDelete <$> take n rs
    else fetched evs = ObjectKeyFromObject <$> take n rs ∧ deletions evs = [].
Proof.
  simpl. revert b cl. induction rs as [|r rs IH]; intros b cl; simpl.
  { split; [done|]. by destruct (stepDelete step). }
  pose proof (applyResource_calls step r c cl) as Hr.
  destruct (applyResource step r c cl) as [[o cl1] ev1]. simpl in Hr.
  assert (∀ b', let evs := (applyResources step rs b' c cl1).2 in
                S (length (resourceOutcomes step rs c cl1)) ≤ S (length rs)
                ∧ if stepDelete step
                  then ev1 ++ evs
                       = EvDelete <$> r :: take (length (resourceOutcomes step rs c cl1)) rs
                  else fetched (ev1 ++ evs)
                       = ObjectKeyFromObject
                           <$> r :: take (length (resourceOutcomes step rs c cl1)) rs
                       ∧ deletions (ev1 ++ evs) = []) as Hrest.
  { intros b'. simpl. destruct (IH b' cl1) as [Hlen Hevs]. split; [lia|].
    destruct (stepDelete step).
    - by rewrite Hr, Hevs.
    - destruct Hr as [Hf Hd]. destruct Hevs as [Hf' Hd'].
      unfold fetched, deletions in *. rewrite !omap_app, Hf, Hd, Hf', Hd'. done. }
  destruct o as [e| |healthy]; simpl.
  - split; [lia|]. by destruct (stepDelete step).
  - specialize (Hrest b). by destruct (applyResources step rs b c cl1) as [[res cl2] ev2].
  - specialize (Hrest (if healthy then b else false)).
    by destruct (applyResources step rs _ c cl1) as [[res cl2] ev2].
Qed.

End Calls.

(** ** Plans that cannot advance, and plans that finish in one tick *)

Section Liveness.

Context {Cluster : Type} {libs : Libraries} {oracle : HealthOracle Cluster}.

(** The loop over the phases passes over entries that are Complete. *)
Lemma executePhases_skip_complete phs1 rest res status (c : Client Cluster) cl :
  Forall (λ ph, phaseStatusOf (phaseName ph) status = Some ExecutionComplete) phs1 →
  executePhases (phs1 ++ rest) res status c cl = executePhases rest res status c cl.
Proof.
  induction phs1 as [|ph phs1 IH]; [done|].
  intros [Hph Hall]%Forall_cons. simpl.
  unfold phaseStatusOf in Hph.
  destruct (getPhaseFromStatus (phaseName ph) status) as [[i p]|] eqn:Hf; [|done].
  simpl in Hph. rewrite (executePhase_complete_noop _ _ _ _ _ _ _ Hf) by congruence.
  rewrite (IH Hall).
  by destruct (executePhases rest res status c cl) as [[[[s2 r] cl2] ev2]|].
Qed.

(** X9. A plan that is not terminal and whose first phase that is not
    Complete stands at ExecutionFatalError does not advance: when its
    preparation succeeds, a tick returns no error, issues no call and leaves
    the heap and the cluster exactly as they were. *)
Theorem executePlan_stuck_on_fatal_phase plan meta (c : Client Cluster) renderer h cl
    status status1 resources phs1 ph phs2 :
  h !! apPlanStatus plan = Some status →
  IsTerminal (plsStatus status) = false →
  prepareKubeResources plan meta renderer status = Returned (status1, inr resources) →
  planPhases (apSpec plan) = phs1 ++ ph :: phs2 →
  Forall (λ ph', phaseStatusOf (phaseName ph') status = Some ExecutionComplete) phs1 →
  phaseStatusOf (phaseName ph) status = Some ExecutionFatalError →
  executePlan plan meta c renderer h cl
  = Returned (mkTick (apPlanStatus plan) None h cl []).
Proof.
  intros Hh Hterm Hprep Hphases Hdone Hfatal.
  unfold executePlan. rewrite Hh, Hterm, Hprep, lookup_insert_eq.
  apply preparePhases_shape_kept in Hprep as (_ & _ & _ & Hsame).
  rewrite (Hsame _ eq_refl), Hphases, (executePhases_skip_complete _ _ _ _ _ _ Hdone).
  simpl. unfold phaseStatusOf in Hfatal. unfold executePhase.
  destruct (getPhaseFromStatus (phaseName ph) status) as [[i p]|]; [|done].
  simpl in Hfatal. simplify_eq. rewrite Hfatal. simpl.
  by rewrite insert_insert_eq, insert_id.
Qed.

(** On a cluster where everything goes through and is healthy, a step that
    is not at ExecutionFatalError is Complete after [executeStep]. *)
Lemma executeStep_healthy step state rs (c : Client Cluster) cl :
  alwaysHealthy c →
  ssStatus state ≠ ExecutionFatalError →
  ∃ state1 cl1 evs,
    executeStep step state rs c cl = (state1, None, cl1, evs)
    ∧ ssStatus state1 = ExecutionComplete.
Proof.
  intros Hc Hs.
  destruct (isInProgress (ssStatus state)) eqn:Hin.
  - pose proof (executeStep_inProgress step state rs c cl Hin) as Hrun.
    assert (Forall wentThroughHealthy (resourceOutcomes step rs c cl)) as Hall.
    { clear Hrun. revert cl. induction rs as [|r rs IH]; intros cl; simpl; [done|].
      pose proof (Hc step r cl) as Hr.
      destruct (applyResource step r c cl) as [[o cl1] ev1]. simpl in Hr.
      destruct o as [e| |healthy]; [by destruct Hr|constructor; auto..]. }
    apply verdict_true_iff in Hall. rewrite Hall in Hrun.
    destruct (executeStep step state rs c cl) as [[[state1 err] cl1] evs].
    destruct Hrun as [-> ->]. by eexists _, _, _.
  - unfold executeStep. rewrite Hin. eexists _, _, _. split; [done|].
    by destruct (ssStatus state).
Qed.

Lemma executeSteps_healthy ph res steps pst flag (c : Client Cluster) cl pst1 r cl1 evs :
  alwaysHealthy c →
  (∀ m k s, getStepFromStatus m pst = Some (k, s) → ssStatus s ≠ ExecutionFatalError) →
  executeSteps ph res steps pst flag c cl = Returned (pst1, r, cl1, evs) →
  r = inr flag.
Proof.
  intros Hc. revert pst cl evs. induction steps as [|st steps IH];
    intros pst cl evs Hpst; simpl.
  - intros; by simplify_eq.
  - destruct (getStepFromStatus (stepName st) pst) as [[j cur]|] eqn:Hj; [|done].
    destruct (executeStep_healthy st cur (default [] (res !! stepName st)) c cl Hc
                (Hpst _ _ _ Hj)) as (state1 & cl2 & evs2 & Hex & Hdone).
    pose proof (executeStep_status _ _ _ _ _ _ _ _ _ Hex) as [Hname _].
    pose proof (getStepFromStatus_Some _ _ _ _ Hj) as [_ Hcur].
    rewrite Hex, Hdone. simpl.
    destruct (executeSteps ph res steps _ flag c cl2) as [[[[p r'] cl3] ev3]|] eqn:Hrest;
      [|done].
    intros; simplify_eq. eapply IH; [|exact Hrest].
    intros m k s. destruct (decide (m = stepName st)) as [->|Hne].
    + erewrite getStepFromStatus_insert_found; [|exact Hj|done|congruence].
      intros; simplify_eq. by rewrite Hdone.
    + erewrite getStepFromStatus_insert_irrelevant; [|exact Hj|done|congruence|done].
      apply Hpst.
Qed.

(** What the loop over the phases needs of the entries it finds: a phase
    that is not Complete is not at ExecutionFatalError, and neither is any
    of its steps. *)
Lemma executePhases_healthy phases res status (c : Client Cluster) cl s1 r cl1 evs :
  alwaysHealthy c →
  (∀ n i p, getPhaseFromStatus n status = Some (i, p) →
            phsStatus p = ExecutionComplete
            ∨ (phsStatus p ≠ ExecutionFatalError
               ∧ ∀ m k s, getStepFromStatus m p = Some (k, s) →
                          ssStatus s ≠ ExecutionFatalError)) →
  executePhases phases res status c cl = Returned (s1, r, cl1, evs) →
  r = inr true.
Proof.
  intros Hc. revert status cl evs. induction phases as [|ph phases IH];
    intros status cl evs Hinv; simpl.
  - intros; by simplify_eq.
  - destruct (executePhase ph res status c cl) as [[[[s2 exit] cl2] ev2]|] eqn:Hph;
      [|done].
    assert (exit = PhaseContinue
            ∧ ∃ i p, getPhaseFromStatus (phaseName ph) s2 = Some (i, p)
                     ∧ phsStatus p = ExecutionComplete) as [-> (i2 & p2 & Hf2 & Hp2)].
    { destruct (getPhaseFromStatus (phaseName ph) status) as [[i cur]|] eqn:Hf.
      2:{ unfold executePhase in Hph. by rewrite Hf in Hph. }
      destruct (Hinv _ _ _ Hf) as [Hdone|[Hnf Hsteps]].
      { rewrite (executePhase_complete_noop _ _ _ _ _ _ _ Hf Hdone) in Hph.
        simplify_eq. eauto. }
      destruct (decide (phsStatus cur = ExecutionComplete)) as [Hdone|Hnc].
      { rewrite (executePhase_complete_noop _ _ _ _ _ _ _ Hf Hdone) in Hph.
        simplify_eq. eauto. }
      destruct (executePhase_run _ _ _ _ _ _ _ _ _ _ _ Hf Hnc Hph)
        as [(Hin & _)|(pst1 & r0 & p & Hrun & Hp & _ & Hst & Hexit & _)].
      { by destruct (phsStatus cur). }
      apply executeSteps_healthy in Hrun; [|done|exact Hsteps].
      subst r0. eauto. }
    destruct (executePhases phases res s2 c cl2) as [[[[s3 r'] cl3] ev3]|] eqn:Hrest;
      [|done].
    intros; simplify_eq. eapply IH; [|exact Hrest].
    intros n i p. destruct (decide (n = phaseName ph)) as [->|Hne].
    + rewrite Hf2. intros; simplify_eq. by left.
    + rewrite (executePhase_untouched _ _ _ _ _ _ _ _ _ _ Hne Hph). apply Hinv.
Qed.

(** X10. One tick is enough on a cluster where everything goes through and
    is healthy: for a plan that is not terminal, whose status has the
    entries of the plan, none of them at ExecutionFatalError, and whose
    preparation succeeds, the tick returns no error and leaves the plan and
    every phase of it Complete. *)
Theorem executePlan_completes_in_one_tick plan meta (c : Client Cluster) renderer h cl
    status status1 resources :
  h !! apPlanStatus plan = Some status →
  IsTerminal (plsStatus status) = false →
  hasEntries (apSpec plan) status →
  noneFatal status →
  prepareKubeResources plan meta renderer status = Returned (status1, inr resources) →
  alwaysHealthy c →
  ∃ t final,
    executePlan plan meta c renderer h cl = Returned t
    ∧ tickErr t = None
    ∧ tickHeap t !! apPlanStatus plan = Some final
    ∧ plsStatus final = ExecutionComplete
    ∧ ∀ ph, ph ∈ planPhases (apSpec plan) →
            phaseStatusOf (phaseName ph) final = Some ExecutionComplete.
Proof.
  intros Hh Hterm Hent Hnf Hprep Hc.
  unfold executePlan. rewrite Hh, Hterm, Hprep, lookup_insert_eq.
  apply preparePhases_shape_kept in Hprep as (_ & _ & _ & Hsame).
  rewrite (Hsame _ eq_refl).
  destruct (executePhases_returns (planPhases (apSpec plan)) resources status c cl)
    as (w1 & r & cl1 & evs & Hrun & _).
  { by destruct (apSpec plan). }
  rewrite Hrun.
  assert (r = inr true) as Hr.
  { eapply executePhases_healthy; [exact Hc| |exact Hrun].
    intros n i p [Hi _]%getPhaseFromStatus_Some. right.
    unfold noneFatal in Hnf. rewrite Forall_forall in Hnf.
    destruct (Hnf p) as [Hp Hsteps]; [by eapply list_elem_of_lookup_2|].
    split; [done|]. intros m k s [Hk _]%getStepFromStatus_Some.
    rewrite Forall_forall in Hsteps. apply Hsteps. by eapply list_elem_of_lookup_2. }
  subst r. eexists _, _. split; [done|]. simpl. rewrite lookup_insert_eq.
  split_and!; [done..|].
  intros ph Hin.
  by apply (executePhases_all_complete _ _ _ _ _ _ _ _ Hrun).
Qed.

End Liveness.

(** ** The order of the phases *)

Section PhaseOrder.

Context {Cluster : Type} {libs : Libraries} {oracle : HealthOracle Cluster}.

(** The loop over the phases, on phases of different names, touches the
    entry of a phase only when the entries of all the phases before it are
    Complete at the end. *)
Lemma executePhases_in_order phases res status (c : Client Cluster) cl s1 r cl1 evs :
  NoDup (phaseName <$> phases) →
  executePhases phases res status c cl = Returned (s1, r, cl1, evs) →
  ∀ k ph, phases !! k = Some ph →
          getPhaseFromStatus (phaseName ph) s1 ≠ getPhaseFromStatus (phaseName ph) status →
          ∀ i ph', i < k → phases !! i = Some ph' →
                   phaseStatusOf (phaseName ph') s1 = Some ExecutionComplete.
Proof.
  revert status cl evs. induction phases as [|ph0 phases IH];
    intros status cl evs Hnd; simpl.
  { by intros _ k ph ?. }
  apply NoDup_cons in Hnd as [Hfresh Hnd].
  destruct (executePhase ph0 res status c cl) as [[[[s2 exit] cl2] ev2]|] eqn:Hph;
    [|done].
  assert (∀ k ph, phases !! k = Some ph →
                  getPhaseFromStatus (phaseName ph) s2
                  = getPhaseFromStatus (phaseName ph) status) as Hkept.
  { intros k ph Hk. eapply executePhase_untouched; [|exact Hph].
    intros Heq. apply Hfresh. rewrite <- Heq.
    apply list_elem_of_fmap. exists ph. split; [done|].
    by eapply list_elem_of_lookup_2. }
  destruct exit as [| |e].
  - destruct (executePhases phases res s2 c cl2) as [[[[s3 r'] cl3] ev3]|] eqn:Hrest;
      [|done].
    intros Heq; simplify_eq.
    apply executePhase_continue in Hph as (i0 & p0 & Hf0 & Hp0).
    intros [|k] ph Hk Hchanged i ph' Hi Hi'; [lia|]. simpl in Hk.
    destruct i as [|i]; simpl in Hi'.
    + simplify_eq. unfold phaseStatusOf.
      rewrite (executePhases_keeps_complete _ _ _ _ _ _ _ _ _ _ _ _ Hf0 Hp0 Hrest).
      simpl. by rewrite Hp0.
    + eapply (IH _ _ _ Hnd Hrest k ph Hk); [|by apply Nat.succ_lt_mono|done].
      by rewrite (Hkept k ph Hk).
  - intros Heq; simplify_eq.
    intros [|k] ph Hk Hchanged i ph' Hi Hi'; [lia|]. simpl in Hk.
    by rewrite (Hkept k ph Hk) in Hchanged.
  - intros Heq; simplify_eq.
    intros [|k] ph Hk Hchanged i ph' Hi Hi'; [lia|]. simpl in Hk.
    by rewrite (Hkept k ph Hk) in Hchanged.
Qed.

(** X11. The phases of a plan run one after another: where the phases have
    different names and the preparation succeeds, a tick changes the entry
    of a phase only when the entries of all the phases before it in the plan
    are Complete after the tick. *)
Theorem executePlan_phases_in_order plan meta (c : Client Cluster) renderer h cl
    status status1 resources t :
  h !! apPlanStatus plan = Some status →
  prepareKubeResources plan meta renderer status = Returned (status1, inr resources) →
  NoDup (phaseName <$> planPhases (apSpec plan)) →
  executePlan plan meta c renderer h cl = Returned t →
  ∃ final,
    tickHeap t !! apPlanStatus plan = Some final
    ∧ ∀ k ph, planPhases (apSpec plan) !! k = Some ph →
              getPhaseFromStatus (phaseName ph) final
              ≠ getPhaseFromStatus (phaseName ph) status →
              ∀ i ph', i < k → planPhases (apSpec plan) !! i = Some ph' →
                       phaseStatusOf (phaseName ph') final = Some ExecutionComplete.
Proof.
  intros Hh Hprep Hnd. unfold executePlan. rewrite Hh.
  destruct (IsTerminal (plsStatus status)).
  { intros; simplify_eq. exists status. split; [done|]. by intros k ph _ ?. }
  rewrite Hprep, lookup_insert_eq.
  apply preparePhases_shape_kept in Hprep as (_ & _ & _ & Hsame).
  rewrite (Hsame _ eq_refl).
  destruct (executePhases _ resources status c cl) as [[[[w1 r] cl1] evs]|] eqn:Hrun;
    [|done].
  pose proof (executePhases_in_order _ _ _ _ _ _ _ _ _ Hnd Hrun) as Horder.
  destruct r as [e|b]; intros; simplify_eq; simpl;
    eexists; (split; [apply lookup_insert_eq|]); [done|].
  by destruct b.
Qed.

End PhaseOrder.

(** ** The further properties at work on the small world *)

Section MoreExamples.

Import Fixtures.

Lemma executePlan_keeps_names_witness :
  ∃ t,
    runStatic (planOf Serial "slow" "up") (heapOf pending) = Returned t
    ∧ ∃ status final,
        heapOf pending !! 0 = Some status
        ∧ tickHeap t !! 0 = Some final
        ∧ plsName final = plsName status
        ∧ skeleton final = skeleton status.
Proof.
  eexists. split; [vm_compute; reflexivity|].
  eapply (executePlan_keeps_names (planOf Serial "slow" "up") meta staticClient enhancer
            (heapOf pending) tt).
  vm_compute. reflexivity.
Defined.

Lemma executePlan_keeps_complete_witness :
  heapOf halfway !! 0 = Some halfway
  ∧ ∃ resources t,
      prepareKubeResources (planOf Serial "up" "slow") meta enhancer halfway
      = Returned (halfway, inr resources)
      ∧ runStatic (planOf Serial "up" "slow") (heapOf halfway) = Returned t
      ∧ ∃ final,
          tickHeap t !! 0 = Some final
          ∧ (∀ n i p, getPhaseFromStatus n halfway = Some (i, p) →
                      phsStatus p = ExecutionComplete →
                      getPhaseFromStatus n final = Some (i, p))
          ∧ (∀ n m, stepStatusOf n m halfway = Some ExecutionComplete →
                    stepStatusOf n m final = Some ExecutionComplete).
Proof.
  split; [reflexivity|]. eexists _, _.
  split; [vm_compute; reflexivity|]. split; [vm_compute; reflexivity|].
  eapply (executePlan_keeps_complete (planOf Serial "up" "slow") meta staticClient enhancer
           (heapOf halfway) tt halfway halfway _ _ eq_refl);
    vm_compute; reflexivity.
Defined.

Lemma executePlan_complete_sound_witness :
  heapOf pending !! 0 = Some pending
  ∧ IsTerminal (plsStatus pending) = false
  ∧ ∃ t final,
      runStatic (planOf Serial "up" "up") (heapOf pending) = Returned t
      ∧ tickHeap t !! 0 = Some final
      ∧ plsStatus final = ExecutionComplete
      ∧ tickErr t = None
      ∧ ∀ ph, ph ∈ planPhases (apSpec (planOf Serial "up" "up")) →
              phaseStatusOf (phaseName ph) final = Some ExecutionComplete.
Proof.
  split; [reflexivity|]. split; [reflexivity|]. eexists _, _.
  split; [vm_compute; reflexivity|]. split; [vm_compute; reflexivity|].
  split; [reflexivity|].
  eapply (executePlan_complete_sound (planOf Serial "up" "up") meta staticClient enhancer
           (heapOf pending) tt pending _ _ eq_refl eq_refl);
    vm_compute; reflexivity.
Defined.

Lemma executePhase_complete_sound_witness :
  phaseStatusOf "main" pending ≠ Some ExecutionComplete
  ∧ ∃ s1 exit evs,
      executePhase (phaseMain Serial "up" "up") readyResources pending staticClient tt
      = Returned (s1, exit, tt, evs)
      ∧ phaseStatusOf "main" s1 = Some ExecutionComplete
      ∧ ∀ st, st ∈ phaseSteps (phaseMain Serial "up" "up") →
              stepStatusOf "main" (stepName st) s1 = Some ExecutionComplete.
Proof.
  assert (phaseStatusOf "main" pending ≠ Some ExecutionComplete) as Hne.
  { vm_compute. discriminate. }
  split; [exact Hne|]. eexists _, _, _.
  split; [vm_compute; reflexivity|]. split; [vm_compute; reflexivity|].
  eapply (executePhase_complete_sound (phaseMain Serial "up" "up") readyResources pending
           staticClient tt _ _ tt _);
    [vm_compute; reflexivity | exact Hne | vm_compute; reflexivity].
Defined.

Lemma prepareKubeResources_resources_witness :
  NoDup (phaseName <$> planPhases (apSpec (planOf Serial "up" "slow")))
  ∧ distinctStepNames (apSpec (planOf Serial "up" "slow"))
  ∧ ∃ res,
      prepareKubeResources (planOf Serial "up" "slow") meta enhancer pending
      = Returned (pending, inr res)
      ∧ ∀ ph, ph ∈ planPhases (apSpec (planOf Serial "up" "slow")) →
              ∃ perStep,
                res !! phaseName ph = Some perStep
                ∧ (∀ n, n ∉ stepName <$> phaseSteps ph → perStep !! n = None)
                ∧ ∀ k s, phaseSteps ph !! k = Some s →
                         ∃ perTask : list (list Object),
                           perStep !! stepName s = Some (concat perTask)
                           ∧ Forall2
                               (taskObjects (planOf Serial "up" "slow") meta enhancer
                                  ph k s)
                               (stepTasks s) perTask.
Proof.
  assert (NoDup (phaseName <$> planPhases (apSpec (planOf Serial "up" "slow")))) as Hph.
  { apply NoDup_singleton. }
  assert (distinctStepNames (apSpec (planOf Serial "up" "slow"))) as Hst.
  { constructor; [|constructor]. simpl. apply NoDup_cons.
    split; [intros H%list_elem_of_singleton; discriminate H | apply NoDup_singleton]. }
  split; [exact Hph|]. split; [exact Hst|]. eexists.
  split; [vm_compute; reflexivity|].
  eapply (prepareKubeResources_resources (planOf Serial "up" "slow") meta enhancer
            pending pending _); [vm_compute; reflexivity | exact Hph | exact Hst].
Defined.

Lemma prepareKubeResources_status_independent_witness :
  hasEntries (apSpec (planOf Serial "up" "slow")) halfway
  ∧ ∃ status1 res,
      prepareKubeResources (planOf Serial "up" "slow") meta enhancer pending
      = Returned (status1, inr res)
      ∧ status1 = pending
      ∧ prepareKubeResources (planOf Serial "up" "slow") meta enhancer halfway
        = Returned (halfway, inr res).
Proof.
  assert (hasEntries (apSpec (planOf Serial "up" "slow")) halfway) as Hent.
  { apply statusMatchesSpec_hasEntries. reflexivity. }
  split; [exact Hent|]. eexists _, _.
  split; [vm_compute; reflexivity|].
  eapply (prepareKubeResources_status_independent (planOf Serial "up" "slow") meta
           enhancer pending _ _ halfway); [vm_compute; reflexivity | exact Hent].
Defined.

Lemma executePlan_calls_only_when_prepared_witness :
  ∃ t,
    runStatic (planOf Serial "up" "slow") (heapOf pending) = Returned t
    ∧ (tickEvents t ≠ [] →
       Forall (phasePrepares (planOf Serial "up" "slow") meta enhancer)
         (planPhases (apSpec (planOf Serial "up" "slow"))))
    ∧ (¬ Forall (phasePrepares (planOf Serial "up" "slow") meta enhancer)
           (planPhases (apSpec (planOf Serial "up" "slow"))) →
       tickEvents t = [] ∧ tickCluster t = tt).
Proof.
  eexists. split; [vm_compute; reflexivity|].
  eapply (executePlan_calls_only_when_prepared (planOf Serial "up" "slow") meta staticClient
           enhancer (heapOf pending) tt).
  vm_compute. reflexivity.
Defined.

Lemma executePlan_stuck_on_fatal_phase_witness :
  heapOf stuck !! 0 = Some stuck
  ∧ IsTerminal (plsStatus stuck) = false
  ∧ (∃ resources,
       prepareKubeResources (planOf Serial "up" "up") meta enhancer stuck
       = Returned (stuck, inr resources))
  ∧ phaseStatusOf "main" stuck = Some ExecutionFatalError
  ∧ runStatic (planOf Serial "up" "up") (heapOf stuck)
    = Returned (mkTick 0 None (heapOf stuck) tt []).
Proof.
  split; [reflexivity|]. split; [reflexivity|].
  split; [eexists; vm_compute; reflexivity|]. split; [reflexivity|].
  eapply (executePlan_stuck_on_fatal_phase (planOf Serial "up" "up") meta staticClient
            enhancer (heapOf stuck) tt stuck stuck _ [] (phaseMain Serial "up" "up") []
            eq_refl eq_refl);
    [vm_compute; reflexivity | reflexivity | constructor | reflexivity].
Defined.

Lemma executePlan_completes_in_one_tick_witness :
  heapOf pending !! 0 = Some pending
  ∧ IsTerminal (plsStatus pending) = false
  ∧ hasEntries (apSpec (planOf Serial "up" "slow")) pending
  ∧ noneFatal pending
  ∧ alwaysHealthy (oracle := healthyOracle) staticClient
  ∧ ∃ t final,
      executePlan (oracle := healthyOracle) (planOf Serial "up" "slow") meta
        staticClient enhancer (heapOf pending) tt = Returned t
      ∧ tickErr t = None
      ∧ tickHeap t !! 0 = Some final
      ∧ plsStatus final = ExecutionComplete
      ∧ ∀ ph, ph ∈ planPhases (apSpec (planOf Serial "up" "slow")) →
              phaseStatusOf (phaseName ph) final = Some ExecutionComplete.
Proof.
  assert (hasEntries (apSpec (planOf Serial "up" "slow")) pending) as Hent.
  { apply statusMatchesSpec_hasEntries. reflexivity. }
  assert (noneFatal pending) as Hnf.
  { repeat constructor; discriminate. }
  assert (alwaysHealthy (oracle := healthyOracle) staticClient) as Hc.
  { intros step r cl. unfold applyResource.
    destruct (stepDelete step); [left|right]; reflexivity. }
  split; [reflexivity|]. split; [reflexivity|]. split; [exact Hent|].
  split; [exact Hnf|]. split; [exact Hc|].
  eapply (executePlan_completes_in_one_tick (oracle := healthyOracle)
            (planOf Serial "up" "slow") meta staticClient enhancer (heapOf pending) tt
            pending pending _ eq_refl eq_refl Hent Hnf);
    [vm_compute; reflexivity | exact Hc].
Defined.

Lemma executePlan_phases_in_order_witness :
  heapOf twoPending !! 0 = Some twoPending
  ∧ NoDup (phaseName <$> planPhases (apSpec twoPhases))
  ∧ ∃ resources t,
      prepareKubeResources twoPhases meta enhancer twoPending
      = Returned (twoPending, inr resources)
      ∧ runStatic twoPhases (heapOf twoPending) = Returned t
      ∧ ∃ final,
          tickHeap t !! 0 = Some final
          ∧ getPhaseFromStatus "second" final ≠ getPhaseFromStatus "second" twoPending
          ∧ phaseStatusOf "first" final = Some ExecutionComplete
          ∧ ∀ k ph, planPhases (apSpec twoPhases) !! k = Some ph →
                    getPhaseFromStatus (phaseName ph) final
                    ≠ getPhaseFromStatus (phaseName ph) twoPending →
                    ∀ i ph', i < k →
                             planPhases (apSpec twoPhases) !! i = Some ph' →
                             phaseStatusOf (phaseName ph') final
                             = Some ExecutionComplete.
Proof.
  assert (NoDup (phaseName <$> planPhases (apSpec twoPhases))) as Hph.
  { simpl. apply NoDup_cons.
    split; [intros H%list_elem_of_singleton; discriminate H | apply NoDup_singleton]. }
  split; [reflexivity|]. split; [exact Hph|]. eexists _, _.
  split; [vm_compute; reflexivity|]. split; [vm_compute; reflexivity|].
  edestruct (executePlan_phases_in_order twoPhases meta staticClient enhancer
               (heapOf twoPending) tt twoPending twoPending)
    as (final & Hf & Hall);
    [reflexivity | vm_compute; reflexivity | exact Hph | vm_compute; reflexivity |].
  exists final. split; [exact Hf|].
  assert (getPhaseFromStatus "second" final ≠ getPhaseFromStatus "second" twoPending)
    as Hch.
  { vm_compute in Hf. injection Hf as <-. vm_compute. discriminate. }
  split; [exact Hch|]. split; [|exact Hall].
  exact (Hall 1 (mkPhase "second" Serial [mkStep "b" ["up"] false]) eq_refl Hch
           0 (mkPhase "first" Serial [mkStep "a" ["up"] false]) (le_n 1) eq_refl).
Defined.

End MoreExamples.
